(** * The multi-part package downloader (download_bedrock_appx.js)

    A shallow embedding of the downloader script: the range probe
    ([getFileSize], [supportsRange]), the segment downloader
    ([downloadPart]), the aggregator ([concatParts]), the polling progress
    monitor and the orchestrator ([multiPartDownload], [downloadWithResume]).

    Conventions of the embedding.
    - Sizes and offsets are JavaScript numbers holding integers in the exact
      range of doubles, of magnitude up to [2 ^ 53]; they are modelled as
      [Z], and statements about the values computed carry that bound.  [NaN]
      and [undefined] are modelled where the script can produce them (the
      parsed content length).
    - The file system is a finite map from paths to byte contents, together
      with a log of the operations performed on it.  Creating a write stream
      creates or truncates its file; what is piped into a stream is appended
      to its file; the size a tick reads is the length of the contents.
    - What the script writes to the terminal is kept as a list of structured
      lines ([output]); a progress line keeps the two numbers it prints.
    - The HTTP client [got] is outside the script: a call is recorded with
      its options in the world, the answers to the HEAD requests are given by
      a [network], and whatever retries [got] makes happen inside it, with
      the options object of the call.
    - The asynchronous part (stream chunks, stream completion and failure,
      timer ticks) is driven by an explicit schedule of events handed to the
      event loop, one callback at a time, as Node.js runs them.  A stream's
      [Error] is its final failure, after the client has given up. *)

From Stdlib Require Import ZArith Lia List Ascii.
From stdpp Require Import base numbers option list sorting strings gmap pretty.

Local Open Scope Z_scope.

(** ** JavaScript numbers and [parseInt] *)

(** A number that is either an integer or NaN.  The numbers of JavaScript
    are IEEE doubles: they hold every integer of magnitude up to [2 ^ 53]
    exactly, and round beyond.  The arithmetic below is that of the integers;
    it is the arithmetic of the code for sizes up to [2 ^ 53], and the
    statements about the values computed carry that bound. *)
Inductive jsnum :=
| JNaN
| JNum (n : Z).

Global Instance jsnum_eq_dec : EqDecision jsnum.
Proof. solve_decision. Defined.

(** Truthiness of [fileSize], which is [undefined] (here [None]) when the
    probe threw before assigning it. *)
Definition truthy (v : option jsnum) : bool :=
  match v with
  | Some (JNum n) => negb (n =? 0)
  | Some JNaN => false
  | None => false
  end.

(** [v > k] on numbers: false for NaN and for undefined. *)
Definition js_gt (v : option jsnum) (k : Z) : bool :=
  match v with
  | Some (JNum n) => k <? n
  | _ => false
  end.

(** [Math.ceil(a / b)] for integers [a] and [b > 0]; for [a] up to [2 ^ 53]
    rounding the quotient to a double does not change its ceiling. *)
Definition Math_ceil_div (a b : Z) : Z := - ((- a) `div` b).

(** White space skipped by [parseInt], among the ASCII characters: space,
    tab, line feed, vertical tab, form feed, carriage return. *)
Definition is_space (c : ascii) : bool :=
  let n := nat_of_ascii c in
  bool_decide (n = 32%nat ∨ (9 ≤ n ≤ 13)%nat).

Definition digit_of (c : ascii) : option Z :=
  let n := Z.of_nat (nat_of_ascii c) in
  if bool_decide (48 ≤ n ≤ 57) then Some (n - 48) else None.

Fixpoint skip_spaces (s : string) : string :=
  match s with
  | String c s' => if is_space c then skip_spaces s' else s
  | EmptyString => s
  end.

(** The longest prefix of decimal digits, [None] when it is empty. *)
Fixpoint digits (s : string) (acc : option Z) : option Z :=
  match s with
  | String c s' =>
      match digit_of c with
      | Some d => digits s' (Some (10 * default 0 acc + d))
      | None => acc
      end
  | EmptyString => acc
  end.

(** [parseInt(s, 10)] on a string: the integer that the digits denote,
    which is the number returned as long as its magnitude is at most
    [2 ^ 53]. *)
Definition parseInt_string (s : string) : jsnum :=
  let s := skip_spaces s in
  let '(sign, s) :=
    match s with
    | String "-" s' => (-1, s')
    | String "+" s' => (1, s')
    | _ => (1, s)
    end in
  match digits s None with
  | Some n => JNum (sign * n)
  | None => JNaN
  end.

(** [parseInt(v, 10)] on a header value: a missing header is [undefined],
    which [parseInt] converts to the string "undefined" first. *)
Definition parseInt (v : option string) : jsnum :=
  match v with
  | Some s => parseInt_string s
  | None => parseInt_string "undefined"
  end.

(** ** Segment ranges *)

(** The arguments of the [downloadPart] calls made by the loop of
    [multiPartDownload], in the order of the calls. *)
Record part_call := {
  pc_dest : string;
  pc_start : Z;
  pc_end : Z;
  pc_index : nat;
}.

Definition part_file (dest : string) (i : nat) : string :=
  dest +:+ ".part" +:+ pretty i.

Section Plan.
Variable PARTS : nat.

Definition partSize (fileSize : Z) : Z :=
  Math_ceil_div fileSize (Z.of_nat PARTS).

Definition part_call_at (dest : string) (fileSize : Z) (i : nat) : part_call :=
  let start := Z.of_nat i * partSize fileSize in
  let end_ := Z.min ((Z.of_nat i + 1) * partSize fileSize - 1) (fileSize - 1) in
  {| pc_dest := part_file dest i; pc_start := start; pc_end := end_;
     pc_index := i |}.

Definition part_calls (dest : string) (fileSize : Z) : list part_call :=
  map (part_call_at dest fileSize) (seq 0 PARTS).

(** The inclusive byte ranges requested, in index order. *)
Definition ranges (fileSize : Z) : list (Z * Z) :=
  map (λ c, (pc_start c, pc_end c)) (part_calls "" fileSize).
End Plan.

(** [tiles lo hi segs]: the inclusive ranges [segs], in order, are non-empty,
    start at [lo], each starts right after the previous one ends, and the
    last one ends at [hi - 1]. *)
Fixpoint tiles (lo hi : Z) (segs : list (Z * Z)) : Prop :=
  match segs with
  | [] => lo = hi
  | (s, e) :: rest => s = lo ∧ s ≤ e ∧ tiles (e + 1) hi rest
  end.

Definition in_range (b : Z) (r : Z * Z) : Prop := r.1 ≤ b ≤ r.2.

(** ** The world: files, terminal, requests *)

Inductive fsop :=
| OpCreate (p : string)                       (* fs.createWriteStream(p) *)
| OpWrite (p : string) (data : list Byte.byte) (* bytes piped into the stream on p *)
| OpRead (p : string)                         (* fs.createReadStream(p), read to its end *)
| OpUnlink (p : string).                      (* fs.unlinkSync(p) *)

Inductive output :=
| OutProgress (sum total : Z)   (* "\r<pct>% [<sum>/<total>]" *)
| OutBytes (downloaded : Z)     (* "\r<downloaded> bytes" *)
| OutNewline                    (* "\n" *)
| LogHeadFailed                 (* console.log: the HEAD request failed, falling
                                   back to a plain download *)
| LogMultiPart.                 (* console.log: the server supports Range, using
                                   the multi-part download *)

Global Instance output_eq_dec : EqDecision output.
Proof. solve_decision. Defined.

Inductive http_method := GET | HEAD.

Record timeouts := {
  t_request : Z;
  t_connect : Z;
  t_response : Z;
  t_socket : Z;
}.

(** The options object handed to [got]; [None] is an option left unset. *)
Record gotOptions := {
  method : http_method;
  http2 : bool;
  header_user_agent : string;
  header_range : option string;
  retry_limit : option Z;
  timeout : option timeouts;
  isStream : bool;
}.

Record world := {
  files : gmap string (list Byte.byte);
  fsops : list fsop;
  stdout : list output;
  requests : list (string * gotOptions);
}.

Definition fs_create (p : string) (w : world) : world :=
  {| files := <[p := []]> (files w); fsops := fsops w ++ [OpCreate p];
     stdout := stdout w; requests := requests w |}.

(** A write through an open stream appends to the file the stream holds. *)
Definition fs_write (p : string) (data : list Byte.byte) (w : world) : world :=
  {| files := alter (λ c, c ++ data) p (files w);
     fsops := fsops w ++ [OpWrite p data];
     stdout := stdout w; requests := requests w |}.

Definition fs_read (p : string) (w : world) : world :=
  {| files := files w; fsops := fsops w ++ [OpRead p];
     stdout := stdout w; requests := requests w |}.

Definition fs_unlink (p : string) (w : world) : world :=
  {| files := delete p (files w); fsops := fsops w ++ [OpUnlink p];
     stdout := stdout w; requests := requests w |}.

Definition print (o : output) (w : world) : world :=
  {| files := files w; fsops := fsops w; stdout := stdout w ++ [o];
     requests := requests w |}.

Definition got (url : string) (o : gotOptions) (w : world) : world :=
  {| files := files w; fsops := fsops w; stdout := stdout w;
     requests := requests w ++ [(url, o)] |}.

(** ** The range probe *)

Definition USER_AGENT : string :=
  "Mozilla/5.0 (Windows NT 10.0; Win64; x64) AppleWebKit/537.36 (KHTML, like Gecko) Chrome/124.0.0.0 Safari/537.36".

Definition head_options : gotOptions :=
  {| method := HEAD; http2 := true; header_user_agent := USER_AGENT;
     header_range := None; retry_limit := None; timeout := None;
     isStream := false |}.

(** The answer to a HEAD request: the response headers, or [None] when [got]
    throws (network error, status outside 2xx). *)
Definition getFileSize (url : string) (resp : option (gmap string string))
    (w : world) : option jsnum * world :=
  let w := got url head_options w in
  match resp with
  | Some h => (Some (parseInt (h !! "content-length")), w)
  | None => (None, w)
  end.

Definition supportsRange (url : string) (resp : option (gmap string string))
    (w : world) : option bool * world :=
  let w := got url head_options w in
  match resp with
  | Some h => (Some (bool_decide (h !! "accept-ranges" = Some "bytes")), w)
  | None => (None, w)
  end.

(** ** The segment downloader *)

Definition stream_timeouts : timeouts :=
  {| t_request := 300000; t_connect := 60000; t_response := 300000;
     t_socket := 300000 |}.

Definition range_header (start end_ : Z) : string :=
  "bytes=" +:+ pretty start +:+ "-" +:+ pretty end_.

Definition part_options (start end_ : Z) : gotOptions :=
  {| method := GET; http2 := true; header_user_agent := USER_AGENT;
     header_range := Some (range_header start end_);
     retry_limit := Some 5; timeout := Some stream_timeouts;
     isStream := true |}.

(** The synchronous part of [downloadPart]: the request is handed to [got]
    and the write stream on [dest] is created; the returned promise is
    pending.  The stream's events come later, through the schedule. *)
Definition downloadPart (url dest : string) (start end_ : Z) (partIdx : nat)
    (w : world) : world :=
  fs_create dest (got url (part_options start end_) w).

(** ** The aggregator *)

Inductive failure :=
| SegmentFailed                   (* a segment's stream or file emitted 'error' *)
| ReadFailed (part : string)      (* a part could not be read while aggregating *)
| StreamFailed.                   (* the single stream or its file emitted 'error' *)

Inductive completion :=
| Returned
| Threw (e : failure)
| NeverSettles.

Fixpoint concat_loop (dest : string) (partFiles : list string) (w : world)
    : completion * world :=
  match partFiles with
  | [] => (Returned, w)
  | part :: rest =>
      match files w !! part with
      | Some bytes =>
          let w := fs_write dest bytes (fs_read part w) in
          let w := fs_unlink part w in
          concat_loop dest rest w
      | None => (Threw (ReadFailed part), fs_read part w)
      end
  end.

Definition concatParts (dest : string) (partFiles : list string) (w : world)
    : completion * world :=
  concat_loop dest partFiles (fs_create dest w).

(** ** Events of the event loop *)

(** Stream [i] is the [i]-th download stream of the transfer: the stream of
    part [i] in a multi-part transfer, stream [0] in a single-stream one. *)
Inductive event :=
| Data (i : nat) (chunk : list Byte.byte)   (* a chunk is piped into the file *)
| DownloadProgress (i : nat) (transferred : Z) (total : option Z)
| Finish (i : nat)                          (* the file emits 'finish' *)
| Error (i : nat)                           (* the stream or the file emits 'error' *)
| Tick.                                     (* the interval timer fires *)

Inductive promise := Pending | Resolved | Rejected.

Global Instance promise_eq_dec : EqDecision promise.
Proof. solve_decision. Defined.

Inductive settled := AllResolved | FirstRejected | StillPending.

(** [Promise.all]: rejected as soon as one promise is, resolved when all are. *)
Definition promise_all (ts : list promise) : settled :=
  if bool_decide (Rejected ∈ ts) then FirstRejected
  else if bool_decide (Pending ∈ ts) then StillPending
  else AllResolved.

(** ** The progress monitor and the multi-part transfer *)

(** The variables of one [multiPartDownload] call that its callbacks close
    over; [interval] tells whether the timer is armed. *)
Record transfer := {
  partFiles : list string;
  tasks : list promise;
  downloaded : list Z;
  total : Z;
  interval : bool;
}.

Definition set_tasks (ts : list promise) (t : transfer) : transfer :=
  {| partFiles := partFiles t; tasks := ts; downloaded := downloaded t;
     total := total t; interval := interval t |}.

Definition set_downloaded (d : list Z) (t : transfer) : transfer :=
  {| partFiles := partFiles t; tasks := tasks t; downloaded := d;
     total := total t; interval := interval t |}.

Definition clearInterval (t : transfer) : transfer :=
  {| partFiles := partFiles t; tasks := tasks t; downloaded := downloaded t;
     total := total t; interval := false |}.

(** One iteration of the loop of the interval callback. *)
Definition tick_body (fs : gmap string (list Byte.byte)) (partFiles : list string)
    (acc : list Z * Z) (i : nat) : list Z * Z :=
  let '(downloaded, sum) := acc in
  let downloaded :=
    match partFiles !! i with
    | Some p =>
        match fs !! p with
        | Some bytes => <[i := Z.of_nat (length bytes)]> downloaded
        | None => downloaded
        end
    | None => downloaded
    end in
  (downloaded, sum + default 0 (downloaded !! i)).

Record outcome := {
  result : completion;
  monitor : option transfer;
  after : world;
  unprocessed : list event;
}.

(** ** The single-stream download and the orchestrator *)

Definition fallback_options : gotOptions :=
  {| method := GET; http2 := true; header_user_agent := USER_AGENT;
     header_range := None; retry_limit := Some 5;
     timeout := Some stream_timeouts; isStream := true |}.

(** [a || b] where [a] is a number or undefined. *)
Definition js_or (a : option Z) (b : Z) : Z :=
  match a with
  | Some n => if n =? 0 then b else n
  | None => b
  end.

(** [fileSize || 0]; also the number held by [fileSize] once the guard of
    the multi-part branch has passed. *)
Definition or_zero (v : option jsnum) : Z :=
  match v with
  | Some (JNum n) => n
  | _ => 0
  end.

(** The callbacks of the single stream, run until its promise settles. *)
Fixpoint single_stream_loop (dest : string) (total : Z) (sched : list event)
    (w : world) : outcome :=
  match sched with
  | [] => {| result := NeverSettles; monitor := None; after := w;
             unprocessed := [] |}
  | e :: rest =>
      match e with
      | DownloadProgress O transferred tot =>
          let total := js_or tot total in
          let w := if total =? 0 then print (OutBytes transferred) w
                   else print (OutProgress transferred total) w in
          single_stream_loop dest total rest w
      | Data O chunk => single_stream_loop dest total rest (fs_write dest chunk w)
      | Finish O =>
          {| result := Returned; monitor := None; after := print OutNewline w;
             unprocessed := rest |}
      | Error O =>
          {| result := Threw StreamFailed; monitor := None; after := w;
             unprocessed := rest |}
      | _ => single_stream_loop dest total rest w
      end
  end.

(** The tail of [downloadWithResume] after the multi-part branch. *)
Definition singleStream (url dest : string) (fileSize : option jsnum)
    (sched : list event) (w : world) : outcome :=
  let w := got url fallback_options w in
  let w := fs_create dest w in
  single_stream_loop dest (or_zero fileSize) sched w.

(** What the network does during one call of [downloadWithResume]. *)
Record network := {
  head_size : option (gmap string string);   (* HEAD of getFileSize *)
  head_range : option (gmap string string);  (* HEAD of supportsRange *)
  stream_events : list event;
}.

(** The [try]/[catch] around the two probes: what [fileSize] and
    [rangeSupported] hold after it. *)
Definition probe (url : string) (net : network) (w : world)
    : option jsnum * bool * world :=
  match getFileSize url (head_size net) w with
  | (Some size, w) =>
      match supportsRange url (head_range net) w with
      | (Some r, w) => (Some size, r, w)
      | (None, w) => (Some size, false, print LogHeadFailed w)
      end
  | (None, w) => (None, false, print LogHeadFailed w)
  end.

Definition multipart_guard (fileSize : option jsnum) (rangeSupported : bool)
    : bool :=
  truthy fileSize && rangeSupported && js_gt fileSize (10 * 1024 * 1024).

Section MultiPart.
Variable PARTS : nat.

Definition interval_callback (t : transfer) (w : world) : transfer * world :=
  let '(d, sum) :=
    foldl (tick_body (files w) (partFiles t)) (downloaded t, 0) (seq 0 PARTS) in
  (set_downloaded d t, print (OutProgress sum (total t)) w).

(** One turn of the event loop while the transfer's callbacks are attached. *)
Definition step (e : event) (s : transfer * world) : transfer * world :=
  let '(t, w) := s in
  match e with
  | Tick => if interval t then interval_callback t w else s
  | Data i chunk =>
      match tasks t !! i, partFiles t !! i with
      | Some Pending, Some p => (t, fs_write p chunk w)
      | _, _ => s
      end
  | Finish i =>
      match tasks t !! i with
      | Some Pending => (set_tasks (<[i := Resolved]> (tasks t)) t, w)
      | _ => s
      end
  | Error i =>
      match tasks t !! i with
      | Some Pending => (set_tasks (<[i := Rejected]> (tasks t)) t, w)
      | _ => s
      end
  | DownloadProgress _ _ _ => s
  end.

(** [await Promise.all(tasks)]: the event loop runs until the promise
    settles; events left over are returned with the state. *)
Fixpoint await_all (sched : list event) (s : transfer * world)
    : settled * (transfer * world) * list event :=
  match promise_all (tasks s.1) with
  | StillPending =>
      match sched with
      | [] => (StillPending, s, [])
      | e :: rest => await_all rest (step e s)
      end
  | r => (r, s, sched)
  end.

(** The event loop after the transfer's promise has settled. *)
Definition event_loop (sched : list event) (s : transfer * world)
    : transfer * world :=
  foldl (λ s e, step e s) s sched.

(** The state after the synchronous part of [multiPartDownload]: the loop
    has pushed the part files and started the tasks, the array of observed
    sizes is filled with zeros and the interval timer is set. *)
Definition spawn_parts (url : string) (calls : list part_call) (w : world)
    : world :=
  foldl (λ w c, downloadPart url (pc_dest c) (pc_start c) (pc_end c)
                  (pc_index c) w) w calls.

Definition new_transfer (dest : string) (fileSize : Z) : transfer :=
  {| partFiles := map pc_dest (part_calls PARTS dest fileSize);
     tasks := replicate PARTS Pending;
     downloaded := replicate PARTS 0;
     total := fileSize;
     interval := true |}.

Definition multiPartDownload (url dest : string) (fileSize : Z)
    (sched : list event) (w : world) : outcome :=
  let w := spawn_parts url (part_calls PARTS dest fileSize) w in
  let t := new_transfer dest fileSize in
  match await_all sched (t, w) with
  | (AllResolved, (t, w), rest) =>
      let t := clearInterval t in
      let w := print OutNewline w in
      let '(r, w) := concatParts dest (partFiles t) w in
      {| result := r; monitor := Some t; after := w; unprocessed := rest |}
  | (FirstRejected, (t, w), rest) =>
      {| result := Threw SegmentFailed; monitor := Some t; after := w;
         unprocessed := rest |}
  | (StillPending, (t, w), rest) =>
      {| result := NeverSettles; monitor := Some t; after := w;
         unprocessed := rest |}
  end.

Definition downloadWithResume (url dest : string) (net : network) (w : world)
    : outcome :=
  let '(fileSize, rangeSupported, w) := probe url net w in
  if multipart_guard fileSize rangeSupported then
    let w := print LogMultiPart w in
    multiPartDownload url dest (or_zero fileSize) (stream_events net) w
  else
    singleStream url dest fileSize (stream_events net) w.
End MultiPart.

(** The number of parallel streams of the script. *)
Definition PARTS : nat := 4.

(** ** Vocabulary of the statements *)

(** The bytes of [obj] at the offsets of the inclusive range [r]: the body of
    the response to a request for that range. *)
Definition range_bytes (obj : list Byte.byte) (r : Z * Z) : list Byte.byte :=
  take (Z.to_nat (r.2 - r.1 + 1)) (drop (Z.to_nat r.1) obj).

(** The operations of an aggregation of [parts], holding [contents], into
    [dest]: each part is read, appended, then unlinked, before the next. *)
Fixpoint aggregate_ops (dest : string) (parts : list string)
    (contents : list (list Byte.byte)) : list fsop :=
  match parts, contents with
  | p :: parts, c :: contents =>
      OpRead p :: OpWrite dest c :: OpUnlink p :: aggregate_ops dest parts contents
  | _, _ => []
  end.

Definition sumZ (l : list Z) : Z := foldr Z.add 0 l.

(** The progress events among the lines written to the terminal, as pairs
    (bytesTransferred, bytesTotal). *)
Definition progress_of (o : output) : option (Z * Z) :=
  match o with
  | OutProgress sum total => Some (sum, total)
  | _ => None
  end.

Definition progress_events (l : list output) : list (Z * Z) :=
  omap progress_of l.

(** What a tick observes for part [i] whose last observed size was [old]. *)
Definition observed (fs : gmap string (list Byte.byte)) (partFiles : list string)
    (i : nat) (old : Z) : Z :=
  match partFiles !! i with
  | Some p =>
      match fs !! p with
      | Some bytes => Z.of_nat (length bytes)
      | None => old
      end
  | None => old
  end.

(** What holds of a multi-part transfer of [fileSize] bytes to [dest], started
    in the world [w0], at every turn of the event loop: the closure keeps its
    part files and total; the arrays keep their length; an observed size never
    exceeds the current size of its file; the part files exist; no other file
    has changed; and what has been printed since the start is one progress
    line per tick, whose sums never decrease and never exceed the sum of the
    sizes observed last. *)
Definition transfer_inv (PARTS : nat) (dest : string) (fileSize : Z)
    (w0 : world) (s : transfer * world) : Prop :=
  partFiles s.1 = map pc_dest (part_calls PARTS dest fileSize) ∧
  total s.1 = fileSize ∧
  length (tasks s.1) = PARTS ∧
  length (downloaded s.1) = PARTS ∧
  (∀ (i : nat) p c x,
      partFiles s.1 !! i = Some p → files s.2 !! p = Some c →
      downloaded s.1 !! i = Some x → x ≤ Z.of_nat (length c)) ∧
  (∀ p, p ∈ partFiles s.1 → is_Some (files s.2 !! p)) ∧
  (∀ p, p ∉ partFiles s.1 → files s.2 !! p = files w0 !! p) ∧
  (∃ sums, stdout s.2 = stdout w0 ++ map (λ x, OutProgress x fileSize) sums ∧
           Sorted Z.le sums ∧
           Forall (λ x, x ≤ sumZ (downloaded s.1)) sums).

(** While segment [i] is in flight and nothing has failed, the joined promise
    stays pending. *)
Definition in_flight (i : nat) (s : transfer * world) : Prop :=
  tasks s.1 !! i = Some Pending ∧ Rejected ∉ tasks s.1.

(** No segment has failed, and every segment still in flight has its
    'finish' ahead in the schedule. *)
Definition finishing (PARTS : nat) (sched : list event) (s : transfer * world)
    : Prop :=
  (Rejected ∉ tasks s.1) ∧
  length (tasks s.1) = PARTS ∧
  (∀ i : nat, (i < PARTS)%nat →
     tasks s.1 !! i = Some Resolved ∨
     (tasks s.1 !! i = Some Pending ∧ Finish i ∈ sched)).

(** The path an operation acts on. *)
Definition op_path (o : fsop) : string :=
  match o with
  | OpCreate p | OpWrite p _ | OpRead p | OpUnlink p => p
  end.

(** ** Scenarios *)

Definition example_url : string := "https://cdn.example/1.21.94.Appx".
Definition example_dest : string := "downloads/1.21.94.Appx".

Definition empty_world : world :=
  {| files := ∅; fsops := []; stdout := []; requests := [] |}.

(** Response headers of a server that announces a size and byte ranges. *)
Definition ranged_headers (size : string) : gmap string string :=
  {[ "content-length" := size; "accept-ranges" := "bytes" ]}.

Definition three_bytes : list Byte.byte := [Byte.x4d; Byte.x5a; Byte.x90].

(** A server announcing 16,000,000 bytes; the stream of part 0 delivers three
    bytes, part 2 then fails for good, and the timer fires once more. *)
Definition failing_network : network :=
  {| head_size := Some (ranged_headers "16000000");
     head_range := Some (ranged_headers "16000000");
     stream_events := [Data 0 three_bytes; Tick; Error 2; Tick] |}.

(** The same server; the timer fires once while part 0 holds three bytes,
    then the four streams finish. *)
Definition early_tick_network : network :=
  {| head_size := Some (ranged_headers "16000000");
     head_range := Some (ranged_headers "16000000");
     stream_events :=
       [Data 0 three_bytes; Tick; Finish 0; Finish 1; Finish 2; Finish 3] |}.

(** A server announcing a size of exactly 10 MiB, with byte ranges. *)
Definition boundary_network : network :=
  {| head_size := Some (ranged_headers "10485760");
     head_range := Some (ranged_headers "10485760");
     stream_events := [Data 0 three_bytes; Finish 0] |}.

(** A server announcing 5,000,000 bytes, with byte ranges. *)
Definition small_network : network :=
  {| head_size := Some (ranged_headers "5000000");
     head_range := Some (ranged_headers "5000000");
     stream_events := [Data 0 three_bytes; Finish 0] |}.

(** A server that answers the HEAD requests without a content length, and
    announces byte ranges. *)
Definition sizeless_network : network :=
  {| head_size := Some {[ "accept-ranges" := "bytes" ]};
     head_range := Some {[ "accept-ranges" := "bytes" ]};
     stream_events := [Data 0 three_bytes; Finish 0] |}.

(** A server whose HEAD requests fail. *)
Definition headless_network : network :=
  {| head_size := None; head_range := None;
     stream_events := [Data 0 three_bytes; Finish 0] |}.

(** ** What a stream has delivered *)

(** The bytes that event [e] pipes into the file of stream [i]. *)
Definition event_bytes (i : nat) (e : event) : list Byte.byte :=
  match e with
  | Data j chunk => if decide (j = i) then chunk else []
  | _ => []
  end.

(** Whether event [e] ends stream [i]: its file finishes or it fails. *)
Definition ends_stream (i : nat) (e : event) : bool :=
  match e with
  | Finish j | Error j => bool_decide (j = i)
  | _ => false
  end.

(** The bytes stream [i] delivers in a schedule: its chunks, in order, up to
    the event that ends the stream. *)
Fixpoint received (i : nat) (sched : list event) : list Byte.byte :=
  match sched with
  | [] => []
  | e :: rest =>
      if ends_stream i e then [] else event_bytes i e ++ received i rest
  end.

(** Eight bytes in four parts: the streams deliver their ranges in chunks of
    their own, interleaved, with a tick in between, and finish in no
    particular order. *)
Definition eight_bytes : list Byte.byte :=
  [Byte.x00; Byte.x01; Byte.x02; Byte.x03; Byte.x04; Byte.x05; Byte.x06; Byte.x07].

Definition interleaved_schedule : list event :=
  [Data 1 [Byte.x02]; Data 0 [Byte.x00; Byte.x01]; Data 1 [Byte.x03]; Tick;
   Data 3 [Byte.x06; Byte.x07]; Finish 0; Data 2 [Byte.x04]; Finish 3;
   Data 2 [Byte.x05]; Finish 1; Finish 2].

(** The lines the single stream prints while it runs: a percentage line,
    which needs a total other than zero, or a plain count of bytes. *)
Definition progress_line (o : output) : Prop :=
  match o with
  | OutProgress _ total => total ≠ 0
  | OutBytes _ => True
  | _ => False
  end.

(** Strings made of white space only, and strings that do not start with a
    decimal digit. *)
Fixpoint all_spaces (s : string) : bool :=
  match s with
  | String c s' => is_space c && all_spaces s'
  | EmptyString => true
  end.

Definition no_leading_digit (s : string) : Prop :=
  match s with
  | String c _ => digit_of c = None
  | EmptyString => True
  end.

(** The paths a transfer to [dest] in [PARTS] parts may touch: the
    destination and its part files. *)
Definition transfer_path (PARTS : nat) (dest p : string) : Prop :=
  p = dest ∨ ∃ k : nat, (k < PARTS)%nat ∧ p = part_file dest k.

(** * The version list generator (generate_version_json.js) *)

(** ** [fetchWithRetry] *)

(** What [fetchWithRetry] does besides computing its result: calls of
    [fetchJson], lines "Retry i/retries for url", and waits in
    milliseconds. *)
Inductive retry_step :=
| Fetch
| RetryLine (i retries : Z)
| Wait (ms : Z).

Global Instance retry_step_eq_dec : EqDecision retry_step.
Proof. solve_decision. Defined.

(** How a call ends: with the value of a fetch, with [undefined] when the
    loop body never runs, or by throwing the error of a fetch. *)
Inductive retry_result (A E : Type) :=
| Fetched (v : A)
| Undefined
| Thrown (e : E).
Arguments Fetched {A E} v.
Arguments Undefined {A E}.
Arguments Thrown {A E} e.

Section Retry.
Context {A E : Type}.
(** The outcome of the [k]-th call of [fetchJson], counted from 0. *)
Variable attempt : nat → A + E.

(** The loop [for (let i = 0; i < retries; i++)], from index [i], with
    [remaining] iterations to go. *)
Fixpoint retry_loop (retries : Z) (remaining : nat) (i : nat)
    : retry_result A E * list retry_step :=
  match remaining with
  | O => (Undefined, [])
  | S remaining =>
      match attempt i with
      | inl v => (Fetched v, [Fetch])
      | inr e =>
          if Z.of_nat i =? retries - 1 then (Thrown e, [Fetch])
          else
            let '(r, steps) := retry_loop retries remaining (S i) in
            (r, Fetch :: RetryLine (Z.of_nat i + 1) retries
                  :: Wait (1000 * (Z.of_nat i + 1)) :: steps)
      end
  end.

Definition fetchWithRetry (retries : Z) : retry_result A E * list retry_step :=
  retry_loop retries (Z.to_nat retries) 0.
End Retry.

Definition fetches (steps : list retry_step) : nat :=
  length (filter (λ s, s = Fetch) steps).

Definition waited (steps : list retry_step) : Z :=
  sumZ (omap (λ s, match s with Wait ms => Some ms | _ => None end) steps).

(** The steps of the failed attempts [i .. i + n - 1] of a call with
    [retries] attempts allowed: each fetches, prints its line and waits. *)
Definition failed_attempts (retries : Z) (i n : nat) : list retry_step :=
  flat_map (λ j : nat, [Fetch; RetryLine (Z.of_nat j + 1) retries;
                        Wait (1000 * (Z.of_nat j + 1))]) (seq i n).

(** ** [versionInRange] *)

Definition MIN_VERSION : string := "1.16.40".
Definition MAX_VERSION : string := "1.21.94".

(** [s.split('.')], with [cur] the component read so far. *)
Fixpoint split_dot_go (s : string) (cur : string) : list string :=
  match s with
  | EmptyString => [cur]
  | String c s' =>
      if Ascii.eqb c "." then cur :: split_dot_go s' ""
      else split_dot_go s' (cur +:+ String c "")
  end.

Definition split_dot (s : string) : list string := split_dot_go s "".

Fixpoint all_digits (s : string) : bool :=
  match s with
  | String c s' => bool_decide (is_Some (digit_of c)) && all_digits s'
  | EmptyString => true
  end.

(** [Number(s)] for a string of decimal digits, which is its value, 0 for
    the empty string.  The conversion of other strings (signs, exponents,
    other radixes, white space, text) is not modelled: [None]. *)
Definition Number_digits (s : string) : option Z :=
  if all_digits s then Some (default 0 (digits s None)) else None.

(** [v.split('.').map(Number)] *)
Definition parse_version (v : string) : list (option Z) :=
  map Number_digits (split_dot v).

(** The loop [for (let i = 0; i < 3; i++)], from index [i] with [n]
    iterations to go.  A component that is missing is [undefined], and both
    comparisons with it are false.  The result is [None] when a component the
    loop compares is outside what [Number_digits] models. *)
Fixpoint range_loop (min max cur : list (option Z)) (i n : nat) : option bool :=
  match n with
  | O => Some true
  | S n =>
      match cur !! i with
      | None => range_loop min max cur (S i) n
      | Some None => None
      | Some (Some c) =>
          match min !! i, max !! i with
          | Some (Some lo), Some (Some hi) =>
              if c <? lo then Some false
              else if hi <? c then Some false
              else range_loop min max cur (S i) n
          | _, _ => None
          end
      end
  end.

Definition versionInRange (version : string) : option bool :=
  range_loop (parse_version MIN_VERSION) (parse_version MAX_VERSION)
    (parse_version version) 0 3.

(** * The installer script (install_bedrock_appx.js) *)

(** [s.endsWith(suffix)]: some tail of [s] is [suffix]. *)
Fixpoint ends_with (suffix s : string) : bool :=
  bool_decide (s = suffix) ||
  match s with
  | String _ s' => ends_with suffix s'
  | EmptyString => false
  end.

(** [sort((a, b) => b.time - a.time)] on entries (name, time): the sort of
    JavaScript is stable, so the result is the one of inserting each entry,
    from the last to the first, in front of the first entry that is not
    newer. *)
Fixpoint insert_by_time (x : string * Z) (l : list (string * Z))
    : list (string * Z) :=
  match l with
  | [] => [x]
  | y :: l' => if y.2 <=? x.2 then x :: l else y :: insert_by_time x l'
  end.

Definition sort_newest_first (l : list (string * Z)) : list (string * Z) :=
  foldr insert_by_time [] l.

Section Installer.
(** [path.join] and the downloads directory, which depend on the platform
    and on where the script is installed. *)
Variable path_join : string → string → string.
Variable DOWNLOADS_DIR : string.

(** The directory is given by its listing, in the order of [readdirSync],
    each name with the modification time of the file; [None] when the
    directory does not exist. *)
Definition getLatestAppx (dir : option (list (string * Z))) : option string :=
  match dir with
  | None => None
  | Some entries =>
      let files :=
        sort_newest_first (filter (λ f, ends_with ".Appx" f.1 = true) entries) in
      match files with
      | f :: _ => Some (path_join DOWNLOADS_DIR f.1)
      | [] => None
      end
  end.
End Installer.

(** * The frontend helper (bedrock.js) *)

(** What the helper passes to [onProgress]: [{type: 'progress', data}] or
    [{type: 'error', data}]. *)
Inductive notice :=
| NoticeProgress (data : string)
| NoticeError (data : string).

(** The event bus of the application: the listeners registered, each with
    its identifier and the name of its event, and the next identifier. *)
Record event_bus := {
  registered : list (nat * string);
  next_listener : nat;
}.

(** [listen(event, handler)]: registers a listener and resolves to its
    unlisten function, here its identifier, or rejects ([ok = false]) and
    registers nothing. *)
Definition listen (event : string) (ok : bool) (b : event_bus)
    : option nat * event_bus :=
  if ok then
    (Some (next_listener b),
     {| registered := registered b ++ [(next_listener b, event)];
        next_listener := S (next_listener b) |})
  else (None, b).

Definition unlisten (id : nat) (b : event_bus) : event_bus :=
  {| registered := filter (λ l, l.1 ≠ id) (registered b);
     next_listener := next_listener b |}.

(** The bus delivers an event (name, payload) to the listeners registered
    for its name; [own] gives the handlers of the listeners of the call. *)
Definition dispatch (own : list (nat * (string → notice))) (b : event_bus)
    (e : string * string) : list notice :=
  flat_map (λ l : nat * string,
              if decide (l.2 = e.1) then
                match list_find (λ h, h.1 = l.1) own with
                | Some (_, h) => [h.2 e.2]
                | None => []
                end
              else [])
           (registered b).

(** What happens during one [invoke]: the events the backend emits, then
    the value it resolves to or the error it rejects with. *)
Record invocation := {
  emitted : list (string * string);
  answer : string + string;
}.

Inductive call_result :=
| CallReturned (v : string)
| CallThrew (e : string)
| ListenThrew.

Definition result_of (a : string + string) : call_result :=
  match a with
  | inl v => CallReturned v
  | inr e => CallThrew e
  end.

(** [download_bedrock_version(version, onProgress)]; [onProgress] tells
    whether a callback was given, [ok1] and [ok2] whether the two calls of
    [listen] succeed. *)
Definition download_bedrock_version (onProgress : bool) (ok1 ok2 : bool)
    (inv : invocation) (b : event_bus)
    : call_result * list notice * event_bus :=
  if onProgress then
    match listen "bedrock-download-progress" ok1 b with
    | (None, b) => (ListenThrew, [], b)
    | (Some unlistenProgress, b) =>
        match listen "bedrock-download-error" ok2 b with
        | (None, b) => (ListenThrew, [], b)
        | (Some unlistenError, b) =>
            (* try *)
            let own := [(unlistenProgress, NoticeProgress);
                        (unlistenError, NoticeError)] in
            let notices := flat_map (dispatch own b) (emitted inv) in
            (* finally *)
            let b := unlisten unlistenProgress b in
            let b := unlisten unlistenError b in
            (result_of (answer inv), notices, b)
        end
    end
  else (result_of (answer inv), [], b).

(** A bus whose identifiers in use are below the next one. *)
Definition bus_ok (b : event_bus) : Prop :=
  ∀ l, l ∈ registered b → (l.1 < next_listener b)%nat.

(** What [onProgress] is to receive for an emitted event. *)
Definition download_notice (e : string * string) : list notice :=
  if decide (e.1 = "bedrock-download-progress") then [NoticeProgress e.2]
  else if decide (e.1 = "bedrock-download-error") then [NoticeError e.2]
  else [].

(** * The release collector (generate_version_json.js, main) *)

(** A release of the GitHub API, with the fields the script reads.  An
    absent or [null] field is [None]. *)
Record asset := {
  asset_name : string;
  browser_download_url : string;
}.

Record release := {
  tag_name : option string;
  release_name : option string;
  draft : bool;
  prerelease : bool;
  assets : option (list asset);
}.

(** Truthiness of a string that may be absent: [undefined], [null] and the
    empty string are falsy. *)
Definition truthy_string (s : option string) : bool :=
  match s with
  | Some (String _ _) => true
  | _ => false
  end.

(** [rel.tag_name || rel.name], then [if (!version) continue]: the version
    of a release, [None] when the script passes over it. *)
Definition release_version (rel : release) : option string :=
  let version :=
    if truthy_string (tag_name rel) then tag_name rel else release_name rel in
  if truthy_string version then version else None.

(** A regular expression with the flag [i] and ASCII letters only matches
    a letter in either case, and no other character. *)
Definition to_lower (c : ascii) : ascii :=
  let n := N_of_ascii c in
  if ((65 <=? n) && (n <=? 90))%N then ascii_of_N (n + 32) else c.

Fixpoint lower (s : string) : string :=
  match s with
  | EmptyString => EmptyString
  | String c s' => String (to_lower c) (lower s')
  end.

(** Some part of [s] is [p]. *)
Fixpoint contains (p s : string) : bool :=
  String.prefix p s ||
  match s with
  | String _ s' => contains p s'
  | EmptyString => false
  end.

(** [/\.Appx$/i.test(a.name) && !/xdelta/i.test(a.name)] *)
Definition is_appx (a : asset) : bool :=
  ends_with ".appx" (lower (asset_name a))
  && negb (contains "xdelta" (lower (asset_name a))).

(** The variables of [main]; an entry of [allVersions] is [(id, url)], its
    [sha256] is always [null]. *)
Record collector := {
  allVersions : list (string * string);
  seen : gset string;
  totalSkipped : nat;
}.

Definition new_collector : collector :=
  {| allVersions := []; seen := ∅; totalSkipped := 0 |}.

(** The body of [for (const rel of releases)]; the line printed for each
    entry pushed is left out. *)
Definition collect_release (c : collector) (rel : release) : collector :=
  match release_version rel with
  | None => c
  | Some version =>
      if decide (version ∈ seen c) then
        {| allVersions := allVersions c; seen := seen c;
           totalSkipped := S (totalSkipped c) |}
      else
        let c := {| allVersions := allVersions c;
                    seen := {[ version ]} ∪ seen c;
                    totalSkipped := totalSkipped c |} in
        if draft rel || prerelease rel then c
        else
          match List.find is_appx (default [] (assets rel)) with
          | None => c
          | Some appxAsset =>
              {| allVersions :=
                   allVersions c ++ [(version, browser_download_url appxAsset)];
                 seen := seen c; totalSkipped := totalSkipped c |}
          end
  end.

(** The loop [while (true)] of [main].  [pages] holds what [fetchJson]
    gives for page 1, 2, ...: [None] when it rejects, the releases of the
    page otherwise; past the pages listed the API answers with an empty page.
    The result is [None] when a request fails: [main] rejects and writes
    nothing. *)
Fixpoint collect_pages (pages : list (option (list release))) (c : collector)
    : option collector :=
  match pages with
  | [] => Some c
  | None :: _ => None
  | Some [] :: _ => Some c
  | Some releases :: pages' => collect_pages pages' (foldl collect_release c releases)
  end.

(** The releases the loop goes through: those of the pages before the first
    empty one. *)
Fixpoint listed (pages : list (option (list release))) : list release :=
  match pages with
  | Some (rel :: releases) :: pages' => (rel :: releases) ++ listed pages'
  | _ => []
  end.

(** The url under which a release is published: it is no draft and no
    prerelease, and the url is the one of its first Appx asset. *)
Definition published (rel : release) : option string :=
  if draft rel || prerelease rel then None
  else browser_download_url <$> List.find is_appx (default [] (assets rel)).

(** [first_published l id url]: the first release of [l] whose version is
    [id] is published under [url]. *)
Definition first_published (l : list release) (id url : string) : Prop :=
  ∃ l1 rel l2, l = l1 ++ rel :: l2 ∧ release_version rel = Some id ∧
    (Some id ∉ (release_version <$> l1)) ∧ published rel = Some url.

(** The state of the collector after the releases [l]. *)
Definition collected (l : list release) (c : collector) : Prop :=
  (∀ v, v ∈ seen c ↔ Some v ∈ (release_version <$> l)) ∧
  (∀ id url, (id, url) ∈ allVersions c ↔ first_published l id url) ∧
  NoDup (allVersions c).*1 ∧
  (totalSkipped c + size (seen c) = length (omap release_version l))%nat.

(** Two pages of releases: a draft and a published release under the same
    tag, a release whose first asset is a delta, a release without a tag; the
    third page is empty, the request after it would fail. *)
Definition example_pages : list (option (list release)) :=
  [ Some [ {| tag_name := Some "1.21.94"; release_name := None; draft := true;
              prerelease := false;
              assets := Some [ {| asset_name := "draft.Appx";
                                  browser_download_url := "https://example.org/draft" |} ] |};
           {| tag_name := Some "1.21.94"; release_name := None; draft := false;
              prerelease := false;
              assets := Some [ {| asset_name := "final.Appx";
                                  browser_download_url := "https://example.org/final" |} ] |} ];
    Some [ {| tag_name := Some ""; release_name := Some "1.20.0"; draft := false;
              prerelease := false;
              assets := Some [ {| asset_name := "1.20.0.xdelta3.appx";
                                  browser_download_url := "https://example.org/delta" |};
                               {| asset_name := "1.20.0.APPX";
                                  browser_download_url := "https://example.org/1.20.0" |} ] |};
           {| tag_name := None; release_name := None; draft := false;
              prerelease := false; assets := None |} ];
    Some [];
    None ].

(** ** The progress lines of a transfer *)

(** The bytes that the streams of the [PARTS] parts have delivered in the
    events [pre]. *)
Definition bytes_received (PARTS : nat) (pre : list event) : Z :=
  sumZ (map (λ i, Z.of_nat (length (received i pre))) (seq 0 PARTS)).

Definition is_tick (e : event) : bool :=
  match e with
  | Tick => true
  | _ => false
  end.

(** For each tick of a schedule, in order, the bytes that the streams had
    delivered when the timer fired. *)
Definition tick_sums (PARTS : nat) (sched : list event) : list Z :=
  omap (λ k, match sched !! k with
             | Some Tick => Some (bytes_received PARTS (take k sched))
             | _ => None
             end)
       (seq 0 (length sched)).

(** ** Facts about the ranges *)

Lemma Math_ceil_div_bounds a b :
  0 < b → b * (Math_ceil_div a b - 1) < a ≤ b * Math_ceil_div a b.
Proof.
  intros Hb. unfold Math_ceil_div.
  pose proof (Z.div_mod (- a) b ltac:(lia)) as Hdm.
  pose proof (Z.mod_pos_bound (- a) b Hb) as Hm.
  nia.
Qed.

Example ceil_16000000 : Math_ceil_div 16000000 4 = 4000000.
Proof. reflexivity. Qed.

Example ceil_5 : Math_ceil_div 5 4 = 2.
Proof. reflexivity. Qed.

Example ranges_16000000 :
  ranges 4 16000000 =
  [(0, 3999999); (4000000, 7999999); (8000000, 11999999); (12000000, 15999999)].
Proof. reflexivity. Qed.

Example parseInt_examples :
  parseInt (Some "16000000") = JNum 16000000 ∧
  parseInt (Some " 42abc") = JNum 42 ∧
  parseInt (Some "-7") = JNum (-7) ∧
  parseInt (Some "") = JNaN ∧
  parseInt (Some "abc") = JNaN ∧
  parseInt None = JNaN.
Proof. repeat split; reflexivity. Qed.

Lemma ranges_unfold PARTS n :
  ranges PARTS n =
  map (λ i : nat, (Z.of_nat i * partSize PARTS n,
                   Z.min ((Z.of_nat i + 1) * partSize PARTS n - 1) (n - 1)))
      (seq 0 PARTS).
Proof.
  unfold ranges, part_calls. rewrite map_map. reflexivity.
Qed.

Lemma ranges_length PARTS n : length (ranges PARTS n) = PARTS.
Proof. rewrite ranges_unfold, length_map, length_seq. reflexivity. Qed.

Lemma ranges_lookup PARTS n (i : nat) :
  (i < PARTS)%nat →
  ranges PARTS n !! i =
  Some (Z.of_nat i * partSize PARTS n,
        Z.min ((Z.of_nat i + 1) * partSize PARTS n - 1) (n - 1)).
Proof.
  intros Hi. rewrite ranges_unfold, list_lookup_fmap.
  rewrite lookup_seq_lt by done. reflexivity.
Qed.

(** A size above [(PARTS - 1)^2] leaves bytes for the last segment. *)
Lemma last_segment_nonempty_of_square PARTS n :
  (0 < PARTS)%nat →
  (Z.of_nat PARTS - 1) * (Z.of_nat PARTS - 1) < n →
  (Z.of_nat PARTS - 1) * partSize PARTS n < n.
Proof.
  intros HP Hn. unfold partSize.
  pose proof (Math_ceil_div_bounds n (Z.of_nat PARTS) ltac:(lia)) as [Hlo _].
  nia.
Qed.

(** So does every size that passes the guard of the orchestrator, with the
    four parts of the script. *)
Lemma last_segment_nonempty_of_guard n :
  10 * 1024 * 1024 < n → (Z.of_nat 4 - 1) * partSize 4 n < n.
Proof.
  intros Hn. apply last_segment_nonempty_of_square; lia.
Qed.

Lemma tiles_ranges_from PARTS n (m k : nat) :
  (k + S m = PARTS)%nat →
  (Z.of_nat PARTS - 1) * partSize PARTS n < n →
  tiles (Z.of_nat k * partSize PARTS n) n
    (map (λ i : nat, (Z.of_nat i * partSize PARTS n,
                      Z.min ((Z.of_nat i + 1) * partSize PARTS n - 1) (n - 1)))
         (seq k (S m))).
Proof.
  intros Hk Hlast.
  assert (HP : 0 < Z.of_nat PARTS) by lia.
  pose proof (Math_ceil_div_bounds n (Z.of_nat PARTS) HP) as [_ Hhi].
  fold (partSize PARTS n) in Hhi.
  assert (Hps : 1 ≤ partSize PARTS n) by nia.
  revert k Hk. induction m as [|m IH]; intros k Hk.
  - simpl. split; [reflexivity|].
    replace (Z.of_nat k) with (Z.of_nat PARTS - 1) by lia.
    split; lia.
  - change (seq k (S (S m))) with (k :: seq (S k) (S m)).
    rewrite map_cons. cbn [tiles].
    assert (Hk1 : (Z.of_nat k + 1) * partSize PARTS n - 1 ≤ n - 1) by nia.
    rewrite Z.min_l by exact Hk1.
    split; [reflexivity|]. split; [nia|].
    replace ((Z.of_nat k + 1) * partSize PARTS n - 1 + 1)
      with (Z.of_nat (S k) * partSize PARTS n) by lia.
    apply IH. lia.
Qed.

Lemma tiles_bounds lo hi segs i r :
  tiles lo hi segs → segs !! i = Some r → lo ≤ r.1 ∧ r.1 ≤ r.2 ∧ r.2 < hi.
Proof.
  revert lo i. induction segs as [|[s e] rest IH]; intros lo i Ht Hi; [done|].
  cbn [tiles] in Ht. destruct Ht as (-> & Hse & Ht).
  assert (Hhi : e + 1 ≤ hi).
  { clear -Ht. revert Ht. generalize (e + 1). induction rest as [|[s' e'] rest IH];
      intros lo Ht; cbn [tiles] in Ht; [lia|].
    destruct Ht as (-> & ? & Ht). apply IH in Ht. lia. }
  destruct i as [|i]; simpl in Hi.
  - inversion Hi; subst; simpl. lia.
  - destruct (IH _ _ Ht Hi) as (? & ? & ?). lia.
Qed.

Lemma tiles_cover lo hi segs b :
  tiles lo hi segs → lo ≤ b < hi → ∃ i r, segs !! i = Some r ∧ in_range b r.
Proof.
  revert lo. induction segs as [|[s e] rest IH]; intros lo Ht Hb;
    cbn [tiles] in Ht; [lia|].
  destruct Ht as (-> & Hse & Ht).
  destruct (decide (b ≤ e)) as [Hbe|Hbe].
  - exists 0%nat, (lo, e). split; [done|]. unfold in_range; simpl; lia.
  - destruct (IH _ Ht ltac:(lia)) as (i & r & Hi & Hr).
    exists (S i), r. done.
Qed.

Lemma tiles_disjoint lo hi segs i j r r' b :
  tiles lo hi segs →
  segs !! i = Some r → segs !! j = Some r' →
  in_range b r → in_range b r' → i = j.
Proof.
  revert lo i j. induction segs as [|[s e] rest IH]; intros lo i j Ht Hi Hj Hr Hr';
    [done|].
  cbn [tiles] in Ht. destruct Ht as (-> & Hse & Ht).
  unfold in_range in *.
  destruct i as [|i], j as [|j]; simpl in Hi, Hj.
  - reflexivity.
  - inversion Hi; subst; simpl in *.
    pose proof (tiles_bounds _ _ _ _ _ Ht Hj). lia.
  - inversion Hj; subst; simpl in *.
    pose proof (tiles_bounds _ _ _ _ _ Ht Hi). lia.
  - f_equal. eapply IH; eauto.
Qed.

(** ** C1: the segment ranges *)

(** C1, as amended.  For every [PARTS >= 1] and every [totalSize] of at most
    [2 ^ 53], up to which the numbers of the code are exact, that leaves at
    least one byte for the last segment, that is
    [(PARTS - 1) * ceil(totalSize / PARTS) < totalSize], the ranges of the
    loop of [multiPartDownload] are exactly [PARTS] non-empty ranges that
    start at 0, follow one another without gap or overlap and end at
    [totalSize - 1]; every byte offset of [[0, totalSize)] lies in exactly one
    of them and nothing outside does; all but the last hold
    [ceil(totalSize / PARTS)] bytes and the last holds the remaining
    [totalSize - (PARTS - 1) * ceil(totalSize / PARTS)] bytes. *)
Theorem ranges_partition (PARTS : nat) (totalSize : Z) :
  (0 < PARTS)%nat →
  totalSize ≤ 2 ^ 53 →
  (Z.of_nat PARTS - 1) * partSize PARTS totalSize < totalSize →
  length (ranges PARTS totalSize) = PARTS ∧
  tiles 0 totalSize (ranges PARTS totalSize) ∧
  (∀ b, 0 ≤ b < totalSize ↔
        ∃ i r, ranges PARTS totalSize !! i = Some r ∧ in_range b r) ∧
  (∀ i j r r' b,
      ranges PARTS totalSize !! i = Some r →
      ranges PARTS totalSize !! j = Some r' →
      in_range b r → in_range b r' → i = j) ∧
  (∀ i : nat, (i < PARTS - 1)%nat →
      ranges PARTS totalSize !! i =
      Some (Z.of_nat i * partSize PARTS totalSize,
            Z.of_nat i * partSize PARTS totalSize + partSize PARTS totalSize - 1)) ∧
  ranges PARTS totalSize !! (PARTS - 1)%nat =
    Some ((Z.of_nat PARTS - 1) * partSize PARTS totalSize, totalSize - 1) ∧
  1 ≤ totalSize - (Z.of_nat PARTS - 1) * partSize PARTS totalSize
    ≤ partSize PARTS totalSize.
Proof.
  intros HP _ Hlast.
  assert (Ht : tiles 0 totalSize (ranges PARTS totalSize)).
  { rewrite ranges_unfold. destruct PARTS as [|m]; [lia|].
    apply (tiles_ranges_from (S m) totalSize m 0); [lia | exact Hlast]. }
  pose proof (Math_ceil_div_bounds totalSize (Z.of_nat PARTS) ltac:(lia))
    as [Hlo Hhi].
  fold (partSize PARTS totalSize) in Hlo, Hhi.
  split; [apply ranges_length|]. split; [exact Ht|].
  split; [|split; [|split; [|split]]].
  - intros b. split.
    + intros Hb. eapply tiles_cover; eauto.
    + intros (i & r & Hi & Hr). unfold in_range in Hr.
      pose proof (tiles_bounds _ _ _ _ _ Ht Hi). lia.
  - intros i j r r' b. apply tiles_disjoint with (lo := 0) (hi := totalSize).
    exact Ht.
  - intros i Hi. rewrite ranges_lookup by lia. f_equal. f_equal.
    rewrite Z.min_l by nia. lia.
  - rewrite ranges_lookup by lia. f_equal. f_equal; [f_equal; lia|].
    rewrite Z.min_r by nia. reflexivity.
  - nia.
Qed.

(** The amended C1 at the sizes of the reference scenario: 16,000,000 bytes in
    four parts. *)
Lemma ranges_partition_witness :
  (0 < 4)%nat ∧
  16000000 ≤ 2 ^ 53 ∧
  (Z.of_nat 4 - 1) * partSize 4 16000000 < 16000000 ∧
  length (ranges 4 16000000) = 4%nat ∧
  tiles 0 16000000 (ranges 4 16000000).
Proof.
  split; [lia|]. split; [by vm_compute|]. split; [reflexivity|].
  pose proof (ranges_partition 4 16000000 ltac:(lia) ltac:(by vm_compute) eq_refl)
    as H.
  split; [exact (proj1 H) | exact (proj1 (proj2 H))].
Defined.

(** C1 as stated fails for small sizes: with 5 bytes and 4 parts the part
    size is 2, so the fourth range is [6..4]: it does not start where the
    third one ends, it is empty, and it starts outside [[0, 5)]. *)
Lemma ranges_small_size_counterexample :
  ranges 4 5 = [(0, 1); (2, 3); (4, 4); (6, 4)] ∧
  ¬ tiles 0 5 (ranges 4 5) ∧
  ¬ (∀ i r r', ranges 4 5 !! i = Some r → ranges 4 5 !! S i = Some r' →
               r'.1 = r.2 + 1).
Proof.
  split; [reflexivity|]. split.
  - change (ranges 4 5) with [(0, 1); (2, 3); (4, 4); (6, 4)].
    cbn [tiles]. lia.
  - intros H. specialize (H 2%nat (4, 4) (6, 4) eq_refl eq_refl).
    simpl in H. lia.
Qed.

(** ** C3: the aggregator *)

Lemma concat_loop_spec dest parts : ∀ contents w acc,
  NoDup parts → dest ∉ parts →
  Forall2 (λ p c, files w !! p = Some c) parts contents →
  files w !! dest = Some acc →
  ∃ w', concat_loop dest parts w = (Returned, w') ∧
        files w' !! dest = Some (acc ++ concat contents) ∧
        (∀ p, p ∈ parts → files w' !! p = None) ∧
        (∀ p, p ∉ parts → p ≠ dest → files w' !! p = files w !! p) ∧
        fsops w' = fsops w ++ aggregate_ops dest parts contents ∧
        stdout w' = stdout w ∧ requests w' = requests w.
Proof.
  induction parts as [|part rest IH]; intros contents w acc Hnd Hdest Hall Hacc.
  - apply Forall2_nil_inv_l in Hall as ->. exists w. simpl.
    rewrite !app_nil_r. repeat split; try done.
    intros p Hp. by apply not_elem_of_nil in Hp.
  - apply Forall2_cons_inv_l in Hall as (c & contents' & Hc & Hall & ->).
    apply NoDup_cons in Hnd as [Hpart Hnd].
    apply not_elem_of_cons in Hdest as [Hne Hdest].
    cbn [concat_loop]. rewrite Hc.
    set (w1 := fs_unlink part (fs_write dest c (fs_read part w))).
    assert (Hf1 : ∀ p, p ≠ part → p ≠ dest → files w1 !! p = files w !! p).
    { intros p Hp Hpd. simpl. rewrite lookup_delete_ne by done.
      rewrite lookup_alter_ne by done. reflexivity. }
    assert (Hd1 : files w1 !! dest = Some (acc ++ c)).
    { simpl. rewrite lookup_delete_ne by done.
      rewrite lookup_alter_eq, Hacc. reflexivity. }
    assert (Hall1 : Forall2 (λ p c, files w1 !! p = Some c) rest contents').
    { clear -Hall Hpart Hdest Hf1. induction Hall as [|p c' ps cs Hp Hall IH];
        constructor.
      - rewrite Hf1; [done| |]; intros ->; [apply Hpart | apply Hdest];
          apply list_elem_of_here.
      - apply IH.
        + intros Hin. apply Hpart. by apply list_elem_of_further.
        + intros Hin. apply Hdest. by apply list_elem_of_further. }
    destruct (IH contents' w1 (acc ++ c) Hnd Hdest Hall1 Hd1)
      as (w' & Hrun & Hd & Hgone & Hother & Hops & Hout & Hreq).
    exists w'. split; [exact Hrun|]. split.
    { rewrite Hd. simpl. by rewrite (assoc_L (++)). }
    split.
    { intros p Hp. apply elem_of_cons in Hp as [->|Hp]; [|by apply Hgone].
      rewrite Hother by done. simpl. apply lookup_delete_eq. }
    split.
    { intros p Hp Hpd. apply not_elem_of_cons in Hp as [Hp1 Hp2].
      rewrite Hother by done. by apply Hf1. }
    split; [|done].
    rewrite Hops. simpl. rewrite <- !(assoc_L (++)). reflexivity.
Qed.

Lemma range_bytes_concat (PARTS : nat) (obj : list Byte.byte) :
  (0 < PARTS)%nat →
  concat (map (range_bytes obj) (ranges PARTS (Z.of_nat (length obj)))) = obj.
Proof.
  intros HP. set (n := Z.of_nat (length obj)).
  pose proof (Math_ceil_div_bounds n (Z.of_nat PARTS) ltac:(lia)) as [Hlo Hhi].
  fold (partSize PARTS n) in Hlo, Hhi.
  set (ps := partSize PARTS n) in *.
  assert (Hps : 0 ≤ ps) by nia.
  rewrite ranges_unfold. fold ps.
  assert (Hgen : ∀ m : nat,
    concat (map (range_bytes obj)
      (map (λ i : nat, (Z.of_nat i * ps, Z.min ((Z.of_nat i + 1) * ps - 1) (n - 1)))
           (seq 0 m)))
    = take (Z.to_nat (Z.min (Z.of_nat m * ps) n)) obj).
  { induction m as [|m IH].
    - simpl. rewrite Z.min_l by lia. reflexivity.
    - rewrite seq_S, !map_app, concat_app, IH. simpl. rewrite app_nil_r.
      unfold range_bytes. simpl.
      destruct (decide (Z.of_nat m * ps ≤ n)) as [Hle|Hgt].
      + rewrite (Z.min_l (Z.of_nat m * ps) n) by lia.
        rewrite take_take_drop. f_equal. lia.
      + rewrite (Z.min_r (Z.of_nat m * ps) n) by lia.
        rewrite (Z.min_r (Z.of_nat (S m) * ps) n) by nia.
        rewrite (drop_ge obj (Z.to_nat (Z.of_nat m * ps))) by lia.
        rewrite take_nil, app_nil_r. reflexivity. }
  rewrite Hgen. rewrite Z.min_r by lia. apply take_ge. lia.
Qed.

(** C3.  Given the destination and the ordered list of part files, which are
    distinct, exist and differ from the destination, [concatParts] returns
    normally; the destination then holds the parts' contents concatenated in
    list order; the operations performed are: create the destination, then
    for each part in order read it to its end, append exactly its bytes, and
    unlink it before the next part is touched; no part file exists afterwards;
    and when the parts hold the bytes of the ranges assigned by the loop of
    [multiPartDownload], the destination is the object itself, byte for
    byte. *)
Theorem concatParts_aggregates (dest : string) (parts : list string)
    (contents : list (list Byte.byte)) (w : world) :
  NoDup parts → dest ∉ parts →
  Forall2 (λ p c, files w !! p = Some c) parts contents →
  ∃ w', concatParts dest parts w = (Returned, w') ∧
        files w' !! dest = Some (concat contents) ∧
        (∀ p, p ∈ parts → files w' !! p = None) ∧
        fsops w' = fsops w ++ OpCreate dest :: aggregate_ops dest parts contents ∧
        (∀ (PARTS : nat) (obj : list Byte.byte),
            (0 < PARTS)%nat →
            contents = map (range_bytes obj) (ranges PARTS (Z.of_nat (length obj))) →
            files w' !! dest = Some obj).
Proof.
  intros Hnd Hdest Hall. unfold concatParts.
  assert (Hall1 : Forall2 (λ p c, files (fs_create dest w) !! p = Some c)
                    parts contents).
  { clear Hnd. induction Hall as [|p c ps cs Hp Hall IH]; constructor.
    - simpl. rewrite lookup_insert_ne; [done|].
      intros ->. apply Hdest, list_elem_of_here.
    - apply IH. intros Hin. apply Hdest. by apply list_elem_of_further. }
  destruct (concat_loop_spec dest parts contents (fs_create dest w) []
              Hnd Hdest Hall1) as (w' & Hrun & Hd & Hgone & _ & Hops & _).
  { simpl. apply lookup_insert_eq. }
  exists w'. split; [exact Hrun|]. split; [exact Hd|]. split; [exact Hgone|].
  split.
  - rewrite Hops. simpl. rewrite <- (assoc_L (++)). reflexivity.
  - intros PARTS obj HP ->. rewrite Hd. simpl.
    by rewrite range_bytes_concat.
Qed.

(** C3 on a ten-byte object cut in four parts [0..2], [3..5], [6..8], [9..9]. *)
Lemma concatParts_aggregates_witness :
  let obj := [Byte.x30; Byte.x31; Byte.x32; Byte.x33; Byte.x34; Byte.x35;
              Byte.x36; Byte.x37; Byte.x38; Byte.x39] in
  let parts := ["v.Appx.part0"; "v.Appx.part1"; "v.Appx.part2"; "v.Appx.part3"] in
  let contents := map (range_bytes obj) (ranges 4 10) in
  let w := {| files := list_to_map (zip parts contents); fsops := [];
              stdout := []; requests := [] |} in
  ∃ w', concatParts "v.Appx" parts w = (Returned, w') ∧
        files w' !! "v.Appx" = Some obj ∧
        files w' !! "v.Appx.part0" = None ∧
        files w' !! "v.Appx.part3" = None.
Proof.
  intros obj parts contents w.
  destruct (concatParts_aggregates "v.Appx" parts contents w) as
    (w' & Hrun & Hd & Hgone & Hops & Hobj).
  - apply (bool_decide_unpack _); vm_compute; exact I.
  - apply (bool_decide_unpack _); vm_compute; exact I.
  - repeat constructor.
  - exists w'. split; [exact Hrun|]. split.
    + apply (Hobj 4%nat obj); [lia | reflexivity].
    + split; apply Hgone; apply (bool_decide_unpack _); vm_compute; exact I.
Defined.

(** ** Part files *)

Lemma string_length_app (s1 s2 : string) :
  String.length (s1 +:+ s2) = (String.length s1 + String.length s2)%nat.
Proof. induction s1 as [|a s1 IH]; simpl; [reflexivity | by rewrite IH]. Qed.

Lemma part_file_ne_dest dest i : part_file dest i ≠ dest.
Proof.
  unfold part_file. intros H. apply (f_equal String.length) in H.
  rewrite !string_length_app in H. simpl in H. lia.
Qed.

Lemma part_file_inj dest i j : part_file dest i = part_file dest j → i = j.
Proof.
  unfold part_file. intros H.
  apply String.app_inj in H. apply String.app_inj in H.
  by apply pretty_nat_inj in H.
Qed.

Lemma part_files_unfold PARTS dest n :
  map pc_dest (part_calls PARTS dest n) = map (part_file dest) (seq 0 PARTS).
Proof. unfold part_calls. rewrite map_map. reflexivity. Qed.

Lemma part_files_lookup PARTS dest n (i : nat) :
  (i < PARTS)%nat →
  map pc_dest (part_calls PARTS dest n) !! i = Some (part_file dest i).
Proof.
  intros Hi. rewrite part_files_unfold, list_lookup_fmap.
  by rewrite lookup_seq_lt.
Qed.

Lemma part_files_elem PARTS dest n p :
  p ∈ map pc_dest (part_calls PARTS dest n) ↔
  ∃ i : nat, (i < PARTS)%nat ∧ p = part_file dest i.
Proof.
  rewrite part_files_unfold. split.
  - intros (i & -> & Hi)%list_elem_of_fmap. apply elem_of_seq in Hi.
    exists i. split; [lia | done].
  - intros (i & Hi & ->). apply list_elem_of_fmap. exists i.
    split; [done|]. apply elem_of_seq. lia.
Qed.

Lemma part_files_NoDup PARTS dest n :
  NoDup (map pc_dest (part_calls PARTS dest n)).
Proof.
  rewrite part_files_unfold. apply NoDup_fmap_2; [|apply NoDup_seq].
  intros i j. apply part_file_inj.
Qed.

Lemma dest_not_part_file PARTS dest n :
  dest ∉ map pc_dest (part_calls PARTS dest n).
Proof.
  intros (i & _ & Hi)%part_files_elem. symmetry in Hi.
  by apply part_file_ne_dest in Hi.
Qed.

(** ** The synchronous part of a multi-part transfer *)

Lemma spawn_parts_spec url calls : ∀ w,
  let w' := spawn_parts url calls w in
  (∀ p, p ∈ map pc_dest calls → files w' !! p = Some []) ∧
  (∀ p, p ∉ map pc_dest calls → files w' !! p = files w !! p) ∧
  stdout w' = stdout w ∧
  requests w' =
    requests w ++ map (λ c, (url, part_options (pc_start c) (pc_end c))) calls ∧
  fsops w' = fsops w ++ map (λ c, OpCreate (pc_dest c)) calls.
Proof.
  unfold spawn_parts.
  induction calls as [|c calls IH] using rev_ind; intros w.
  - simpl. rewrite !app_nil_r. repeat split; try done.
    intros p Hp. by apply not_elem_of_nil in Hp.
  - rewrite foldl_snoc, !map_app. simpl.
    destruct (IH w) as (Hnew & Hold & Hout & Hreq & Hops).
    repeat split.
    + intros p Hp. destruct (decide (p = pc_dest c)) as [->|Hne].
      * apply lookup_insert_eq.
      * rewrite lookup_insert_ne by congruence. apply Hnew.
        apply elem_of_app in Hp as [Hp|Hp]; [done|].
        apply list_elem_of_singleton in Hp. done.
    + intros p Hp. apply not_elem_of_app in Hp as [Hp1 Hp2].
      rewrite lookup_insert_ne; [by apply Hold|].
      intros <-. apply Hp2, list_elem_of_here.
    + exact Hout.
    + rewrite Hreq. by rewrite (assoc_L (++)).
    + rewrite Hops. by rewrite (assoc_L (++)).
Qed.

(** ** One tick of the monitor *)

Lemma sumZ_snoc l x : sumZ (l ++ [x]) = sumZ l + x.
Proof. unfold sumZ. induction l as [|y l IH]; simpl; lia. Qed.

Lemma sumZ_le l l' : Forall2 Z.le l l' → sumZ l ≤ sumZ l'.
Proof. unfold sumZ. induction 1; simpl; lia. Qed.

Lemma tick_fold fs pf : ∀ (n : nat) d acc,
  (n ≤ length d)%nat →
  ∃ d', foldl (tick_body fs pf) (d, acc) (seq 0 n)
        = (d', acc + sumZ (take n d')) ∧
        length d' = length d ∧
        (∀ i : nat, (i < n)%nat → d' !! i = observed fs pf i <$> d !! i) ∧
        (∀ i : nat, (n ≤ i)%nat → d' !! i = d !! i).
Proof.
  induction n as [|n IH]; intros d acc Hn.
  - exists d. simpl. rewrite ?take_0. unfold sumZ. simpl. rewrite Z.add_0_r.
    repeat split; try done. intros i Hi. lia.
  - destruct (IH d acc ltac:(lia)) as (d1 & Hrun & Hlen & Hlt & Hge).
    rewrite seq_S, foldl_snoc, Hrun. simpl.
    destruct (lookup_lt_is_Some_2 d n ltac:(lia)) as [x Hx].
    assert (Hx1 : d1 !! n = Some x) by (rewrite Hge by lia; done).
    set (d2 := <[n := observed fs pf n x]> d1).
    assert (Hd2 : match pf !! n with
                  | Some p => match fs !! p with
                              | Some bytes => <[n := Z.of_nat (length bytes)]> d1
                              | None => d1
                              end
                  | None => d1
                  end = d2).
    { unfold d2, observed. destruct (pf !! n) as [p|];
        [destruct (fs !! p)|]; try reflexivity;
        symmetry; by apply list_insert_id. }
    rewrite Hd2. exists d2.
    assert (Hn2 : d2 !! n = Some (observed fs pf n x)).
    { unfold d2. apply list_lookup_insert_eq. lia. }
    split.
    { assert (Ht : take n d2 = take n d1)
        by (unfold d2; apply take_insert_ge; lia).
      rewrite Hn2. simpl. rewrite (take_S_r _ _ _ Hn2), sumZ_snoc, Ht.
      f_equal. lia. }
    split; [unfold d2; by rewrite length_insert|].
    split.
    + intros i Hi. destruct (decide (i = n)) as [->|Hne].
      * rewrite Hn2, Hx. reflexivity.
      * unfold d2. rewrite list_lookup_insert_ne by done. apply Hlt. lia.
    + intros i Hi. unfold d2. rewrite list_lookup_insert_ne by lia.
      apply Hge. lia.
Qed.

Lemma interval_callback_spec PARTS t w :
  length (downloaded t) = PARTS →
  ∃ d', interval_callback PARTS t w
        = (set_downloaded d' t, print (OutProgress (sumZ d') (total t)) w) ∧
        length d' = PARTS ∧
        (∀ i : nat, d' !! i
                    = observed (files w) (partFiles t) i <$> downloaded t !! i).
Proof.
  intros Hlen. unfold interval_callback.
  destruct (tick_fold (files w) (partFiles t) PARTS (downloaded t) 0 ltac:(lia))
    as (d' & Hrun & Hlen' & Hlt & Hge).
  rewrite Hrun. exists d'. split.
  { rewrite take_ge by lia. by rewrite Z.add_0_l. }
  split; [lia|].
  intros i. destruct (decide (i < PARTS)%nat) as [Hi|Hi]; [by apply Hlt|].
  rewrite Hge by lia.
  rewrite (lookup_ge_None_2 (downloaded t) i) by lia. reflexivity.
Qed.

(** ** C10: what a missing part file contributes *)



(** ** The invariant of a multi-part transfer *)

Lemma TlRel_of_Forall_le (y : Z) (l : list Z) :
  Forall (λ x, x ≤ y) l → TlRel Z.le y l.
Proof.
  destruct l as [|x l _] using rev_ind; intros H; [constructor|].
  apply Forall_app in H as [_ H]. rewrite Forall_singleton in H.
  apply TlRel_cons. exact H.
Qed.

Lemma transfer_inv_init PARTS url dest fileSize w :
  transfer_inv PARTS dest fileSize w
    (new_transfer PARTS dest fileSize,
     spawn_parts url (part_calls PARTS dest fileSize) w).
Proof.
  destruct (spawn_parts_spec url (part_calls PARTS dest fileSize) w)
    as (Hnew & Hold & Hout & _ & _).
  unfold transfer_inv. simpl.
  split; [done|]. split; [done|].
  split; [apply length_replicate|]. split; [apply length_replicate|].
  split.
  { intros i p c x _ _ Hx. apply lookup_replicate in Hx as [-> _]. lia. }
  split.
  { intros p Hp. rewrite Hnew by done. by eexists. }
  split; [exact Hold|].
  exists []. simpl. rewrite app_nil_r. split; [done|].
  split; constructor.
Qed.

Lemma transfer_inv_tick PARTS dest fileSize w0 t w :
  transfer_inv PARTS dest fileSize w0 (t, w) →
  transfer_inv PARTS dest fileSize w0 (interval_callback PARTS t w).
Proof.
  intros (Hpf & Htot & Hlt & Hld & Hbound & Hex & Hoth & sums & Hout & Hsort & Hall).
  simpl in *.
  destruct (interval_callback_spec PARTS t w Hld) as (d' & -> & Hlen' & Hd).
  assert (Hle : sumZ (downloaded t) ≤ sumZ d').
  { apply sumZ_le, Forall2_same_length_lookup_2; [lia|].
    intros i x y Hx Hy. rewrite Hd, Hx in Hy. simpl in Hy.
    inversion Hy; subst; clear Hy. unfold observed.
    destruct (partFiles t !! i) as [p|] eqn:Hp; [|lia].
    destruct (files w !! p) as [c|] eqn:Hc; [|lia].
    by apply (Hbound i p c x). }
  unfold transfer_inv. simpl.
  split; [done|]. split; [done|]. split; [done|]. split; [done|].
  split.
  { intros i p c x Hp Hc Hx. rewrite Hd in Hx. unfold observed in Hx.
    rewrite Hp, Hc in Hx. destruct (downloaded t !! i); simpl in Hx; [|done].
    inversion Hx; subst. lia. }
  split; [exact Hex|]. split; [exact Hoth|].
  exists (sums ++ [sumZ d']). split.
  { rewrite Hout, Htot, map_app. simpl. by rewrite (assoc_L (++)). }
  split.
  { apply Sorted_snoc; [exact Hsort|]. apply TlRel_of_Forall_le.
    eapply Forall_impl; [exact Hall|]. simpl. intros; lia. }
  apply Forall_app. split.
  - eapply Forall_impl; [exact Hall|]. simpl. intros; lia.
  - apply Forall_singleton. lia.
Qed.

Lemma transfer_inv_write PARTS dest fileSize w0 t w (i : nat) p chunk :
  partFiles t !! i = Some p →
  transfer_inv PARTS dest fileSize w0 (t, w) →
  transfer_inv PARTS dest fileSize w0 (t, fs_write p chunk w).
Proof.
  intros Hip (Hpf & Htot & Hlt & Hld & Hbound & Hex & Hoth & Hsums).
  simpl in *. unfold transfer_inv. simpl.
  split; [done|]. split; [done|]. split; [done|]. split; [done|].
  split.
  { intros j q c x Hq Hc Hx. rewrite lookup_alter in Hc.
    destruct (decide (p = q)) as [->|Hne]; [|by apply (Hbound j q c x)].
    destruct (files w !! q) as [c0|] eqn:Hc0; simpl in Hc; [|done].
    inversion Hc; subst. rewrite length_app.
    pose proof (Hbound j q c0 x Hq Hc0 Hx). lia. }
  split.
  { intros q Hq. rewrite lookup_alter. destruct (decide (p = q)) as [->|Hne].
    - apply fmap_is_Some. by apply Hex.
    - by apply Hex. }
  split; [|exact Hsums].
  intros q Hq. rewrite lookup_alter_ne; [by apply Hoth|].
  intros ->. apply Hq. apply list_elem_of_lookup. by exists i.
Qed.

Lemma transfer_inv_tasks PARTS dest fileSize w0 t w (i : nat) v :
  transfer_inv PARTS dest fileSize w0 (t, w) →
  transfer_inv PARTS dest fileSize w0 (set_tasks (<[i := v]> (tasks t)) t, w).
Proof.
  intros (Hpf & Htot & Hlt & Hld & Hrest). simpl in *.
  unfold transfer_inv. simpl. rewrite length_insert. done.
Qed.

Lemma transfer_inv_step PARTS dest fileSize w0 e s :
  transfer_inv PARTS dest fileSize w0 s →
  transfer_inv PARTS dest fileSize w0 (step PARTS e s).
Proof.
  destruct s as [t w]. intros H. unfold step.
  destruct e as [i chunk|i tr tot|i|i|].
  - destruct (tasks t !! i) as [[| |]|]; try done.
    destruct (partFiles t !! i) as [p|] eqn:Hp; [|done].
    by eapply transfer_inv_write.
  - done.
  - destruct (tasks t !! i) as [[| |]|]; try done.
    by apply transfer_inv_tasks.
  - destruct (tasks t !! i) as [[| |]|]; try done.
    by apply transfer_inv_tasks.
  - destruct (interval t); [|done]. by apply transfer_inv_tick.
Qed.

Lemma transfer_inv_event_loop PARTS dest fileSize w0 sched : ∀ s,
  transfer_inv PARTS dest fileSize w0 s →
  transfer_inv PARTS dest fileSize w0 (event_loop PARTS sched s).
Proof.
  unfold event_loop. induction sched as [|e sched IH]; intros s H; [done|].
  simpl. apply IH. by apply transfer_inv_step.
Qed.

(** ** Awaiting the segments *)

Lemma interval_callback_closure PARTS t w :
  tasks (interval_callback PARTS t w).1 = tasks t ∧
  interval (interval_callback PARTS t w).1 = interval t ∧
  partFiles (interval_callback PARTS t w).1 = partFiles t.
Proof.
  unfold interval_callback. by destruct (foldl _ _ _).
Qed.

Lemma step_interval PARTS e s : interval (step PARTS e s).1 = interval s.1.
Proof.
  destruct s as [t w]. unfold step. destruct e as [i chunk|i tr tot|i|i|]; simpl.
  - by destruct (tasks t !! i) as [[| |]|], (partFiles t !! i).
  - done.
  - by destruct (tasks t !! i) as [[| |]|].
  - by destruct (tasks t !! i) as [[| |]|].
  - destruct (interval t) eqn:Hi; [|done].
    destruct (interval_callback_closure PARTS t w) as (_ & -> & _). done.
Qed.

Lemma event_loop_interval PARTS sched : ∀ s,
  interval (event_loop PARTS sched s).1 = interval s.1.
Proof.
  unfold event_loop. induction sched as [|e sched IH]; intros s; [done|].
  simpl. rewrite IH. apply step_interval.
Qed.

Lemma event_loop_app PARTS pre rest s :
  event_loop PARTS (pre ++ rest) s
  = event_loop PARTS rest (event_loop PARTS pre s).
Proof. unfold event_loop. apply foldl_app. Qed.

Lemma await_all_settled PARTS sched s :
  promise_all (tasks s.1) ≠ StillPending →
  await_all PARTS sched s = (promise_all (tasks s.1), s, sched).
Proof.
  intros H. destruct sched; simpl; by destruct (promise_all (tasks s.1)).
Qed.

Lemma await_all_decompose PARTS sched : ∀ s r s' rest,
  await_all PARTS sched s = (r, s', rest) →
  ∃ pre, sched = pre ++ rest ∧ s' = event_loop PARTS pre s ∧
         r = promise_all (tasks s'.1).
Proof.
  induction sched as [|e sched IH]; intros s r s' rest Hrun; simpl in Hrun.
  - exists []. destruct (promise_all (tasks s.1)) eqn:Hp;
      inversion Hrun; subst; done.
  - destruct (promise_all (tasks s.1)) eqn:Hp.
    + exists []. inversion Hrun; subst; done.
    + exists []. inversion Hrun; subst; done.
    + destruct (IH _ _ _ _ Hrun) as (pre & -> & -> & ->).
      exists (e :: pre). done.
Qed.

Lemma await_all_pending_prefix PARTS (Q : transfer * world → Prop) pre rest :
  (∀ s, Q s → promise_all (tasks s.1) = StillPending) →
  (∀ e s, e ∈ pre → Q s → Q (step PARTS e s)) →
  ∀ s, Q s →
       await_all PARTS (pre ++ rest) s
       = await_all PARTS rest (event_loop PARTS pre s) ∧
       Q (event_loop PARTS pre s).
Proof.
  intros Hpending. induction pre as [|e pre IH]; intros Hstep s HQ; [done|].
  simpl. rewrite (Hpending s HQ).
  apply IH.
  - intros e' s' He'. apply Hstep. by apply list_elem_of_further.
  - apply Hstep; [apply list_elem_of_here | done].
Qed.

Lemma elem_of_insert_inv {A} (l : list A) (i : nat) (x y : A) :
  x ∈ <[i := y]> l → x = y ∨ x ∈ l.
Proof.
  intros [j Hj]%list_elem_of_lookup.
  apply list_lookup_insert_Some in Hj as [(-> & -> & _)|[_ Hj]]; [by left|].
  right. apply list_elem_of_lookup. by exists j.
Qed.

Lemma in_flight_pending i s :
  in_flight i s → promise_all (tasks s.1) = StillPending.
Proof.
  intros [Hi Hrej]. unfold promise_all.
  rewrite bool_decide_eq_false_2 by done.
  rewrite bool_decide_eq_true_2; [done|].
  apply list_elem_of_lookup. by exists i.
Qed.

Lemma in_flight_step PARTS i e s :
  (∀ j, e ≠ Error j) → e ≠ Finish i →
  in_flight i s → in_flight i (step PARTS e s).
Proof.
  destruct s as [t w]. intros Herr Hfin [Hi Hrej]. unfold in_flight in *.
  simpl in *. destruct e as [j chunk|j tr tot|j|j|]; simpl.
  - by destruct (tasks t !! j) as [[| |]|], (partFiles t !! j).
  - done.
  - destruct (tasks t !! j) as [[| |]|] eqn:Hj; try done. simpl.
    assert (j ≠ i) by congruence.
    rewrite list_lookup_insert_ne by done. split; [done|].
    intros [?|?]%elem_of_insert_inv; done.
  - by destruct (Herr j).
  - destruct (interval t); [|done].
    destruct (interval_callback_closure PARTS t w) as (-> & _). done.
Qed.

(** ** A segment fails *)

(** The first failure of a stream, while its segment is in flight, rejects the
    joined promise at once: the call throws with the state the event loop has
    reached, and the events after the failure are still to come. *)
Lemma segment_failure_state PARTS url dest fileSize pre (i : nat) post w :
  (i < PARTS)%nat →
  (∀ j, Error j ∉ pre) → Finish i ∉ pre →
  ∃ t w',
    multiPartDownload PARTS url dest fileSize (pre ++ Error i :: post) w
    = {| result := Threw SegmentFailed; monitor := Some t; after := w';
         unprocessed := post |} ∧
    transfer_inv PARTS dest fileSize w (t, w') ∧
    interval t = true.
Proof.
  intros Hi Herr Hfin. unfold multiPartDownload.
  set (s0 := (new_transfer PARTS dest fileSize,
              spawn_parts url (part_calls PARTS dest fileSize) w)).
  assert (H0 : in_flight i s0).
  { split; simpl.
    - by apply lookup_replicate_2.
    - by intros [? _]%elem_of_replicate. }
  destruct (await_all_pending_prefix PARTS (in_flight i) pre (Error i :: post)
              (in_flight_pending i)) with (s := s0) as [Hrun H1]; [|exact H0|].
  { intros e s He. apply in_flight_step.
    - intros j ->. by apply (Herr j).
    - intros ->. done. }
  rewrite Hrun. set (s1 := event_loop PARTS pre s0) in *.
  simpl. rewrite (in_flight_pending i s1 H1).
  assert (Hinv : transfer_inv PARTS dest fileSize w (step PARTS (Error i) s1)).
  { apply transfer_inv_step, transfer_inv_event_loop, transfer_inv_init. }
  assert (Hint : interval (step PARTS (Error i) s1).1 = true).
  { rewrite step_interval. unfold s1. by rewrite event_loop_interval. }
  assert (Hrej : promise_all (tasks (step PARTS (Error i) s1).1) = FirstRejected).
  { destruct s1 as [t1 w1]. destruct H1 as [Hp _]. simpl in Hp.
    simpl. rewrite Hp. simpl. unfold promise_all.
    rewrite bool_decide_eq_true_2; [done|].
    apply list_elem_of_insert. by eapply lookup_lt_Some. }
  rewrite await_all_settled by (rewrite Hrej; done). rewrite Hrej.
  destruct (step PARTS (Error i) s1) as [t2 w2].
  exists t2, w2. done.
Qed.

(** ** C2: failure of a segment *)

(** C2, as amended.  When a stream fails while its segment is in flight (the
    first failure of the schedule), the whole transfer fails: the call throws.
    The destination is left as it was before the call, so no final file is
    produced.  The part files are not cleaned up: every one of the [PARTS]
    files [dest.partN] is still on disk when the error reaches the caller. *)
Theorem segment_failure_leaves_part_files (PARTS : nat) (url dest : string)
    (fileSize : Z) (pre : list event) (i : nat) (post : list event) (w : world) :
  (i < PARTS)%nat →
  (∀ j, Error j ∉ pre) → Finish i ∉ pre →
  let out := multiPartDownload PARTS url dest fileSize (pre ++ Error i :: post) w in
  result out = Threw SegmentFailed ∧
  files (after out) !! dest = files w !! dest ∧
  (∀ k : nat, (k < PARTS)%nat → is_Some (files (after out) !! part_file dest k)).
Proof.
  intros Hi Herr Hfin.
  destruct (segment_failure_state PARTS url dest fileSize pre i post w Hi Herr Hfin)
    as (t & w' & -> & Hinv & _).
  destruct Hinv as (Hpf & _ & _ & _ & _ & Hex & Hoth & _). simpl in *.
  split; [done|]. split.
  - apply Hoth. rewrite Hpf. apply dest_not_part_file.
  - intros k Hk. apply Hex. rewrite Hpf. apply part_files_elem. by exists k.
Qed.

(** The amended C2 on the failing scenario: part 2 of 4 fails after part 0
    received three bytes and the timer fired once. *)
Lemma segment_failure_leaves_part_files_witness :
  let out := multiPartDownload PARTS example_url example_dest 16000000
               ([Data 0 three_bytes; Tick] ++ Error 2 :: [Tick]) empty_world in
  result out = Threw SegmentFailed ∧
  files (after out) !! example_dest = None ∧
  (∀ k : nat, (k < PARTS)%nat →
              is_Some (files (after out) !! part_file example_dest k)).
Proof.
  apply (segment_failure_leaves_part_files PARTS example_url example_dest 16000000
           [Data 0 three_bytes; Tick] 2 [Tick] empty_world).
  - unfold PARTS. lia.
  - intros j Hin.
    repeat (apply elem_of_cons in Hin as [Hin|Hin]; [discriminate Hin|]).
    by apply not_elem_of_nil in Hin.
  - intros Hin.
    repeat (apply elem_of_cons in Hin as [Hin|Hin]; [discriminate Hin|]).
    by apply not_elem_of_nil in Hin.
Defined.

(** C2 as stated fails on the code: in the failing scenario the call throws
    and no destination file exists, but the four part files are all still on
    disk, the first one with the three bytes it had received. *)
Lemma part_files_remain_counterexample :
  let out := downloadWithResume PARTS example_url example_dest failing_network
               empty_world in
  result out = Threw SegmentFailed ∧
  files (after out) !! example_dest = None ∧
  files (after out) !! "downloads/1.21.94.Appx.part0" = Some three_bytes ∧
  files (after out) !! "downloads/1.21.94.Appx.part1" = Some [] ∧
  files (after out) !! "downloads/1.21.94.Appx.part2" = Some [] ∧
  files (after out) !! "downloads/1.21.94.Appx.part3" = Some [].
Proof. vm_compute. repeat split; reflexivity. Qed.

(** ** C5: the monitor after the transfer has ended *)

Lemma concat_loop_stdout dest parts : ∀ w,
  stdout (concat_loop dest parts w).2 = stdout w.
Proof.
  induction parts as [|p parts IH]; intros w; simpl; [done|].
  destruct (files w !! p); [|done]. by rewrite IH.
Qed.

Lemma promise_all_resolved ts : promise_all ts = AllResolved → Pending ∉ ts.
Proof.
  unfold promise_all. repeat case_bool_decide; done.
Qed.

(** With the timer cleared and no segment in flight, no event has any effect. *)
Lemma step_idle PARTS e t w :
  interval t = false → Pending ∉ tasks t → step PARTS e (t, w) = (t, w).
Proof.
  intros Hint Hp. unfold step.
  assert (Hi : ∀ i : nat, tasks t !! i ≠ Some Pending).
  { intros i Hi. apply Hp, list_elem_of_lookup. by exists i. }
  destruct e as [i chunk|i tr tot|i|i|].
  - specialize (Hi i). by destruct (tasks t !! i) as [[| |]|].
  - done.
  - specialize (Hi i). by destruct (tasks t !! i) as [[| |]|].
  - specialize (Hi i). by destruct (tasks t !! i) as [[| |]|].
  - by rewrite Hint.
Qed.

Lemma event_loop_idle PARTS sched t w :
  interval t = false → Pending ∉ tasks t →
  event_loop PARTS sched (t, w) = (t, w).
Proof.
  intros Hint Hp. unfold event_loop.
  induction sched as [|e sched IH]; [done|].
  cbn [foldl]. rewrite step_idle by done. exact IH.
Qed.

(** The state in which a successful call returns. *)
Lemma success_state PARTS url dest fileSize sched w :
  let out := multiPartDownload PARTS url dest fileSize sched w in
  result out = Returned →
  ∃ pre t w1,
    sched = pre ++ unprocessed out ∧
    (t, w1) = event_loop PARTS pre
                (new_transfer PARTS dest fileSize,
                 spawn_parts url (part_calls PARTS dest fileSize) w) ∧
    promise_all (tasks t) = AllResolved ∧
    monitor out = Some (clearInterval t) ∧
    (result out, after out)
    = concatParts dest (partFiles t) (print OutNewline w1).
Proof.
  unfold multiPartDownload.
  destruct (await_all PARTS sched _) as [[r [t w1]] rest] eqn:Hrun.
  apply await_all_decompose in Hrun as (pre & -> & Hs & ->).
  simpl. destruct (promise_all (tasks t)) eqn:Hp; simpl; try done.
  destruct (concatParts dest (partFiles t) (print OutNewline w1)) as [r w2] eqn:Hc.
  simpl. intros ->. exists pre, t, w1. done.
Qed.

(** C5 fails on the failure path.  When a stream fails while its segment is
    in flight, the call throws without clearing the interval timer: in the
    state the caller is left with the timer is still armed, and the next tick
    still prints a progress line for the transfer of [fileSize] bytes. *)
Theorem monitor_leaks_on_segment_failure (PARTS : nat) (url dest : string)
    (fileSize : Z) (pre : list event) (i : nat) (post : list event) (w : world) :
  (i < PARTS)%nat →
  (∀ j, Error j ∉ pre) → Finish i ∉ pre →
  let out := multiPartDownload PARTS url dest fileSize (pre ++ Error i :: post) w in
  result out = Threw SegmentFailed ∧
  ∃ t, monitor out = Some t ∧ interval t = true ∧
       ∃ sum, stdout (step PARTS Tick (t, after out)).2
              = stdout (after out) ++ [OutProgress sum fileSize].
Proof.
  intros Hi Herr Hfin.
  destruct (segment_failure_state PARTS url dest fileSize pre i post w Hi Herr Hfin)
    as (t & w' & -> & Hinv & Hint).
  simpl. split; [done|]. exists t. split; [done|]. split; [done|].
  destruct Hinv as (_ & Htot & _ & Hld & _). simpl in *.
  destruct (interval_callback_spec PARTS t w' Hld) as (d' & Hrun & _).
  exists (sumZ d'). rewrite Hint, Hrun, Htot. reflexivity.
Qed.

(** The failing scenario: part 2 of 4 fails; the tick that follows the throw
    prints "[3/16000000]" again. *)
Lemma monitor_leaks_on_segment_failure_witness :
  let out := multiPartDownload PARTS example_url example_dest 16000000
               ([Data 0 three_bytes; Tick] ++ Error 2 :: [Tick]) empty_world in
  result out = Threw SegmentFailed ∧
  ∃ t, monitor out = Some t ∧ interval t = true ∧
       ∃ sum, stdout (step PARTS Tick (t, after out)).2
              = stdout (after out) ++ [OutProgress sum 16000000].
Proof.
  apply (monitor_leaks_on_segment_failure PARTS example_url example_dest 16000000
           [Data 0 three_bytes; Tick] 2 [Tick] empty_world).
  - unfold PARTS. lia.
  - intros j Hin.
    repeat (apply elem_of_cons in Hin as [Hin|Hin]; [discriminate Hin|]).
    by apply not_elem_of_nil in Hin.
  - intros Hin.
    repeat (apply elem_of_cons in Hin as [Hin|Hin]; [discriminate Hin|]).
    by apply not_elem_of_nil in Hin.
Defined.

(** The same run through [downloadWithResume], evaluated: the call throws,
    one event is left for the event loop, the timer is armed, and running the
    event loop on what is left prints a second progress line. *)
Example leaked_timer_run :
  let out := downloadWithResume PARTS example_url example_dest failing_network
               empty_world in
  result out = Threw SegmentFailed ∧
  unprocessed out = [Tick] ∧
  interval <$> monitor out = Some true ∧
  stdout (after out) = [LogMultiPart; OutProgress 3 16000000] ∧
  (λ t, stdout (event_loop PARTS (unprocessed out) (t, after out)).2) <$> monitor out
  = Some [LogMultiPart; OutProgress 3 16000000; OutProgress 3 16000000].
Proof. vm_compute. repeat split; reflexivity. Qed.

(** ** The single stream *)

Lemma single_stream_loop_spec dest sched : ∀ total w,
  let out := single_stream_loop dest total sched w in
  (∀ p, p ≠ dest → files (after out) !! p = files w !! p) ∧
  (∃ ops, fsops (after out) = fsops w ++ ops ∧
          Forall (λ o, op_path o = dest) ops) ∧
  requests (after out) = requests w ∧
  monitor out = None.
Proof.
  induction sched as [|e sched IH]; intros total w.
  - simpl. repeat split; try done. exists []. by rewrite app_nil_r.
  - assert (Hskip : ∀ total' w',
      (∀ p, p ≠ dest → files w' !! p = files w !! p) →
      (∃ ops, fsops w' = fsops w ++ ops ∧ Forall (λ o, op_path o = dest) ops) →
      requests w' = requests w →
      let out := single_stream_loop dest total' sched w' in
      (∀ p, p ≠ dest → files (after out) !! p = files w !! p) ∧
      (∃ ops, fsops (after out) = fsops w ++ ops ∧
              Forall (λ o, op_path o = dest) ops) ∧
      requests (after out) = requests w ∧
      monitor out = None).
    { intros total' w' Hf (ops & Hops & Hall) Hr.
      destruct (IH total' w') as (Hf' & (ops' & Hops' & Hall') & Hr' & Hm).
      split; [intros p Hp; rewrite Hf' by done; by apply Hf|].
      split; [|split; [congruence | done]].
      exists (ops ++ ops'). split.
      - rewrite Hops', Hops. by rewrite (assoc_L (++)).
      - by apply Forall_app. }
    assert (Hsame : ∃ ops, fsops w = fsops w ++ ops ∧
                           Forall (λ o, op_path o = dest) ops).
    { exists []. by rewrite app_nil_r. }
    destruct e as [[|i] chunk|[|i] tr tot|[|i]|[|i]|]; cbn [single_stream_loop];
      try (by apply Hskip).
    + apply Hskip; simpl; [|by eexists [_]; split; [|repeat constructor]|done].
      intros p Hp. by rewrite lookup_alter_ne.
    + destruct (js_or tot total =? 0); by apply Hskip.
    + simpl. done.
    + simpl. done.
Qed.

Lemma singleStream_spec url dest fileSize sched w :
  let out := singleStream url dest fileSize sched w in
  (∀ p, p ≠ dest → files (after out) !! p = files w !! p) ∧
  (∃ ops, fsops (after out) = fsops w ++ ops ∧
          Forall (λ o, op_path o = dest) ops) ∧
  requests (after out) = requests w ++ [(url, fallback_options)] ∧
  monitor out = None.
Proof.
  unfold singleStream.
  destruct (single_stream_loop_spec dest sched (or_zero fileSize)
              (fs_create dest (got url fallback_options w)))
    as (Hf & (ops & Hops & Hall) & Hr & Hm).
  split.
  { intros p Hp. rewrite Hf by done. simpl. by rewrite lookup_insert_ne. }
  split.
  { exists (OpCreate dest :: ops). split.
    - rewrite Hops. simpl. by rewrite <- (assoc_L (++)).
    - by constructor. }
  split; [exact Hr | exact Hm].
Qed.

(** A stream that delivers its chunks and finishes makes the call return,
    with the chunks in the destination. *)
Lemma single_stream_loop_delivers dest total chunks rest : ∀ w acc,
  files w !! dest = Some acc →
  let out := single_stream_loop dest total (map (Data 0) chunks ++ Finish 0 :: rest) w in
  result out = Returned ∧
  files (after out) !! dest = Some (acc ++ concat chunks) ∧
  unprocessed out = rest.
Proof.
  induction chunks as [|c chunks IH]; intros w acc Hacc.
  - simpl. by rewrite app_nil_r.
  - simpl. destruct (IH (fs_write dest c w) (acc ++ c)) as (Hr & Hf & Hu).
    { simpl. by rewrite lookup_alter_eq, Hacc. }
    simpl in *. rewrite Hr, Hf, Hu. by rewrite (assoc_L (++)).
Qed.

Lemma singleStream_delivers url dest fileSize chunks rest w :
  let out := singleStream url dest fileSize (map (Data 0) chunks ++ Finish 0 :: rest) w in
  result out = Returned ∧
  files (after out) !! dest = Some (concat chunks) ∧
  unprocessed out = rest.
Proof.
  unfold singleStream.
  apply (single_stream_loop_delivers dest _ chunks rest _ []).
  simpl. apply lookup_insert_eq.
Qed.

(** ** C4: the choice of strategy *)

Lemma multipart_guard_number n r :
  multipart_guard (Some (JNum n)) r = true ↔ r = true ∧ 10 * 1024 * 1024 < n.
Proof.
  unfold multipart_guard, truthy, js_gt.
  rewrite !andb_true_iff, negb_true_iff, Z.eqb_neq, Z.ltb_lt.
  intuition lia.
Qed.

Lemma multipart_guard_not_number r :
  multipart_guard None r = false ∧ multipart_guard (Some JNaN) r = false.
Proof. done. Qed.

Lemma multipart_guard_no_range fileSize : multipart_guard fileSize false = false.
Proof. unfold multipart_guard. by rewrite andb_false_r. Qed.

(** C4, as amended.  When both HEAD requests succeed and the content length
    parses to a number [n], the orchestrator runs the multi-part transfer
    exactly when the server announces byte ranges and [n] is strictly greater
    than 10 MiB, and the single stream otherwise, that is when ranges are not
    announced or [n <= 10 MiB] (a size of exactly 10 MiB takes the single
    stream).  The single stream touches no file other than the destination:
    every file operation of the call is on [dest], so no part file is ever
    created. *)
Theorem strategy_choice (PARTS : nat) (url dest : string) (net : network)
    (w : world) (h1 h2 : gmap string string) (n : Z) :
  head_size net = Some h1 → head_range net = Some h2 →
  parseInt (h1 !! "content-length") = JNum n →
  let supports := bool_decide (h2 !! "accept-ranges" = Some "bytes") in
  let w1 := got url head_options (got url head_options w) in
  let out := downloadWithResume PARTS url dest net w in
  (supports = true ∧ 10 * 1024 * 1024 < n →
   out = multiPartDownload PARTS url dest n (stream_events net)
           (print LogMultiPart w1)) ∧
  (supports = false ∨ n ≤ 10 * 1024 * 1024 →
   out = singleStream url dest (Some (JNum n)) (stream_events net) w1 ∧
   (∀ p, p ≠ dest → files (after out) !! p = files w !! p) ∧
   (∃ ops, fsops (after out) = fsops w ++ ops ∧
           Forall (λ o, op_path o = dest) ops)).
Proof.
  intros Hh1 Hh2 Hn supports w1 out.
  assert (Hout : out = if multipart_guard (Some (JNum n)) supports
                       then multiPartDownload PARTS url dest n (stream_events net)
                              (print LogMultiPart w1)
                       else singleStream url dest (Some (JNum n))
                              (stream_events net) w1).
  { unfold out, downloadWithResume, probe, getFileSize, supportsRange.
    rewrite Hh1, Hh2, Hn. reflexivity. }
  split.
  - intros Hm. apply multipart_guard_number in Hm. by rewrite Hm in Hout.
  - intros Hs.
    assert (Hg : multipart_guard (Some (JNum n)) supports = false).
    { apply not_true_is_false. rewrite multipart_guard_number.
      intros [? ?]. destruct Hs; [congruence | lia]. }
    rewrite Hg in Hout. split; [exact Hout|].
    rewrite Hout.
    destruct (singleStream_spec url dest (Some (JNum n)) (stream_events net) w1)
      as (Hf & Hops & _).
    split; [exact Hf | exact Hops].
Qed.

(** The amended C4 at 5,000,000 bytes with byte ranges announced: the single
    stream runs and only the destination is written. *)
Lemma strategy_choice_witness :
  let out := downloadWithResume PARTS example_url example_dest small_network
               empty_world in
  parseInt (ranged_headers "5000000" !! "content-length") = JNum 5000000 ∧
  bool_decide (ranged_headers "5000000" !! "accept-ranges" = Some "bytes") = true ∧
  out = singleStream example_url example_dest (Some (JNum 5000000))
          (stream_events small_network)
          (got example_url head_options (got example_url head_options empty_world)) ∧
  (∀ p, p ≠ example_dest → files (after out) !! p = files empty_world !! p).
Proof.
  intros out. split; [reflexivity|]. split; [reflexivity|].
  destruct (strategy_choice PARTS example_url example_dest small_network empty_world
              (ranged_headers "5000000") (ranged_headers "5000000") 5000000
              eq_refl eq_refl eq_refl) as [_ Hsingle].
  destruct Hsingle as (Hout & Hfiles & _); [right; lia|].
  split; [exact Hout | exact Hfiles].
Defined.

(** C4 as stated fails at the boundary: a size of exactly 10 MiB is not below
    the threshold and byte ranges are announced, yet the single stream runs:
    no request carries a Range header and no part file is created. *)
Lemma threshold_boundary_counterexample :
  let out := downloadWithResume PARTS example_url example_dest boundary_network
               empty_world in
  parseInt (ranged_headers "10485760" !! "content-length") = JNum 10485760 ∧
  ¬ (10485760 < 10 * 1024 * 1024) ∧
  bool_decide (ranged_headers "10485760" !! "accept-ranges" = Some "bytes") = true ∧
  out = singleStream example_url example_dest (Some (JNum 10485760))
          (stream_events boundary_network)
          (got example_url head_options (got example_url head_options empty_world)) ∧
  map (λ r, header_range r.2) (requests (after out)) = [None; None; None] ∧
  files (after out) !! "downloads/1.21.94.Appx.part0" = None ∧
  files (after out) !! example_dest = Some three_bytes.
Proof.
  split; [reflexivity|]. split; [lia|]. vm_compute. repeat split; reflexivity.
Qed.

(** ** C7 and C9: a probe that fails or finds no size *)

(** C7, as amended.  A failure of the probe never aborts the transfer: the
    orchestrator continues with the single stream, and the call returns once
    that stream has delivered its chunks and finished.  When a HEAD request
    throws (network error, status outside 2xx) the failure is logged, once,
    and not raised.  When the HEAD requests succeed but the content length is
    missing or unreadable, nothing is logged: the single stream is selected
    without any warning. *)
Theorem probe_failure_degrades (PARTS : nat) (url dest : string) (net : network)
    (w : world) :
  let out := downloadWithResume PARTS url dest net w in
  (head_size net = None →
   out = singleStream url dest None (stream_events net)
           (print LogHeadFailed (got url head_options w))) ∧
  (∀ h1, head_size net = Some h1 → head_range net = None →
   out = singleStream url dest (Some (parseInt (h1 !! "content-length")))
           (stream_events net)
           (print LogHeadFailed
              (got url head_options (got url head_options w)))) ∧
  (∀ h1 h2, head_size net = Some h1 → head_range net = Some h2 →
   parseInt (h1 !! "content-length") = JNaN →
   out = singleStream url dest (Some JNaN) (stream_events net)
           (got url head_options (got url head_options w))) ∧
  (∀ fileSize w1 chunks rest,
   out = singleStream url dest fileSize (stream_events net) w1 →
   stream_events net = map (Data 0) chunks ++ Finish 0 :: rest →
   result out = Returned ∧ files (after out) !! dest = Some (concat chunks)).
Proof.
  intros out. unfold out, downloadWithResume, probe, getFileSize, supportsRange.
  split; [|split; [|split]].
  - intros ->. reflexivity.
  - intros h1 -> ->. simpl. by rewrite multipart_guard_no_range.
  - intros h1 h2 -> -> ->. reflexivity.
  - intros fileSize w1 chunks rest -> ->.
    destruct (singleStream_delivers url dest fileSize chunks rest w1)
      as (Hr & Hf & _).
    split; [exact Hr | exact Hf].
Qed.

(** The amended C7 on a server whose HEAD requests fail: the failure is
    logged, the single stream runs, and the call returns with the file. *)
Lemma probe_failure_degrades_witness :
  let out := downloadWithResume PARTS example_url example_dest headless_network
               empty_world in
  head_size headless_network = None ∧
  out = singleStream example_url example_dest None (stream_events headless_network)
          (print LogHeadFailed (got example_url head_options empty_world)) ∧
  result out = Returned ∧
  files (after out) !! example_dest = Some (concat [three_bytes]).
Proof.
  intros out. split; [reflexivity|].
  destruct (probe_failure_degrades PARTS example_url example_dest headless_network
              empty_world) as (Hthrow & _ & _ & Hdeliver).
  split; [exact (Hthrow eq_refl)|].
  exact (Hdeliver None _ [three_bytes] [] (Hthrow eq_refl) eq_refl).
Defined.

(** C7 as stated fails for a missing size header: the HEAD requests succeed
    without a content length, the single stream runs and the call returns,
    but no warning is printed: the terminal shows only the final newline. *)
Lemma silent_probe_failure_counterexample :
  let out := downloadWithResume PARTS example_url example_dest sizeless_network
               empty_world in
  parseInt (({[ "accept-ranges" := "bytes" ]} : gmap string string)
              !! "content-length") = JNaN ∧
  result out = Returned ∧
  stdout (after out) = [OutNewline] ∧
  LogHeadFailed ∉ stdout (after out).
Proof.
  split; [reflexivity|]. split; [vm_compute; reflexivity|].
  split; [vm_compute; reflexivity|].
  apply (bool_decide_unpack _). vm_compute. exact I.
Qed.

(** C9.  When both HEAD requests succeed and the content length does not
    parse (in particular when the header is missing), [getFileSize] yields
    NaN; NaN fails the guard of the multi-part branch whatever the server
    says about ranges; the orchestrator runs the single stream, in a world
    to which the probe has added its two requests and no line of output; and
    no error is raised on the way: the call returns once the stream has
    delivered its chunks and finished. *)
Theorem unparsed_size_selects_single_stream (PARTS : nat) (url dest : string)
    (net : network) (w : world) (h1 h2 : gmap string string) :
  head_size net = Some h1 → head_range net = Some h2 →
  parseInt (h1 !! "content-length") = JNaN →
  let out := downloadWithResume PARTS url dest net w in
  let w1 := got url head_options (got url head_options w) in
  (getFileSize url (head_size net) w).1 = Some JNaN ∧
  multipart_guard (Some JNaN) true = false ∧
  out = singleStream url dest (Some JNaN) (stream_events net) w1 ∧
  stdout w1 = stdout w ∧
  (∀ chunks rest,
      stream_events net = map (Data 0) chunks ++ Finish 0 :: rest →
      result out = Returned ∧ files (after out) !! dest = Some (concat chunks)) ∧
  (∀ h : gmap string string,
      h !! "content-length" = None → parseInt (h !! "content-length") = JNaN).
Proof.
  intros Hh1 Hh2 Hnan out w1.
  assert (Hout : out = singleStream url dest (Some JNaN) (stream_events net) w1).
  { unfold out, downloadWithResume, probe, getFileSize, supportsRange.
    rewrite Hh1, Hh2, Hnan. reflexivity. }
  split; [unfold getFileSize; by rewrite Hh1, Hnan|].
  split; [reflexivity|]. split; [exact Hout|]. split; [reflexivity|].
  split.
  - intros chunks rest Hev. rewrite Hout, Hev.
    destruct (singleStream_delivers url dest (Some JNaN) chunks rest w1)
      as (Hr & Hf & _).
    split; [exact Hr | exact Hf].
  - intros h ->. reflexivity.
Qed.

(** C9 on a server that announces byte ranges and no content length. *)
Lemma unparsed_size_selects_single_stream_witness :
  let out := downloadWithResume PARTS example_url example_dest sizeless_network
               empty_world in
  (getFileSize example_url (head_size sizeless_network) empty_world).1
  = Some JNaN ∧
  bool_decide (({[ "accept-ranges" := "bytes" ]} : gmap string string)
                 !! "accept-ranges" = Some "bytes") = true ∧
  result out = Returned ∧
  files (after out) !! example_dest = Some (concat [three_bytes]).
Proof.
  intros out.
  destruct (unparsed_size_selects_single_stream PARTS example_url example_dest
              sizeless_network empty_world
              {[ "accept-ranges" := "bytes" ]} {[ "accept-ranges" := "bytes" ]}
              eq_refl eq_refl eq_refl) as (Hsize & _ & _ & _ & Hdeliver & _).
  split; [exact Hsize|]. split; [reflexivity|].
  exact (Hdeliver [three_bytes] [] eq_refl).
Defined.

(** ** The requests of a transfer *)

Lemma step_requests PARTS e s : requests (step PARTS e s).2 = requests s.2.
Proof.
  destruct s as [t w]. unfold step. destruct e as [i chunk|i tr tot|i|i|]; simpl.
  - by destruct (tasks t !! i) as [[| |]|], (partFiles t !! i).
  - done.
  - by destruct (tasks t !! i) as [[| |]|].
  - by destruct (tasks t !! i) as [[| |]|].
  - destruct (interval t); [|done]. unfold interval_callback.
    by destruct (foldl _ _ _).
Qed.

Lemma event_loop_requests PARTS sched : ∀ s,
  requests (event_loop PARTS sched s).2 = requests s.2.
Proof.
  unfold event_loop. induction sched as [|e sched IH]; intros s; [done|].
  cbn [foldl]. rewrite IH. apply step_requests.
Qed.

Lemma concat_loop_requests dest parts : ∀ w,
  requests (concat_loop dest parts w).2 = requests w.
Proof.
  induction parts as [|p parts IH]; intros w; simpl; [done|].
  destruct (files w !! p); [|done]. by rewrite IH.
Qed.

Lemma part_calls_ranges PARTS dest fileSize :
  map (λ c, (pc_start c, pc_end c)) (part_calls PARTS dest fileSize)
  = ranges PARTS fileSize.
Proof. unfold ranges, part_calls. by rewrite !map_map. Qed.

Lemma multiPartDownload_requests PARTS url dest fileSize sched w :
  requests (after (multiPartDownload PARTS url dest fileSize sched w))
  = requests w ++ map (λ r, (url, part_options r.1 r.2)) (ranges PARTS fileSize).
Proof.
  destruct (spawn_parts_spec url (part_calls PARTS dest fileSize) w)
    as (_ & _ & _ & Hreq & _).
  rewrite <- (part_calls_ranges PARTS dest fileSize), map_map. simpl.
  rewrite <- Hreq.
  unfold multiPartDownload.
  destruct (await_all PARTS sched _) as [[r [t w1]] rest] eqn:Hrun.
  apply await_all_decompose in Hrun as (pre & _ & Hs & _).
  apply (f_equal (λ s, requests s.2)) in Hs.
  rewrite event_loop_requests in Hs. simpl in Hs. rewrite <- Hs.
  destruct r; simpl; try done.
  destruct (concatParts dest (partFiles t) (print OutNewline w1)) as [r w2] eqn:Hc.
  simpl. apply (f_equal (λ x, requests x.2)) in Hc. simpl in Hc.
  rewrite <- Hc. unfold concatParts. by rewrite concat_loop_requests.
Qed.

Example requests_of_16000000 :
  map (λ r, header_range r.2)
    (requests (after (multiPartDownload PARTS example_url example_dest 16000000
                        [] empty_world)))
  = [Some "bytes=0-3999999"; Some "bytes=4000000-7999999";
     Some "bytes=8000000-11999999"; Some "bytes=12000000-15999999"].
Proof. vm_compute. reflexivity. Qed.

(** ** A transfer whose segments all finish *)

Lemma finishing_step PARTS e rest s :
  (∀ j, e ≠ Error j) →
  finishing PARTS (e :: rest) s → finishing PARTS rest (step PARTS e s).
Proof.
  destruct s as [t w]. intros Herr (Hrej & Hlen & Hall). unfold finishing in *.
  simpl in *.
  assert (Hsame : ∀ t' : transfer,
            tasks t' = tasks t → (∀ i, e ≠ Finish i) →
            (Rejected ∉ tasks t') ∧ length (tasks t') = PARTS ∧
            (∀ i : nat, (i < PARTS)%nat →
               tasks t' !! i = Some Resolved ∨
               (tasks t' !! i = Some Pending ∧ Finish i ∈ rest))).
  { intros t' -> Hne. split; [done|]. split; [done|].
    intros i Hi. destruct (Hall i Hi) as [?|[? Hin]]; [by left|].
    right. split; [done|]. apply elem_of_cons in Hin as [Heq|?]; [|done].
    by destruct (Hne i). }
  destruct e as [j chunk|j tr tot|j|j|]; simpl.
  - destruct (tasks t !! j) as [[| |]|], (partFiles t !! j); by apply Hsame.
  - by apply Hsame.
  - destruct (tasks t !! j) as [[| |]|] eqn:Hj; simpl.
    + split; [by intros [?|?]%elem_of_insert_inv|].
      split; [by rewrite length_insert|].
      intros i Hi. destruct (decide (i = j)) as [->|Hne].
      * left. apply list_lookup_insert_eq. lia.
      * rewrite list_lookup_insert_ne by done.
        destruct (Hall i Hi) as [?|[? Hin]]; [by left|].
        right. split; [done|].
        apply elem_of_cons in Hin as [Heq|?]; [congruence | done].
    + split; [done|]. split; [done|]. intros i Hi.
      destruct (Hall i Hi) as [?|[Hp Hin]]; [by left|].
      right. split; [done|].
      apply elem_of_cons in Hin as [Heq|?]; [|done].
      inversion Heq; subst. congruence.
    + split; [done|]. split; [done|]. intros i Hi.
      destruct (Hall i Hi) as [?|[Hp Hin]]; [by left|].
      right. split; [done|].
      apply elem_of_cons in Hin as [Heq|?]; [|done].
      inversion Heq; subst. congruence.
    + split; [done|]. split; [done|]. intros i Hi.
      destruct (Hall i Hi) as [?|[Hp Hin]]; [by left|].
      right. split; [done|].
      apply elem_of_cons in Hin as [Heq|?]; [|done].
      inversion Heq; subst. congruence.
  - by destruct (Herr j).
  - destruct (interval t).
    + destruct (interval_callback_closure PARTS t w) as (Ht & _).
      by apply Hsame.
    + by apply Hsame.
Qed.

Lemma await_all_finishing PARTS sched : ∀ s,
  (∀ j, Error j ∉ sched) → finishing PARTS sched s →
  ∃ s' rest, await_all PARTS sched s = (AllResolved, s', rest).
Proof.
  induction sched as [|e sched IH]; intros s Herr Hfin.
  - destruct Hfin as (Hrej & Hlen & Hall). simpl. unfold promise_all.
    rewrite bool_decide_eq_false_2 by done.
    rewrite bool_decide_eq_false_2; [by eexists _, _|].
    intros [i Hi]%list_elem_of_lookup.
    destruct (Hall i) as [?|[_ Hin]]; [|congruence|].
    + rewrite <- Hlen. by eapply lookup_lt_Some.
    + by apply not_elem_of_nil in Hin.
  - simpl. destruct (promise_all (tasks s.1)) eqn:Hp.
    + by eexists _, _.
    + destruct Hfin as (Hrej & _). unfold promise_all in Hp.
      rewrite bool_decide_eq_false_2 in Hp by done.
      by case_bool_decide.
    + apply IH.
      * intros j Hin. apply (Herr j). by apply list_elem_of_further.
      * apply finishing_step; [|done].
        intros j ->. apply (Herr j), list_elem_of_here.
Qed.

Lemma existing_contents (fs : gmap string (list Byte.byte)) (parts : list string) :
  (∀ p, p ∈ parts → is_Some (fs !! p)) →
  ∃ contents, Forall2 (λ p c, fs !! p = Some c) parts contents.
Proof.
  induction parts as [|p parts IH]; intros Hex; [by exists []|].
  destruct (Hex p (list_elem_of_here _ _)) as [c Hc].
  destruct IH as [cs Hcs].
  { intros q Hq. apply Hex. by apply list_elem_of_further. }
  exists (c :: cs). by constructor.
Qed.

(** When no stream fails and every segment's 'finish' is in the schedule,
    the call returns: the parts are aggregated into the destination and
    removed. *)
Lemma multiPartDownload_completes PARTS url dest fileSize sched w :
  (∀ j, Error j ∉ sched) →
  (∀ i : nat, (i < PARTS)%nat → Finish i ∈ sched) →
  let out := multiPartDownload PARTS url dest fileSize sched w in
  result out = Returned ∧
  is_Some (files (after out) !! dest) ∧
  (∀ k : nat, (k < PARTS)%nat → files (after out) !! part_file dest k = None).
Proof.
  intros Herr Hfin out.
  set (s0 := (new_transfer PARTS dest fileSize,
              spawn_parts url (part_calls PARTS dest fileSize) w)).
  destruct (await_all_finishing PARTS sched s0 Herr) as (s' & rest & Hrun).
  { split; simpl; [by intros [? _]%elem_of_replicate|].
    split; [apply length_replicate|].
    intros i Hi. right. split; [by apply lookup_replicate_2 | by apply Hfin]. }
  unfold out, multiPartDownload. fold s0. rewrite Hrun.
  apply await_all_decompose in Hrun as (pre & _ & -> & _).
  pose proof (transfer_inv_event_loop PARTS dest fileSize w pre s0
                (transfer_inv_init PARTS url dest fileSize w)) as Hinv.
  destruct (event_loop PARTS pre s0) as [t w1].
  destruct Hinv as (Hpf & _ & _ & _ & _ & Hex & _). simpl in Hpf, Hex.
  destruct (existing_contents (files w1) (partFiles t) Hex) as [contents Hall].
  assert (Hall1 : Forall2 (λ p c, files (fs_create dest (print OutNewline w1)) !! p
                                  = Some c) (partFiles t) contents).
  { rewrite Hpf in *. clear -Hall.
    pose proof (dest_not_part_file PARTS dest fileSize) as Hd.
    induction Hall as [|p c ps cs Hp Hall IH]; constructor.
    - simpl. rewrite lookup_insert_ne; [done|].
      intros ->. apply Hd, list_elem_of_here.
    - apply IH. intros Hin. apply Hd. by apply list_elem_of_further. }
  destruct (concat_loop_spec dest (partFiles t) contents
              (fs_create dest (print OutNewline w1)) [])
    as (w2 & Hc & Hd & Hgone & _).
  { rewrite Hpf. apply part_files_NoDup. }
  { rewrite Hpf. apply dest_not_part_file. }
  { exact Hall1. }
  { simpl. apply lookup_insert_eq. }
  simpl. unfold concatParts. rewrite Hc. simpl.
  split; [done|]. split; [by rewrite Hd|].
  intros k Hk. apply Hgone. rewrite Hpf. apply part_files_elem. by exists k.
Qed.

(** * Further properties of the scripts *)

(** ** The bytes of each stream land in its part file *)

Lemma step_partFiles PARTS e s : partFiles (step PARTS e s).1 = partFiles s.1.
Proof.
  destruct s as [t w]. unfold step. destruct e as [i chunk|i tr tot|i|i|]; simpl.
  - by destruct (tasks t !! i) as [[| |]|], (partFiles t !! i).
  - done.
  - by destruct (tasks t !! i) as [[| |]|].
  - by destruct (tasks t !! i) as [[| |]|].
  - destruct (interval t); [|done].
    by destruct (interval_callback_closure PARTS t w) as (_ & _ & ->).
Qed.

Lemma interval_callback_files PARTS t w :
  files (interval_callback PARTS t w).2 = files w.
Proof. unfold interval_callback. by destruct (foldl _ _ _). Qed.

(** One turn of the event loop, seen from stream [i] and its file [p]: while
    the stream is in flight the turn appends the bytes of the event and the
    stream ends on its own 'finish' or 'error'; once it has ended, neither its
    promise nor its file changes. *)
Lemma step_stream PARTS e t w (i : nat) p :
  NoDup (partFiles t) → partFiles t !! i = Some p →
  let s' := step PARTS e (t, w) in
  (tasks t !! i = Some Pending →
   files s'.2 !! p = (λ c, c ++ event_bytes i e) <$> files w !! p ∧
   (ends_stream i e = false → tasks s'.1 !! i = Some Pending) ∧
   (ends_stream i e = true → tasks s'.1 !! i ≠ Some Pending)) ∧
  (tasks t !! i ≠ Some Pending →
   files s'.2 !! p = files w !! p ∧ tasks s'.1 !! i ≠ Some Pending).
Proof.
  intros Hnd Hp. unfold step.
  assert (Hid : ∀ o : option (list Byte.byte), (λ c, c ++ []) <$> o = o).
  { intros [c|]; simpl; [by rewrite app_nil_r | done]. }
  destruct e as [j chunk|j tr tot|j|j|]; simpl.
  - destruct (decide (j = i)) as [->|Hne].
    + rewrite Hp. split.
      * intros Hi. rewrite Hi. simpl. rewrite lookup_alter_eq.
        split; [reflexivity|]. split; [done|]. intros; discriminate.
      * intros Hn. destruct (tasks t !! i) as [[| |]|] eqn:Hi; simpl;
          rewrite ?Hi; naive_solver.
    + assert (Hfile : ∀ q, partFiles t !! j = Some q →
                           alter (λ c, c ++ chunk) q (files w) !! p = files w !! p).
      { intros q Hq. apply lookup_alter_ne. intros ->.
        apply Hne. by eapply NoDup_lookup. }
      rewrite Hid.
      destruct (tasks t !! j) as [[| |]|], (partFiles t !! j) as [q|] eqn:Hq;
        simpl; rewrite ?(Hfile q) by done; naive_solver.
  - rewrite Hid. naive_solver.
  - rewrite Hid. destruct (decide (j = i)) as [->|Hne].
    + rewrite bool_decide_eq_true_2 by done.
      destruct (tasks t !! i) as [[| |]|] eqn:Hi; simpl; rewrite ?Hi;
        try naive_solver.
      split; [|naive_solver]. intros _. split; [done|]. split; [done|].
      intros _. rewrite list_lookup_insert_eq; [done|].
      by eapply lookup_lt_Some.
    + rewrite bool_decide_eq_false_2 by done.
      destruct (tasks t !! j) as [[| |]|]; simpl;
        rewrite ?list_lookup_insert_ne by done; naive_solver.
  - rewrite Hid. destruct (decide (j = i)) as [->|Hne].
    + rewrite bool_decide_eq_true_2 by done.
      destruct (tasks t !! i) as [[| |]|] eqn:Hi; simpl; rewrite ?Hi;
        try naive_solver.
      split; [|naive_solver]. intros _. split; [done|]. split; [done|].
      intros _. rewrite list_lookup_insert_eq; [done|].
      by eapply lookup_lt_Some.
    + rewrite bool_decide_eq_false_2 by done.
      destruct (tasks t !! j) as [[| |]|]; simpl;
        rewrite ?list_lookup_insert_ne by done; naive_solver.
  - rewrite Hid. destruct (interval t); [|naive_solver].
    rewrite interval_callback_files.
    destruct (interval_callback_closure PARTS t w) as (-> & _). naive_solver.
Qed.

Lemma event_loop_partFiles PARTS sched : ∀ s,
  partFiles (event_loop PARTS sched s).1 = partFiles s.1.
Proof.
  unfold event_loop. induction sched as [|e sched IH]; intros s; [done|].
  cbn [foldl]. rewrite IH. apply step_partFiles.
Qed.

Lemma event_loop_stream PARTS sched (i : nat) p : ∀ t w,
  NoDup (partFiles t) → partFiles t !! i = Some p →
  (tasks t !! i = Some Pending →
   files (event_loop PARTS sched (t, w)).2 !! p
   = (λ c, c ++ received i sched) <$> files w !! p) ∧
  (tasks t !! i ≠ Some Pending →
   files (event_loop PARTS sched (t, w)).2 !! p = files w !! p).
Proof.
  induction sched as [|e sched IH]; intros t w Hnd Hp.
  - simpl. split; [|done]. intros _.
    destruct (files w !! p); simpl; [by rewrite app_nil_r | done].
  - unfold event_loop. cbn [foldl]. fold (event_loop PARTS sched (step PARTS e (t, w))).
    pose proof (step_stream PARTS e t w i p Hnd Hp) as Hs. cbv zeta in Hs.
    pose proof (step_partFiles PARTS e (t, w)) as Hpf.
    destruct (step PARTS e (t, w)) as [t' w'] eqn:Hstep.
    cbn [fst snd] in Hs, Hpf. destruct Hs as [Hpend Hdone].
    destruct (IH t' w') as [IHpend IHdone]; [by rewrite Hpf | by rewrite Hpf |].
    split.
    + intros Hi. destruct (Hpend Hi) as (Hf & Hstay & Hend).
      cbn [received]. destruct (ends_stream i e) eqn:He.
      * rewrite IHdone by auto. rewrite Hf.
        assert (event_bytes i e = []) as ->; [|done].
        destruct e as [j c'|j tr tot|j|j|]; done.
      * rewrite IHpend by auto. rewrite Hf.
        destruct (files w !! p); simpl; [|done].
        by rewrite (assoc_L (++)).
    + intros Hi. destruct (Hdone Hi) as [Hf Hn].
      rewrite IHdone by done. exact Hf.
Qed.

(** In a transfer started in [w], after any events, the file of part [i]
    holds what stream [i] has delivered. *)
Lemma part_file_received PARTS url dest fileSize pre w (i : nat) :
  (i < PARTS)%nat →
  files (event_loop PARTS pre
           (new_transfer PARTS dest fileSize,
            spawn_parts url (part_calls PARTS dest fileSize) w)).2
    !! part_file dest i
  = Some (received i pre).
Proof.
  intros Hi.
  destruct (event_loop_stream PARTS pre i (part_file dest i)
              (new_transfer PARTS dest fileSize)
              (spawn_parts url (part_calls PARTS dest fileSize) w)) as [Hpend _].
  { apply part_files_NoDup. }
  { by apply part_files_lookup. }
  rewrite Hpend by (by apply lookup_replicate_2).
  destruct (spawn_parts_spec url (part_calls PARTS dest fileSize) w) as (Hnew & _).
  rewrite Hnew; [done|]. apply part_files_elem. by exists i.
Qed.

Lemma received_app (i : nat) pre rest :
  received i (pre ++ rest) = received i pre ∨
  Forall (λ e, ends_stream i e = false) pre.
Proof.
  induction pre as [|e pre IH]; [by right|].
  simpl. destruct (ends_stream i e) eqn:He; [by left|].
  destruct IH as [->|IH]; [by left|]. right. by constructor.
Qed.

Lemma event_loop_pending PARTS pre (i : nat) p : ∀ t w,
  NoDup (partFiles t) → partFiles t !! i = Some p →
  Forall (λ e, ends_stream i e = false) pre →
  tasks t !! i = Some Pending →
  tasks (event_loop PARTS pre (t, w)).1 !! i = Some Pending.
Proof.
  induction pre as [|e pre IH]; intros t w Hnd Hp Hall Hi; [done|].
  apply Forall_cons in Hall as [He Hall].
  unfold event_loop. cbn [foldl]. fold (event_loop PARTS pre (step PARTS e (t, w))).
  pose proof (step_stream PARTS e t w i p Hnd Hp) as Hs. cbv zeta in Hs.
  pose proof (step_partFiles PARTS e (t, w)) as Hpf.
  destruct (step PARTS e (t, w)) as [t' w'].
  cbn [fst snd] in Hs, Hpf. destruct Hs as [Hpend _].
  destruct (Hpend Hi) as (_ & Hstay & _).
  apply IH; [by rewrite Hpf | by rewrite Hpf | done | by apply Hstay].
Qed.

(** ** The monitor reports the bytes received *)


(** ** C6: the progress events of a completed transfer *)

Lemma omap_ext_in {A B} (f g : A → option B) (l : list A) :
  (∀ x, x ∈ l → f x = g x) → omap f l = omap g l.
Proof.
  induction l as [|x l IH]; intros H; [done|].
  csimpl. rewrite (H x) by apply list_elem_of_here.
  rewrite IH; [done|]. intros y Hy. apply H. by apply list_elem_of_further.
Qed.

Lemma tick_sums_snoc PARTS (pre : list event) (e : event) :
  tick_sums PARTS (pre ++ [e])
  = tick_sums PARTS pre ++ (if is_tick e then [bytes_received PARTS pre] else []).
Proof.
  unfold tick_sums. rewrite length_app. simpl.
  rewrite seq_app, omap_app. simpl. f_equal.
  - apply omap_ext_in. intros k Hk. apply elem_of_seq in Hk.
    rewrite lookup_app_l by lia. rewrite take_app_le by lia. done.
  - rewrite list_lookup_middle by done. rewrite take_app_length.
    by destruct e.
Qed.

Lemma tick_sums_length PARTS (pre : list event) :
  length (tick_sums PARTS pre) = length (filter (λ e, is_tick e = true) pre).
Proof.
  induction pre as [|e pre IH] using rev_ind; [done|].
  rewrite tick_sums_snoc, filter_app, !length_app, IH. f_equal.
  destruct e; done.
Qed.

(** Only a tick prints. *)
Lemma step_stdout PARTS e s :
  is_tick e = false → stdout (step PARTS e s).2 = stdout s.2.
Proof.
  destruct s as [t w]. unfold step. destruct e as [i chunk|i tr tot|i|i|]; simpl;
    intros He; try done.
  - by destruct (tasks t !! i) as [[| |]|], (partFiles t !! i).
  - by destruct (tasks t !! i) as [[| |]|].
  - by destruct (tasks t !! i) as [[| |]|].
Qed.

(** A tick of a running transfer prints the bytes received so far. *)
Lemma tick_stdout PARTS url dest fileSize (pre : list event) (w : world) :
  let s := event_loop PARTS pre
             (new_transfer PARTS dest fileSize,
              spawn_parts url (part_calls PARTS dest fileSize) w) in
  stdout (step PARTS Tick s).2
  = stdout s.2 ++ [OutProgress (bytes_received PARTS pre) fileSize].
Proof.
  intros s.
  pose proof (transfer_inv_event_loop PARTS dest fileSize w pre _
                (transfer_inv_init PARTS url dest fileSize w)) as Hinv.
  pose proof (event_loop_interval PARTS pre
                (new_transfer PARTS dest fileSize,
                 spawn_parts url (part_calls PARTS dest fileSize) w)) as Hint.
  assert (Hfiles : ∀ i : nat, (i < PARTS)%nat →
            files s.2 !! part_file dest i = Some (received i pre))
    by (intros i Hi; by apply part_file_received).
  fold s in Hinv, Hint. destruct s as [t w1].
  destruct Hinv as (Hpf & Htot & _ & Hld & _). simpl in *. rewrite Hint.
  destruct (interval_callback_spec PARTS t w1 Hld) as (d' & -> & Hlen & Hd).
  simpl. rewrite Htot. do 3 f_equal. unfold bytes_received. f_equal.
  apply list_eq. intros i. rewrite Hd.
  change (map (λ i : nat, Z.of_nat (length (received i pre))) (seq 0 PARTS))
    with ((λ i : nat, Z.of_nat (length (received i pre))) <$> seq 0 PARTS).
  rewrite list_lookup_fmap.
  destruct (decide (i < PARTS)%nat) as [Hi|Hi].
  - rewrite lookup_seq_lt by done. simpl.
    destruct (lookup_lt_is_Some_2 (downloaded t) i ltac:(lia)) as [x ->].
    simpl. unfold observed. rewrite Hpf, part_files_lookup by done.
    by rewrite Hfiles.
  - rewrite (lookup_ge_None_2 (downloaded t)) by lia.
    by rewrite lookup_seq_ge by lia.
Qed.

(** What a running transfer has printed: one line per tick, with the bytes
    received when it fired. *)
Lemma event_loop_stdout PARTS url dest fileSize (pre : list event) (w : world) :
  stdout (event_loop PARTS pre
            (new_transfer PARTS dest fileSize,
             spawn_parts url (part_calls PARTS dest fileSize) w)).2
  = stdout w ++ map (λ x, OutProgress x fileSize) (tick_sums PARTS pre).
Proof.
  induction pre as [|e pre IH] using rev_ind.
  - simpl. rewrite app_nil_r.
    by destruct (spawn_parts_spec url (part_calls PARTS dest fileSize) w)
      as (_ & _ & -> & _).
  - rewrite event_loop_app, tick_sums_snoc, map_app, (assoc_L (++)), <- IH.
    change (event_loop PARTS [e] ?s) with (step PARTS e s).
    destruct (is_tick e) eqn:He.
    + destruct e; try done. apply tick_stdout.
    + simpl. rewrite app_nil_r. by apply step_stdout.
Qed.

(** ** The prefix of the schedule that a call awaits *)

Lemma await_all_last PARTS sched : ∀ s r s' rest,
  await_all PARTS sched s = (r, s', rest) →
  promise_all (tasks s.1) = StillPending → r ≠ StillPending →
  ∃ pre' e, sched = pre' ++ e :: rest ∧
            s' = step PARTS e (event_loop PARTS pre' s) ∧
            promise_all (tasks (event_loop PARTS pre' s).1) = StillPending.
Proof.
  induction sched as [|e sched IH]; intros s r s' rest Hrun Hp Hr;
    simpl in Hrun; rewrite Hp in Hrun.
  - injection Hrun as <- _ _. done.
  - destruct (promise_all (tasks (step PARTS e s).1)) eqn:Hp'.
    + rewrite await_all_settled in Hrun by congruence.
      injection Hrun as <- <- <-. by exists [], e.
    + rewrite await_all_settled in Hrun by congruence.
      injection Hrun as <- <- <-. by exists [], e.
    + destruct (IH _ _ _ _ Hrun Hp' Hr) as (pre' & e' & -> & -> & Hpend).
      by exists (e :: pre'), e'.
Qed.

(** The joined promise resolves on the 'finish' of a segment in flight. *)
Lemma step_resolves PARTS e t w :
  promise_all (tasks t) = StillPending →
  promise_all (tasks (step PARTS e (t, w)).1) = AllResolved →
  ∃ j : nat, e = Finish j ∧ tasks t !! j = Some Pending.
Proof.
  intros Hp. unfold step. destruct e as [i chunk|i tr tot|i|i|]; simpl.
  - destruct (tasks t !! i) as [[| |]|], (partFiles t !! i); simpl; congruence.
  - congruence.
  - destruct (tasks t !! i) as [[| |]|] eqn:Hi; simpl; try congruence.
    intros _. by exists i.
  - destruct (tasks t !! i) as [[| |]|] eqn:Hi; simpl; try congruence.
    unfold promise_all. rewrite bool_decide_eq_true_2; [done|].
    apply list_elem_of_lookup. exists i. apply list_lookup_insert_eq.
    by eapply lookup_lt_Some.
  - destruct (interval t); [|simpl; congruence].
    destruct (interval_callback_closure PARTS t w) as (-> & _). congruence.
Qed.

Lemma step_tasks PARTS e t w (i : nat) :
  (tasks (step PARTS e (t, w)).1 !! i = Some Pending →
   tasks t !! i = Some Pending ∧ ends_stream i e = false) ∧
  (tasks (step PARTS e (t, w)).1 !! i = Some Resolved →
   tasks t !! i = Some Resolved ∨ e = Finish i).
Proof.
  assert (Hsame : ∀ j : nat, tasks t !! j ≠ Some Pending →
            (tasks t !! i = Some Pending →
             tasks t !! i = Some Pending ∧ bool_decide (j = i) = false) ∧
            (tasks t !! i = Some Resolved →
             tasks t !! i = Some Resolved ∨ Finish j = Finish i)).
  { intros j Hj. split; [|by left]. intros Hi. split; [done|].
    apply bool_decide_eq_false_2. congruence. }
  unfold step. destruct e as [j chunk|j tr tot|j|j|]; simpl.
  - destruct (tasks t !! j) as [[| |]|], (partFiles t !! j); simpl; auto.
  - auto.
  - destruct (tasks t !! j) as [[| |]|] eqn:Hj; simpl;
      try (apply Hsame; congruence).
    destruct (decide (i = j)) as [->|Hne].
    + rewrite list_lookup_insert_eq by (by eapply lookup_lt_Some).
      split; [done|]. intros _. by right.
    + rewrite list_lookup_insert_ne by done.
      split; [|auto]. intros Hi. split; [done|].
      by rewrite bool_decide_eq_false_2.
  - destruct (tasks t !! j) as [[| |]|] eqn:Hj; simpl;
      try (split; [apply Hsame; congruence | by left]).
    destruct (decide (i = j)) as [->|Hne].
    + rewrite list_lookup_insert_eq by (by eapply lookup_lt_Some).
      split; done.
    + rewrite list_lookup_insert_ne by done.
      split; [|auto]. intros Hi. split; [done|].
      by rewrite bool_decide_eq_false_2.
  - destruct (interval t); [|by auto].
    destruct (interval_callback_closure PARTS t w) as (-> & _). by auto.
Qed.

Lemma event_loop_tasks PARTS pre (i : nat) : ∀ t w,
  (tasks (event_loop PARTS pre (t, w)).1 !! i = Some Pending →
   Forall (λ e, ends_stream i e = false) pre) ∧
  (tasks (event_loop PARTS pre (t, w)).1 !! i = Some Resolved →
   tasks t !! i = Some Resolved ∨ Finish i ∈ pre).
Proof.
  induction pre as [|e pre IH] using rev_ind; intros t w.
  - split; [done|]. by left.
  - rewrite event_loop_app.
    change (event_loop PARTS [e] ?s) with (step PARTS e s).
    destruct (event_loop PARTS pre (t, w)) as [t' w'] eqn:Hloop.
    destruct (IH t w) as [IHp IHr]. rewrite Hloop in IHp, IHr. simpl in IHp, IHr.
    destruct (step_tasks PARTS e t' w' i) as (Hp & Hr).
    split.
    + intros [Hi He]%Hp. apply Forall_app. split; [by apply IHp|].
      by apply Forall_singleton.
    + intros [Hi| ->]%Hr.
      * destruct (IHr Hi) as [?|?]; [by left|]. right.
        apply elem_of_app. by left.
      * right. apply elem_of_app. right. apply list_elem_of_here.
Qed.

Lemma progress_events_lines (fileSize : Z) (sums : list Z) :
  progress_events (map (λ x, OutProgress x fileSize) sums)
  = map (λ x, (x, fileSize)) sums.
Proof.
  induction sums as [|x l IH]; [done|].
  unfold progress_events in *. simpl. f_equal. apply IH.
Qed.

Lemma progress_lines_inj (fileSize : Z) (l1 l2 : list Z) :
  map (λ x, OutProgress x fileSize) l1 = map (λ x, OutProgress x fileSize) l2 →
  l1 = l2.
Proof.
  revert l2. induction l1 as [|x l1 IH]; intros [|y l2] Heq; simpl in Heq;
    try done.
  injection Heq as -> Heq. f_equal. by apply IH.
Qed.

(** C6, as amended.  For every multi-part transfer that completes
    successfully, let [pre] be the events up to the 'finish' of the last
    segment: the call awaits exactly these, and every segment finishes in
    them.  What is printed during the call is one progress line per tick of
    [pre], in order, each with the bytes the streams had delivered when the
    tick fired and with [bytesTotal = fileSize], followed by a newline and
    nothing else: no final event is emitted after the monitor stops and the
    parts are aggregated, so the last event, if there is one, reports what
    the last tick saw, and a transfer without a tick reports nothing.  No
    two consecutive events show [bytesTransferred] decreasing.  On return the
    timer is cleared and later events print nothing. *)
Theorem progress_of_completed_transfer (PARTS : nat) (url dest : string)
    (fileSize : Z) (sched : list event) (w : world) :
  let out := multiPartDownload PARTS url dest fileSize sched w in
  result out = Returned →
  ∃ pre,
    sched = pre ++ unprocessed out ∧
    ((PARTS = 0%nat ∧ pre = []) ∨
     (∃ pre' (j : nat), pre = pre' ++ [Finish j] ∧ (j < PARTS)%nat ∧
                        Finish j ∉ pre')) ∧
    (∀ i : nat, (i < PARTS)%nat → Finish i ∈ pre) ∧
    stdout (after out)
    = stdout w ++ map (λ x, OutProgress x fileSize) (tick_sums PARTS pre)
        ++ [OutNewline] ∧
    progress_events (stdout (after out))
    = progress_events (stdout w) ++ map (λ x, (x, fileSize)) (tick_sums PARTS pre) ∧
    length (tick_sums PARTS pre) = length (filter (λ e, is_tick e = true) pre) ∧
    Sorted Z.le (tick_sums PARTS pre) ∧
    ∃ t, monitor out = Some t ∧ interval t = false ∧
         ∀ evs, event_loop PARTS evs (t, after out) = (t, after out).
Proof.
  intros out Hret.
  set (s0 := (new_transfer PARTS dest fileSize,
              spawn_parts url (part_calls PARTS dest fileSize) w)).
  destruct (await_all PARTS sched s0) as [[r [t w1]] rest] eqn:Hrun.
  assert (Hout : r = AllResolved ∧ unprocessed out = rest ∧
                 monitor out = Some (clearInterval t) ∧
                 stdout (after out) = stdout w1 ++ [OutNewline]).
  { revert Hret. unfold out, multiPartDownload. fold s0. rewrite Hrun.
    destruct r; simpl; try done.
    destruct (concatParts dest (partFiles t) (print OutNewline w1))
      as [r w2] eqn:Hc.
    simpl. intros _. repeat split.
    apply (f_equal (λ x, stdout x.2)) in Hc. simpl in Hc. rewrite <- Hc.
    unfold concatParts. by rewrite concat_loop_stdout. }
  destruct Hout as (-> & Hrest & Hmon & Hafter).
  pose proof Hrun as Hdec.
  apply await_all_decompose in Hdec as (pre & Hsched & Hs & Hall).
  simpl in Hall. symmetry in Hall.
  pose proof (transfer_inv_event_loop PARTS dest fileSize w pre s0
                (transfer_inv_init PARTS url dest fileSize w)) as Hinv.
  rewrite <- Hs in Hinv.
  destruct Hinv as (_ & _ & Hlen & _ & _ & _ & _ & sums & Hsums & Hsort & _).
  simpl in Hlen, Hsums.
  assert (Hprinted : stdout w1
            = stdout w ++ map (λ x, OutProgress x fileSize) (tick_sums PARTS pre)).
  { change (stdout w1) with (stdout (t, w1).2). rewrite Hs.
    apply event_loop_stdout. }
  exists pre. split; [by rewrite Hrest|].
  split; [|split; [|split; [|split; [|split; [|split]]]]].
  - destruct PARTS as [|n].
    + left. split; [done|].
      rewrite await_all_settled in Hrun by done.
      injection Hrun as _ _ Hr. subst rest.
      apply (f_equal length) in Hsched. rewrite length_app in Hsched.
      destruct pre; [done|]. simpl in Hsched. lia.
    + right.
      assert (Hpend0 : promise_all (tasks s0.1) = StillPending).
      { unfold s0, new_transfer, promise_all. cbn [fst tasks].
        rewrite bool_decide_eq_false_2 by (by intros [? _]%elem_of_replicate).
        rewrite bool_decide_eq_true_2; [done|].
        apply elem_of_replicate. split; [done|lia]. }
      destruct (await_all_last _ _ _ _ _ _ Hrun Hpend0)
        as (pre' & e & Hsched' & Hs' & Hpend); [done|].
      assert (pre = pre' ++ [e]) as ->.
      { apply (app_inv_tail rest). rewrite <- Hsched, Hsched'.
        by rewrite <- (assoc_L (++)). }
      destruct (event_loop (S n) pre' s0) as [t' w'] eqn:Hloop.
      destruct (step_resolves (S n) e t' w' Hpend) as (j & -> & Hj).
      { by rewrite <- Hs'. }
      exists pre', j. split; [done|]. split.
      * pose proof (transfer_inv_event_loop (S n) dest fileSize w pre' s0
                      (transfer_inv_init (S n) url dest fileSize w)) as Hinv'.
        rewrite Hloop in Hinv'. destruct Hinv' as (_ & _ & Hlen' & _).
        simpl in Hlen'. rewrite <- Hlen'. by eapply lookup_lt_Some.
      * destruct (event_loop_tasks (S n) pre' j (new_transfer (S n) dest fileSize)
                    (spawn_parts url (part_calls (S n) dest fileSize) w))
          as [Hp _].
        fold s0 in Hp. rewrite Hloop in Hp. specialize (Hp Hj).
        intros Hin. rewrite Forall_forall in Hp. specialize (Hp _ Hin).
        simpl in Hp. by rewrite bool_decide_eq_true_2 in Hp.
  - intros i Hi.
    destruct (event_loop_tasks PARTS pre i (new_transfer PARTS dest fileSize)
                (spawn_parts url (part_calls PARTS dest fileSize) w))
      as [_ Hr].
    fold s0 in Hr. rewrite <- Hs in Hr. simpl in Hr.
    destruct Hr as [Hr|Hr]; [| |done].
    + destruct (lookup_lt_is_Some_2 (tasks t) i ltac:(lia)) as [[| |] Hti].
      * exfalso. apply (promise_all_resolved _ Hall).
        apply list_elem_of_lookup. by exists i.
      * done.
      * exfalso. unfold promise_all in Hall.
        rewrite bool_decide_eq_true_2 in Hall; [done|].
        apply list_elem_of_lookup. by exists i.
    + simpl in Hr. rewrite lookup_replicate_2 in Hr by done. done.
  - rewrite Hafter, Hprinted. by rewrite <- (assoc_L (++)).
  - rewrite Hafter, Hprinted. unfold progress_events.
    rewrite !omap_app. simpl. rewrite app_nil_r. f_equal.
    apply progress_events_lines.
  - apply tick_sums_length.
  - rewrite Hsums in Hprinted. apply app_inv_head in Hprinted.
    by apply progress_lines_inj in Hprinted as <-.
  - exists (clearInterval t). split; [exact Hmon|]. split; [done|].
    intros evs. apply event_loop_idle; [done|].
    simpl. by apply promise_all_resolved.
Qed.

(** The amended C6 on a run with one tick before the four streams finish:
    the only progress line is the one of that tick, which saw three bytes. *)
Lemma progress_of_completed_transfer_witness :
  let out := multiPartDownload PARTS example_url example_dest 16000000
               (stream_events early_tick_network) empty_world in
  result out = Returned ∧
  stdout (after out) = [OutProgress 3 16000000; OutNewline] ∧
  ∃ pre,
    stream_events early_tick_network = pre ++ unprocessed out ∧
    stdout (after out)
    = stdout empty_world
        ++ map (λ x, OutProgress x 16000000) (tick_sums PARTS pre) ++ [OutNewline] ∧
    Sorted Z.le (tick_sums PARTS pre).
Proof.
  split; [vm_compute; reflexivity|]. split; [vm_compute; reflexivity|].
  destruct (progress_of_completed_transfer PARTS example_url example_dest 16000000
              (stream_events early_tick_network) empty_world)
    as (pre & Hsched & _ & _ & Hout & _ & _ & Hsort & _).
  { vm_compute. reflexivity. }
  exists pre. split; [exact Hsched|]. split; [exact Hout|exact Hsort].
Defined.

(** C6 as stated fails on the code.  A transfer of 16,000,000 bytes completes
    successfully and its only progress event is (3, 16000000), printed by the
    tick; nothing reports [bytesTransferred = bytesTotal].  The same holds
    when every part receives exactly its range: eight bytes in four parts,
    one tick after the first two parts, and the only event is (4, 8). *)
Lemma no_final_event_counterexample :
  (let out := downloadWithResume PARTS example_url example_dest early_tick_network
                empty_world in
   result out = Returned ∧
   stdout (after out) = [LogMultiPart; OutProgress 3 16000000; OutNewline] ∧
   last (progress_events (stdout (after out))) = Some (3, 16000000)) ∧
  (let two := [Byte.x00; Byte.x01] in
   let out := multiPartDownload PARTS example_url example_dest 8
                [Data 0 two; Data 1 two; Tick; Data 2 two; Data 3 two;
                 Finish 0; Finish 1; Finish 2; Finish 3] empty_world in
   ranges 4 8 = [(0, 1); (2, 3); (4, 5); (6, 7)] ∧
   result out = Returned ∧
   files (after out) !! example_dest = Some (two ++ two ++ two ++ two) ∧
   progress_events (stdout (after out)) = [(4, 8)]).
Proof. vm_compute. repeat split; reflexivity. Qed.


(** ** What a completed transfer leaves on disk *)

Lemma success_content PARTS url dest fileSize sched w :
  let out := multiPartDownload PARTS url dest fileSize sched w in
  result out = Returned →
  files (after out) !! dest
  = Some (concat (map (λ i, received i sched) (seq 0 PARTS))) ∧
  (∀ k : nat, (k < PARTS)%nat → files (after out) !! part_file dest k = None) ∧
  (∀ p, p ≠ dest → (∀ k : nat, (k < PARTS)%nat → p ≠ part_file dest k) →
        files (after out) !! p = files w !! p).
Proof.
  intros out Hret.
  destruct (success_state PARTS url dest fileSize sched w Hret)
    as (pre & t & w1 & Hsched & Hs & Hall & _ & Hc).
  fold out in Hsched, Hc.
  set (s0 := (new_transfer PARTS dest fileSize,
              spawn_parts url (part_calls PARTS dest fileSize) w)) in *.
  pose proof (transfer_inv_event_loop PARTS dest fileSize w pre s0
                (transfer_inv_init PARTS url dest fileSize w)) as Hinv.
  rewrite <- Hs in Hinv.
  destruct Hinv as (Hpf & _ & Hlt & _ & _ & _ & Hoth & _). simpl in Hpf, Hlt, Hoth.
  assert (Hrecv : ∀ i : nat, (i < PARTS)%nat → received i sched = received i pre).
  { intros i Hi. rewrite Hsched.
    destruct (received_app i pre (unprocessed out)) as [->|Hno]; [done|].
    exfalso. apply promise_all_resolved in Hall. apply Hall.
    apply list_elem_of_lookup. exists i.
    change (tasks t) with (tasks (t, w1).1). rewrite Hs.
    apply (event_loop_pending PARTS pre i (part_file dest i));
      [apply part_files_NoDup | by apply part_files_lookup | done |].
    by apply lookup_replicate_2. }
  assert (Hfiles : Forall2 (λ p c, files (fs_create dest (print OutNewline w1)) !! p
                                   = Some c)
                     (partFiles t) (map (λ i, received i pre) (seq 0 PARTS))).
  { rewrite Hpf, part_files_unfold.
    apply Forall2_same_length_lookup_2; [by rewrite !length_map|].
    intros i p c Hp Hcont.
    rewrite list_lookup_fmap in Hp.
    change (map (λ i : nat, received i pre) (seq 0 PARTS))
      with ((λ i : nat, received i pre) <$> seq 0 PARTS) in Hcont.
    rewrite list_lookup_fmap in Hcont.
    destruct (seq 0 PARTS !! i) as [k|] eqn:Hk; [|done].
    apply lookup_seq in Hk as [-> Hi]. simpl in *.
    injection Hp as <-. injection Hcont as <-.
    rewrite lookup_insert_ne by (apply not_eq_sym, part_file_ne_dest).
    change (files w1) with (files (t, w1).2). rewrite Hs.
    by apply part_file_received. }
  destruct (concat_loop_spec dest (partFiles t) _ _ [] ltac:(rewrite Hpf; apply part_files_NoDup)
              ltac:(rewrite Hpf; apply dest_not_part_file) Hfiles)
    as (w2 & Hrun & Hd & Hgone & Hother & _).
  { simpl. apply lookup_insert_eq. }
  unfold concatParts in Hc. rewrite Hrun in Hc. injection Hc as _ Hw.
  rewrite Hw. split; [|split].
  - rewrite Hd. simpl. f_equal. f_equal.
    apply map_ext_in. intros i Hi%in_seq. symmetry. apply Hrecv. lia.
  - intros k Hk. apply Hgone. rewrite Hpf. apply part_files_elem. by exists k.
  - intros p Hp Hnp.
    assert (Hnot : p ∉ partFiles t).
    { rewrite Hpf. intros (k & Hk & ->)%part_files_elem. by apply (Hnp k). }
    rewrite Hother by done. simpl. rewrite lookup_insert_ne by done.
    by apply Hoth.
Qed.

Ltac solve_elem_of :=
  repeat first [apply list_elem_of_here | apply list_elem_of_further].

Ltac solve_not_elem_of :=
  let Hin := fresh "Hin" in
  intros Hin;
  repeat (apply elem_of_cons in Hin as [Hin|Hin]; [discriminate Hin|]);
  by apply not_elem_of_nil in Hin.

(** X2.  When a multi-part transfer completes, the destination holds, for
    the parts in index order, the bytes each stream delivered up to its
    'finish', whatever the order in which chunks of different streams
    arrived and streams finished; the part files are gone and no other file
    has changed. *)
Theorem completed_transfer_content (PARTS : nat) (url dest : string)
    (fileSize : Z) (sched : list event) (w : world) :
  let out := multiPartDownload PARTS url dest fileSize sched w in
  result out = Returned →
  files (after out) !! dest
  = Some (concat (map (λ i, received i sched) (seq 0 PARTS))) ∧
  (∀ k : nat, (k < PARTS)%nat → files (after out) !! part_file dest k = None) ∧
  (∀ p, p ≠ dest → (∀ k : nat, (k < PARTS)%nat → p ≠ part_file dest k) →
        files (after out) !! p = files w !! p).
Proof. apply success_content. Qed.

Lemma completed_transfer_content_witness :
  let out := multiPartDownload PARTS example_url example_dest 8
               interleaved_schedule empty_world in
  result out = Returned ∧
  files (after out) !! example_dest
  = Some (concat (map (λ i, received i interleaved_schedule) (seq 0 PARTS))) ∧
  received 1 interleaved_schedule = [Byte.x02; Byte.x03].
Proof.
  intros out.
  assert (Hret : result out = Returned) by (vm_compute; reflexivity).
  split; [exact Hret|]. split; [|reflexivity].
  exact (proj1 (completed_transfer_content PARTS example_url example_dest 8
                  interleaved_schedule empty_world Hret)).
Defined.

(** X3.  A multi-part transfer reproduces the object.  If no stream fails,
    every stream finishes, and each stream delivers the bytes of the range
    assigned to its part, in chunks and in an interleaving of its own, then
    the call returns, the destination is the object byte for byte, and the
    part files are gone. *)
Theorem transfer_reproduces_object (PARTS : nat) (url dest : string)
    (obj : list Byte.byte) (sched : list event) (w : world) :
  (0 < PARTS)%nat →
  (∀ j, Error j ∉ sched) →
  (∀ i : nat, (i < PARTS)%nat → Finish i ∈ sched) →
  (∀ (i : nat) r, ranges PARTS (Z.of_nat (length obj)) !! i = Some r →
                  received i sched = range_bytes obj r) →
  let out := multiPartDownload PARTS url dest (Z.of_nat (length obj)) sched w in
  result out = Returned ∧
  files (after out) !! dest = Some obj ∧
  (∀ k : nat, (k < PARTS)%nat → files (after out) !! part_file dest k = None).
Proof.
  intros HP Herr Hfin Hrecv out.
  destruct (multiPartDownload_completes PARTS url dest (Z.of_nat (length obj))
              sched w Herr Hfin) as (Hret & _).
  destruct (success_content PARTS url dest (Z.of_nat (length obj)) sched w Hret)
    as (Hd & Hgone & _).
  split; [exact Hret|]. split; [|exact Hgone].
  fold out in Hd. rewrite Hd. f_equal.
  etrans; [|apply (range_bytes_concat PARTS obj HP)]. f_equal.
  rewrite ranges_unfold, map_map.
  apply map_ext_in. intros i Hi%in_seq.
  apply Hrecv. rewrite ranges_lookup by lia. reflexivity.
Qed.

Lemma transfer_reproduces_object_witness :
  let out := multiPartDownload PARTS example_url example_dest
               (Z.of_nat (length eight_bytes)) interleaved_schedule empty_world in
  result out = Returned ∧
  files (after out) !! example_dest = Some eight_bytes ∧
  (∀ k : nat, (k < PARTS)%nat →
              files (after out) !! part_file example_dest k = None).
Proof.
  apply (transfer_reproduces_object PARTS example_url example_dest eight_bytes
           interleaved_schedule empty_world).
  - unfold PARTS. lia.
  - intros j. unfold interleaved_schedule. solve_not_elem_of.
  - intros i Hi. unfold PARTS in Hi. unfold interleaved_schedule.
    destruct i as [|[|[|[|i]]]]; [solve_elem_of.. | lia].
  - intros i r Hr.
    destruct i as [|[|[|[|i]]]]; vm_compute in Hr; [| | | |discriminate Hr];
      injection Hr as <-; vm_compute; reflexivity.
Defined.

(** ** Aggregation that meets a missing part *)

Lemma concat_loop_app dest l1 l2 : ∀ w,
  concat_loop dest (l1 ++ l2) w
  = match concat_loop dest l1 w with
    | (Returned, w') => concat_loop dest l2 w'
    | r => r
    end.
Proof.
  induction l1 as [|p l1 IH]; intros w; simpl; [done|].
  destruct (files w !! p); [apply IH | done].
Qed.

(** X4.  When a part cannot be read (its file does not exist, or it was
    listed before and has been unlinked already), [concatParts] throws at that
    part.  The parts before it have been appended to the destination and
    unlinked, so their bytes survive only in the incomplete destination; the
    parts after it and all other files are untouched. *)
Theorem concatParts_missing_part (dest : string) (before : list string)
    (missing : string) (rest : list string)
    (contents : list (list Byte.byte)) (w : world) :
  NoDup before → dest ∉ before → missing ≠ dest →
  missing ∈ before ∨ files w !! missing = None →
  Forall2 (λ p c, files w !! p = Some c) before contents →
  ∃ w', concatParts dest (before ++ missing :: rest) w
        = (Threw (ReadFailed missing), w') ∧
        files w' !! dest = Some (concat contents) ∧
        (∀ p, p ∈ before → files w' !! p = None) ∧
        (∀ p, p ∉ before → p ≠ dest → files w' !! p = files w !! p).
Proof.
  intros Hnd Hdest Hne Hmiss Hall. unfold concatParts.
  assert (Hall1 : Forall2 (λ p c, files (fs_create dest w) !! p = Some c)
                    before contents).
  { clear Hnd Hmiss. induction Hall as [|p c ps cs Hp Hall IH]; constructor.
    - simpl. rewrite lookup_insert_ne; [done|].
      intros ->. apply Hdest, list_elem_of_here.
    - apply IH. intros Hin. apply Hdest. by apply list_elem_of_further. }
  destruct (concat_loop_spec dest before contents (fs_create dest w) []
              Hnd Hdest Hall1) as (w1 & Hrun & Hd & Hgone & Hother & _).
  { simpl. apply lookup_insert_eq. }
  rewrite concat_loop_app, Hrun. cbn [concat_loop].
  assert (Hnone : files w1 !! missing = None).
  { destruct (decide (missing ∈ before)) as [Hin|Hnin]; [by apply Hgone|].
    rewrite Hother by done. simpl. rewrite lookup_insert_ne by done.
    by destruct Hmiss. }
  rewrite Hnone. eexists. split; [reflexivity|]. simpl.
  split; [exact Hd|]. split; [exact Hgone|].
  intros p Hp Hpd. rewrite Hother by done. simpl.
  by rewrite lookup_insert_ne.
Qed.

Lemma concatParts_missing_part_witness :
  let w := {| files := {[ "v.part0" := [Byte.x00]; "v.part1" := [Byte.x01];
                          "v.part3" := [Byte.x03] ]};
              fsops := []; stdout := []; requests := [] |} in
  ∃ w', concatParts "v" (["v.part0"; "v.part1"] ++ "v.part2" :: ["v.part3"]) w
        = (Threw (ReadFailed "v.part2"), w') ∧
        files w' !! "v" = Some [Byte.x00; Byte.x01] ∧
        files w' !! "v.part0" = None ∧
        files w' !! "v.part3" = Some [Byte.x03].
Proof.
  intros w.
  destruct (concatParts_missing_part "v" ["v.part0"; "v.part1"] "v.part2"
              ["v.part3"] [[Byte.x00]; [Byte.x01]] w)
    as (w' & Hrun & Hd & Hgone & Hother).
  - apply (bool_decide_unpack _); vm_compute; exact I.
  - apply (bool_decide_unpack _); vm_compute; exact I.
  - discriminate.
  - right. reflexivity.
  - repeat constructor.
  - exists w'. split; [exact Hrun|]. split; [exact Hd|]. split.
    + apply Hgone. solve_elem_of.
    + rewrite Hother; [reflexivity| |discriminate].
      apply (bool_decide_unpack _); vm_compute; exact I.
Defined.

(** ** The single stream: what it leaves and what it prints *)

Lemma single_stream_loop_prefix dest pre tail : ∀ total w acc,
  Forall (λ e, ends_stream 0 e = false) pre →
  files w !! dest = Some acc →
  ∃ total' w' lines,
    single_stream_loop dest total (pre ++ tail) w
    = single_stream_loop dest total' tail w' ∧
    files w' !! dest = Some (acc ++ received 0 pre) ∧
    stdout w' = stdout w ++ lines ∧
    Forall progress_line lines.
Proof.
  induction pre as [|e pre IH]; intros total w acc Hall Hacc.
  - exists total, w, []. simpl. rewrite !app_nil_r. done.
  - apply Forall_cons in Hall as [He Hall].
    assert (Hskip : ∀ total1 w1 extra,
              files w1 !! dest = Some (acc ++ event_bytes 0 e) →
              stdout w1 = stdout w ++ extra → Forall progress_line extra →
              ∃ total' w' lines,
                single_stream_loop dest total1 (pre ++ tail) w1
                = single_stream_loop dest total' tail w' ∧
                files w' !! dest = Some (acc ++ received 0 (e :: pre)) ∧
                stdout w' = stdout w ++ lines ∧
                Forall progress_line lines).
    { intros total1 w1 extra Hf Hout Hextra.
      destruct (IH total1 w1 _ Hall Hf)
        as (total' & w' & lines & Hrun & Hf' & Hout' & Hlines).
      exists total', w', (extra ++ lines). split; [exact Hrun|]. split.
      { rewrite Hf'. cbn [received]. rewrite He. by rewrite (assoc_L (++)). }
      split; [by rewrite Hout', Hout, (assoc_L (++))|].
      by apply Forall_app. }
    assert (Hsame : event_bytes 0 e = [] → ∀ total1,
              ∃ total' w' lines,
                single_stream_loop dest total1 (pre ++ tail) w
                = single_stream_loop dest total' tail w' ∧
                files w' !! dest = Some (acc ++ received 0 (e :: pre)) ∧
                stdout w' = stdout w ++ lines ∧
                Forall progress_line lines).
    { intros Hnone total1.
      apply (Hskip total1 w []); [|by rewrite app_nil_r|done].
      by rewrite Hnone, app_nil_r. }
    destruct e as [[|j] chunk|[|j] tr tot|[|j]|[|j]|];
      cbn [app single_stream_loop]; try (by apply Hsame); try done.
    + apply (Hskip total _ []); [|by rewrite app_nil_r|done].
      simpl. by rewrite lookup_alter_eq, Hacc.
    + destruct (js_or tot total =? 0) eqn:Hz.
      * apply (Hskip _ _ [OutBytes tr]); simpl;
          [by rewrite Hacc, app_nil_r | done | by repeat constructor].
      * apply (Hskip _ _ [OutProgress tr (js_or tot total)]); simpl;
          [by rewrite Hacc, app_nil_r | done |].
        repeat constructor. simpl. by apply Z.eqb_neq.
Qed.

(** X5.  The single-stream download leaves in the destination exactly the
    bytes the stream delivered, on both of its exits.  When the stream
    finishes, the call returns after printing the final newline.  When the
    stream fails, the call throws, prints no newline, and the incomplete file
    stays at the destination path.  Events of other streams and timer ticks
    in between have no effect, and no other file changes. *)
Theorem single_stream_leaves_received_bytes (url dest : string)
    (fileSize : option jsnum) (pre rest : list event) (w : world) :
  Forall (λ e, ends_stream 0 e = false) pre →
  (let out := singleStream url dest fileSize (pre ++ Finish 0 :: rest) w in
   result out = Returned ∧
   files (after out) !! dest = Some (received 0 pre) ∧
   unprocessed out = rest ∧
   last (stdout (after out)) = Some OutNewline) ∧
  (let out := singleStream url dest fileSize (pre ++ Error 0 :: rest) w in
   result out = Threw StreamFailed ∧
   files (after out) !! dest = Some (received 0 pre) ∧
   unprocessed out = rest ∧
   ∃ lines, stdout (after out) = stdout w ++ lines ∧ OutNewline ∉ lines).
Proof.
  intros Hpre. unfold singleStream.
  set (w0 := fs_create dest (got url fallback_options w)).
  assert (Hw0 : files w0 !! dest = Some []) by (simpl; apply lookup_insert_eq).
  split.
  - destruct (single_stream_loop_prefix dest pre (Finish 0 :: rest)
                (or_zero fileSize) w0 [] Hpre Hw0)
      as (total' & w' & lines & -> & Hf & Hout & _).
    simpl. split; [done|]. split; [exact Hf|]. split; [done|].
    by rewrite last_snoc.
  - destruct (single_stream_loop_prefix dest pre (Error 0 :: rest)
                (or_zero fileSize) w0 [] Hpre Hw0)
      as (total' & w' & lines & -> & Hf & Hout & Hlines).
    simpl. split; [done|]. split; [exact Hf|]. split; [done|].
    exists lines. split; [exact Hout|].
    intros Hin. rewrite Forall_forall in Hlines. by apply Hlines in Hin.
Qed.

Lemma single_stream_leaves_received_bytes_witness :
  let pre := [Data 0 three_bytes; Tick; Data 1 [Byte.xff];
              DownloadProgress 0 3 None; Data 0 [Byte.x00]] in
  let out := singleStream example_url example_dest None
               (pre ++ Error 0 :: [Data 0 [Byte.x01]]) empty_world in
  result out = Threw StreamFailed ∧
  files (after out) !! example_dest = Some (three_bytes ++ [Byte.x00]) ∧
  stdout (after out) = [OutBytes 3].
Proof.
  intros pre out.
  destruct (single_stream_leaves_received_bytes example_url example_dest None
              pre [Data 0 [Byte.x01]] empty_world) as [_ Hfail].
  { repeat constructor. }
  destruct Hfail as (Hr & Hf & _).
  split; [exact Hr|]. split; [exact Hf|]. reflexivity.
Defined.

Lemma single_stream_loop_lines dest sched : ∀ total w,
  ∃ lines, stdout (after (single_stream_loop dest total sched w))
           = stdout w ++ lines ∧
           Forall (λ o, progress_line o ∨ o = OutNewline) lines.
Proof.
  induction sched as [|e sched IH]; intros total w.
  - exists []. simpl. by rewrite app_nil_r.
  - assert (Hskip : ∀ total1 w1 extra,
              stdout w1 = stdout w ++ extra →
              Forall (λ o, progress_line o ∨ o = OutNewline) extra →
              ∃ lines, stdout (after (single_stream_loop dest total1 sched w1))
                       = stdout w ++ lines ∧
                       Forall (λ o, progress_line o ∨ o = OutNewline) lines).
    { intros total1 w1 extra Hout Hextra.
      destruct (IH total1 w1) as (lines & Hl & Hall).
      exists (extra ++ lines). split; [by rewrite Hl, Hout, (assoc_L (++))|].
      by apply Forall_app. }
    assert (Hsame : ∀ total1,
              ∃ lines, stdout (after (single_stream_loop dest total1 sched w))
                       = stdout w ++ lines ∧
                       Forall (λ o, progress_line o ∨ o = OutNewline) lines).
    { intros total1. apply (Hskip total1 w []); [by rewrite app_nil_r | done]. }
    destruct e as [[|j] chunk|[|j] tr tot|[|j]|[|j]|];
      cbn [single_stream_loop]; try (by apply Hsame).
    + apply (Hskip total (fs_write dest chunk w) []);
        [simpl; by rewrite app_nil_r | done].
    + destruct (js_or tot total =? 0) eqn:Hz.
      * apply (Hskip _ _ [OutBytes tr]); [done|].
        apply Forall_singleton. by left.
      * apply (Hskip _ _ [OutProgress tr (js_or tot total)]); [done|].
        apply Forall_singleton. left. simpl. by apply Z.eqb_neq.
    + exists [OutNewline]. split; [done|]. apply Forall_singleton. by right.
    + exists []. simpl. by rewrite app_nil_r.
Qed.

Lemma multiPartDownload_stdout PARTS url dest fileSize sched w :
  ∃ sums tail,
    stdout (after (multiPartDownload PARTS url dest fileSize sched w))
    = stdout w ++ map (λ x, OutProgress x fileSize) sums ++ tail ∧
    (tail = [] ∨ tail = [OutNewline]).
Proof.
  unfold multiPartDownload.
  destruct (await_all PARTS sched _) as [[r [t w1]] rest] eqn:Hrun.
  apply await_all_decompose in Hrun as (pre & _ & Hs & _).
  pose proof (transfer_inv_event_loop PARTS dest fileSize w pre _
                (transfer_inv_init PARTS url dest fileSize w)) as Hinv.
  rewrite <- Hs in Hinv.
  destruct Hinv as (_ & _ & _ & _ & _ & _ & _ & sums & Hout & _).
  simpl in Hout. exists sums.
  destruct r; simpl.
  - destruct (concatParts dest (partFiles t) (print OutNewline w1)) as [r w2] eqn:Hc.
    simpl. exists [OutNewline]. split; [|by right].
    apply (f_equal (λ x, stdout x.2)) in Hc. simpl in Hc. rewrite <- Hc.
    unfold concatParts. rewrite concat_loop_stdout. simpl.
    by rewrite Hout, (assoc_L (++)).
  - exists []. rewrite app_nil_r. split; [done | by left].
  - exists []. rewrite app_nil_r. split; [done | by left].
Qed.

(** X6.  No percentage is ever computed against a total of zero.  Every
    progress line "[sum/total]" printed during a call of [downloadWithResume]
    has a total other than zero: in a multi-part transfer the total is the
    announced size, which has passed the guard; in a single stream a
    percentage line is printed only once a total is known, and a count of
    bytes otherwise. *)
Theorem progress_total_never_zero (PARTS : nat) (url dest : string)
    (net : network) (w : world) :
  ∃ lines,
    stdout (after (downloadWithResume PARTS url dest net w)) = stdout w ++ lines ∧
    ∀ sum total, OutProgress sum total ∈ lines → total ≠ 0.
Proof.
  unfold downloadWithResume.
  destruct (probe url net w) as [[fileSize supports] w1] eqn:Hprobe.
  assert (Hw1 : ∃ log, stdout w1 = stdout w ++ log ∧
                       ∀ sum total, OutProgress sum total ∉ log).
  { unfold probe, getFileSize, supportsRange in Hprobe.
    destruct (head_size net), (head_range net);
      injection Hprobe as _ _ <-; simpl.
    - exists []. rewrite app_nil_r. split; [done|].
      intros ??. apply not_elem_of_nil.
    - exists [LogHeadFailed]. split; [done|]. intros ?? Hin.
      apply list_elem_of_singleton in Hin. discriminate.
    - exists [LogHeadFailed]. split; [done|]. intros ?? Hin.
      apply list_elem_of_singleton in Hin. discriminate.
    - exists [LogHeadFailed]. split; [done|]. intros ?? Hin.
      apply list_elem_of_singleton in Hin. discriminate. }
  destruct Hw1 as (log & Hlog & Hnolog).
  destruct (multipart_guard fileSize supports) eqn:Hg.
  - assert (Hn : or_zero fileSize ≠ 0).
    { destruct fileSize as [[|n]|]; try done.
      apply multipart_guard_number in Hg. simpl. lia. }
    destruct (multiPartDownload_stdout PARTS url dest (or_zero fileSize)
                (stream_events net) (print LogMultiPart w1))
      as (sums & tail & -> & Htail).
    simpl. exists (log ++ [LogMultiPart] ++
                   map (λ x, OutProgress x (or_zero fileSize)) sums ++ tail).
    split; [rewrite Hlog; by rewrite <- !(assoc_L (++))|].
    intros sum total Hin.
    apply elem_of_app in Hin as [Hin|Hin]; [by apply Hnolog in Hin|].
    apply elem_of_app in Hin as [Hin|Hin].
    { apply list_elem_of_singleton in Hin. discriminate. }
    apply elem_of_app in Hin as [Hin|Hin].
    + apply list_elem_of_fmap in Hin as (x & Heq & _).
      injection Heq as _ ->. exact Hn.
    + destruct Htail as [->| ->].
      * by apply not_elem_of_nil in Hin.
      * apply list_elem_of_singleton in Hin. discriminate.
  - unfold singleStream.
    destruct (single_stream_loop_lines dest (stream_events net) (or_zero fileSize)
                (fs_create dest (got url fallback_options w1)))
      as (lines & -> & Hall).
    simpl. exists (log ++ lines).
    split; [by rewrite Hlog, (assoc_L (++))|].
    intros sum total Hin.
    apply elem_of_app in Hin as [Hin|Hin]; [by apply Hnolog in Hin|].
    rewrite Forall_forall in Hall. apply Hall in Hin as [Hin|Hin]; [exact Hin|].
    discriminate.
Qed.

(** ** [parseInt] reads back decimal renderings *)

Lemma pretty_N_go_app (x : N) : ∀ s r,
  pretty_N_go x s +:+ r = pretty_N_go x (s +:+ r).
Proof.
  induction (N.lt_wf_0 x) as [x _ IH]. intros s r.
  destruct (decide (0 < x)%N) as [Hx|Hx].
  - rewrite (pretty_N_go_step x s), (pretty_N_go_step x (s +:+ r)) by done.
    rewrite IH by (apply N.div_lt; lia). reflexivity.
  - assert (x = 0%N) as -> by lia. by rewrite !pretty_N_go_0.
Qed.

Lemma digit_of_pretty_N_char (d : N) :
  (d < 10)%N → digit_of (pretty_N_char d) = Some (Z.of_N d).
Proof.
  intros Hd.
  assert (d = 0 ∨ d = 1 ∨ d = 2 ∨ d = 3 ∨ d = 4 ∨ d = 5 ∨ d = 6 ∨ d = 7 ∨
          d = 8 ∨ d = 9)%N as H by lia.
  repeat (destruct H as [->|H]; [reflexivity|]). subst. reflexivity.
Qed.

Lemma digits_pretty_N_go (x : N) : ∀ s,
  (0 < x)%N →
  ∃ c r, pretty_N_go x s = String c r ∧ is_Some (digit_of c) ∧
         digits (String c r) None = digits s (Some (Z.of_N x)).
Proof.
  induction (N.lt_wf_0 x) as [x _ IH]. intros s Hx.
  rewrite pretty_N_go_step by done.
  pose proof (N.mod_lt x 10 ltac:(lia)) as Hmod.
  pose proof (N.div_mod x 10 ltac:(lia)) as Hdm.
  pose proof (digit_of_pretty_N_char _ Hmod) as Hd.
  destruct (decide (0 < x `div` 10)%N) as [Hq|Hq].
  - destruct (IH (x `div` 10)%N ltac:(apply N.div_lt; lia)
                (String (pretty_N_char (x `mod` 10)) s) Hq)
      as (c & r & -> & Hc & Hdig).
    exists c, r. split; [done|]. split; [done|].
    rewrite Hdig. cbn [digits]. rewrite Hd. simpl. do 2 f_equal. lia.
  - assert (x `div` 10 = 0)%N as Hz by lia. rewrite Hz, pretty_N_go_0.
    eexists _, _. split; [done|]. split; [by rewrite Hd|].
    cbn [digits]. rewrite Hd. simpl. do 2 f_equal. lia.
Qed.

Lemma digits_no_leading_digit s acc : no_leading_digit s → digits s acc = acc.
Proof. destruct s as [|c s]; simpl; [done|]. by intros ->. Qed.

Lemma skip_spaces_all_spaces ws s :
  all_spaces ws = true → skip_spaces (ws +:+ s) = skip_spaces s.
Proof.
  induction ws as [|c ws IH]; simpl; [done|].
  intros [Hc Hws]%andb_true_iff. rewrite Hc. by apply IH.
Qed.

Lemma digit_is_no_space c : is_Some (digit_of c) → is_space c = false.
Proof.
  unfold digit_of, is_space. intros [d Hd]. case_bool_decide; [|done].
  apply bool_decide_eq_false_2. lia.
Qed.

Lemma digit_is_no_sign c s :
  is_Some (digit_of c) →
  match String c s with
  | String "-" s' => (-1, s')
  | String "+" s' => (1, s')
  | _ => (1, String c s)
  end = (1, String c s).
Proof.
  intros [d Hd].
  destruct c as [[] [] [] [] [] [] [] []]; try reflexivity; discriminate Hd.
Qed.

Lemma parseInt_string_digits c r n :
  is_Some (digit_of c) → digits (String c r) None = Some n →
  parseInt_string (String c r) = JNum n.
Proof.
  intros Hc Hn. unfold parseInt_string.
  cbn [skip_spaces]. rewrite (digit_is_no_space c Hc).
  rewrite (digit_is_no_sign c r Hc), Hn. f_equal. lia.
Qed.

(** X7.  [parseInt] reads back the decimal rendering of every integer of
    magnitude at most [2 ^ 53], up to which the numbers of the code are
    exact, as a template literal writes it: preceded by any ASCII white space
    and followed by anything that does not start with a digit, the rendering
    of [z] parses to [z]. *)
Theorem parseInt_reads_decimal (ws : string) (z : Z) (rest : string) :
  Z.abs z ≤ 2 ^ 53 →
  all_spaces ws = true → no_leading_digit rest →
  parseInt (Some (ws +:+ pretty z +:+ rest)) = JNum z.
Proof.
  intros _ Hws Hrest. unfold parseInt, parseInt_string.
  rewrite skip_spaces_all_spaces by done.
  fold (parseInt_string (pretty z +:+ rest)).
  assert (Hpos : ∀ p : positive,
            ∃ c r, pretty (N.pos p) +:+ rest = String c r ∧
                   is_Some (digit_of c) ∧
                   digits (String c r) None = Some (Z.pos p)).
  { intros p. unfold pretty, pretty_N. rewrite decide_False by done.
    rewrite pretty_N_go_app. change ("" +:+ rest) with rest.
    destruct (digits_pretty_N_go (N.pos p) rest ltac:(lia))
      as (c & r & -> & Hc & Hdig).
    exists c, r. split; [done|]. split; [done|].
    rewrite Hdig. by apply digits_no_leading_digit. }
  destruct z as [|p|p]; unfold pretty, pretty_Z.
  - apply parseInt_string_digits; [by eexists|].
    change ("0" +:+ rest) with (String "0" rest). cbn [digits].
    change (digit_of "0") with (Some 0). simpl.
    by apply digits_no_leading_digit.
  - destruct (Hpos p) as (c & r & Heq & Hc & Hdig).
    change (pretty p) with (pretty (N.pos p)). rewrite Heq.
    by apply parseInt_string_digits.
  - destruct (Hpos p) as (c & r & Heq & Hc & Hdig).
    change (("-" +:+ pretty p) +:+ rest)
      with (String "-" (pretty (N.pos p) +:+ rest)).
    rewrite Heq. unfold parseInt_string. cbn [skip_spaces].
    change (is_space "-") with false. cbv iota. rewrite Hdig. f_equal.
Qed.

Lemma parseInt_reads_decimal_witness :
  Z.abs 16000000 ≤ 2 ^ 53 ∧
  parseInt (Some (" " +:+ pretty 16000000 +:+ ", 16000000")) = JNum 16000000.
Proof.
  split; [by vm_compute|].
  apply (parseInt_reads_decimal " " 16000000 ", 16000000");
    [by vm_compute | reflexivity | reflexivity].
Defined.

(** * The version list generator *)

(** ** [fetchWithRetry] *)

Lemma failed_attempts_cons retries (i n : nat) :
  failed_attempts retries i (S n)
  = Fetch :: RetryLine (Z.of_nat i + 1) retries
      :: Wait (1000 * (Z.of_nat i + 1)) :: failed_attempts retries (S i) n.
Proof. reflexivity. Qed.

Lemma failed_attempts_counts retries (n : nat) : ∀ i : nat,
  fetches (failed_attempts retries i n ++ [Fetch]) = S n ∧
  waited (failed_attempts retries i n ++ [Fetch])
  = 500 * Z.of_nat n * (2 * Z.of_nat i + Z.of_nat n + 1).
Proof.
  induction n as [|n IH]; intros i.
  - split; [reflexivity|]. unfold waited. simpl. lia.
  - rewrite failed_attempts_cons. destruct (IH (S i)) as [Hf Hw].
    split.
    + unfold fetches in *. rewrite <- !app_comm_cons.
      rewrite filter_cons_True by done.
      rewrite filter_cons_False by done.
      rewrite filter_cons_False by done.
      simpl. by rewrite Hf.
    + unfold waited in *. rewrite <- !app_comm_cons.
      cbn [omap list_omap]. unfold sumZ in *. cbn [foldr]. rewrite Hw. lia.
Qed.

Lemma retry_loop_S {A E} (attempt : nat → A + E) retries (remaining i : nat) :
  retry_loop attempt retries (S remaining) i
  = match attempt i with
    | inl v => (Fetched v, [Fetch])
    | inr e =>
        if Z.of_nat i =? retries - 1 then (Thrown e, [Fetch])
        else
          let '(r, steps) := retry_loop attempt retries remaining (S i) in
          (r, Fetch :: RetryLine (Z.of_nat i + 1) retries
                :: Wait (1000 * (Z.of_nat i + 1)) :: steps)
    end.
Proof. reflexivity. Qed.

Lemma retry_loop_succeeds {A E} (attempt : nat → A + E) retries (k : nat) v :
  attempt k = inl v →
  ∀ (remaining i : nat),
    Z.of_nat i + Z.of_nat remaining = retries → (i ≤ k)%nat → Z.of_nat k < retries →
    (∀ j : nat, (i ≤ j < k)%nat → ∃ e, attempt j = inr e) →
    retry_loop attempt retries remaining i
    = (Fetched v, failed_attempts retries i (k - i) ++ [Fetch]).
Proof.
  intros Hk. induction remaining as [|remaining IH]; intros i Hsum Hik Hkr Hfail.
  - lia.
  - rewrite retry_loop_S. destruct (decide (i = k)) as [->|Hne].
    + rewrite Hk, Nat.sub_diag. reflexivity.
    + destruct (Hfail i ltac:(lia)) as [e ->].
      rewrite (proj2 (Z.eqb_neq _ _)) by lia.
      rewrite (IH (S i)) by (try lia; intros j Hj; apply Hfail; lia).
      replace (k - i)%nat with (S (k - S i)) by lia.
      by rewrite failed_attempts_cons.
Qed.

Lemma retry_loop_exhausts {A E} (attempt : nat → A + E) retries e :
  (∀ j : nat, Z.of_nat j < retries → ∃ e', attempt j = inr e') →
  attempt (Z.to_nat (retries - 1)) = inr e →
  ∀ (remaining i : nat),
    Z.of_nat i + Z.of_nat (S remaining) = retries →
    retry_loop attempt retries (S remaining) i
    = (Thrown e, failed_attempts retries i remaining ++ [Fetch]).
Proof.
  intros Hfail Hlast. induction remaining as [|remaining IH]; intros i Hsum.
  - rewrite retry_loop_S. replace i with (Z.to_nat (retries - 1)) by lia.
    rewrite Hlast. rewrite (proj2 (Z.eqb_eq _ _)) by lia. reflexivity.
  - rewrite retry_loop_S. destruct (Hfail i ltac:(lia)) as [e' ->].
    rewrite (proj2 (Z.eqb_neq _ _)) by lia.
    rewrite (IH (S i)) by lia. by rewrite failed_attempts_cons.
Qed.

(** X8.  [fetchWithRetry] fetches at most [retries] times and stops at the
    first success.  If attempt [k] (from 0, with [k < retries]) is the first
    to succeed, its value is returned after [k + 1] fetches, [k] retry lines
    and waits of 1000, 2000, ..., [1000 k] ms, [500 k (k + 1)] ms in all.  If
    all [retries] attempts fail, the error of the last attempt is thrown,
    after [retries] fetches and waits of [500 retries (retries - 1)] ms in
    all, with no wait after the last failure.  With [retries <= 0] nothing is
    fetched and the call returns [undefined]. *)
Theorem fetchWithRetry_behaviour {A E : Type} (attempt : nat → A + E)
    (retries : Z) :
  (∀ (k : nat) v,
      Z.of_nat k < retries → attempt k = inl v →
      (∀ j : nat, (j < k)%nat → ∃ e, attempt j = inr e) →
      fetchWithRetry attempt retries
      = (Fetched v, failed_attempts retries 0 k ++ [Fetch]) ∧
      fetches (failed_attempts retries 0 k ++ [Fetch]) = S k ∧
      waited (failed_attempts retries 0 k ++ [Fetch])
      = 500 * Z.of_nat k * (Z.of_nat k + 1)) ∧
  (∀ e,
      0 < retries →
      (∀ j : nat, Z.of_nat j < retries → ∃ e', attempt j = inr e') →
      attempt (Z.to_nat (retries - 1)) = inr e →
      fetchWithRetry attempt retries
      = (Thrown e, failed_attempts retries 0 (Z.to_nat (retries - 1)) ++ [Fetch]) ∧
      Z.of_nat (fetches (failed_attempts retries 0 (Z.to_nat (retries - 1))
                           ++ [Fetch])) = retries ∧
      waited (failed_attempts retries 0 (Z.to_nat (retries - 1)) ++ [Fetch])
      = 500 * retries * (retries - 1)) ∧
  (retries ≤ 0 → fetchWithRetry attempt retries = (Undefined, [])).
Proof.
  split; [|split].
  - intros k v Hk Hv Hfail.
    destruct (failed_attempts_counts retries k 0) as [Hf Hw].
    split; [|split; [exact Hf | rewrite Hw; lia]].
    unfold fetchWithRetry.
    rewrite (retry_loop_succeeds attempt retries k v Hv) by
      (try lia; intros j Hj; apply Hfail; lia).
    by rewrite Nat.sub_0_r.
  - intros e Hpos Hfail Hlast.
    destruct (failed_attempts_counts retries (Z.to_nat (retries - 1)) 0)
      as [Hf Hw].
    split; [|split; [rewrite Hf; lia |]].
    2:{ rewrite Hw, Z2Nat.id by lia. change (Z.of_nat 0) with 0. ring. }
    unfold fetchWithRetry.
    replace (Z.to_nat retries) with (S (Z.to_nat (retries - 1))) by lia.
    apply retry_loop_exhausts; [done | done | lia].
  - intros Hle. unfold fetchWithRetry.
    replace (Z.to_nat retries) with 0%nat by lia. reflexivity.
Qed.

(** X8 with the default of three attempts: two failures, then a value. *)
Lemma fetchWithRetry_behaviour_witness :
  let attempt := λ k : nat, if decide (k = 2%nat) then inl "json" else inr k in
  fetchWithRetry (A := string) (E := nat) attempt 3
  = (Fetched "json",
     [Fetch; RetryLine 1 3; Wait 1000; Fetch; RetryLine 2 3; Wait 2000; Fetch]) ∧
  waited (failed_attempts 3 0 2 ++ [Fetch]) = 3000.
Proof.
  intros attempt.
  destruct (fetchWithRetry_behaviour attempt 3) as [Hok _].
  destruct (Hok 2%nat "json") as (Hrun & _ & Hw).
  - lia.
  - reflexivity.
  - intros j Hj. exists j. unfold attempt. rewrite decide_False by lia. done.
  - split; [exact Hrun | exact Hw].
Defined.

(** ** [versionInRange] *)

Example versionInRange_examples :
  versionInRange "1.21.94" = Some true ∧
  versionInRange "1.16.40" = Some true ∧
  versionInRange "1.17.0" = Some false ∧
  versionInRange "1.20" = Some true ∧
  versionInRange "1.22.50" = Some false ∧
  versionInRange "1.19.50.02" = Some true ∧
  versionInRange "" = Some false.
Proof. repeat split; reflexivity. Qed.

Lemma string_app_nil_r (s : string) : s +:+ "" = s.
Proof.
  induction s as [|a s IH]; [reflexivity|].
  change (String a s +:+ "") with (String a (s +:+ "")). by rewrite IH.
Qed.

Lemma string_app_assoc (s1 s2 s3 : string) :
  (s1 +:+ s2) +:+ s3 = s1 +:+ (s2 +:+ s3).
Proof.
  induction s1 as [|a s1 IH]; [reflexivity|].
  change ((String a s1 +:+ s2) +:+ s3) with (String a ((s1 +:+ s2) +:+ s3)).
  change (String a s1 +:+ (s2 +:+ s3)) with (String a (s1 +:+ (s2 +:+ s3))).
  by rewrite IH.
Qed.

Lemma digit_is_no_dot c : is_Some (digit_of c) → Ascii.eqb c "." = false.
Proof.
  intros [d Hd].
  destruct c as [[] [] [] [] [] [] [] []]; try reflexivity; discriminate Hd.
Qed.

Lemma split_dot_go_digits (d : string) : ∀ s cur,
  all_digits d = true → split_dot_go (d +:+ s) cur = split_dot_go s (cur +:+ d).
Proof.
  induction d as [|c d IH]; intros s cur Hd.
  - by rewrite string_app_nil_r.
  - simpl in Hd. apply andb_true_iff in Hd as [Hc Hd].
    apply bool_decide_eq_true in Hc.
    change (String c d +:+ s) with (String c (d +:+ s)).
    cbn [split_dot_go]. rewrite (digit_is_no_dot c Hc).
    rewrite IH by done. by rewrite string_app_assoc.
Qed.

Lemma split_dot_component (d rest : string) :
  all_digits d = true →
  split_dot (d +:+ "." +:+ rest) = d :: split_dot rest.
Proof.
  intros Hd. unfold split_dot. rewrite split_dot_go_digits by done.
  reflexivity.
Qed.

Lemma split_dot_last (d : string) : all_digits d = true → split_dot d = [d].
Proof.
  intros Hd. unfold split_dot. rewrite <- (string_app_nil_r d) at 1.
  rewrite split_dot_go_digits by done. reflexivity.
Qed.

Lemma all_digits_pretty_N_go (x : N) : ∀ s,
  all_digits s = true → all_digits (pretty_N_go x s) = true.
Proof.
  induction (N.lt_wf_0 x) as [x _ IH]. intros s Hs.
  destruct (decide (0 < x)%N) as [Hx|Hx].
  - rewrite pretty_N_go_step by done. apply IH; [apply N.div_lt; lia|].
    simpl. rewrite Hs, andb_true_r. apply bool_decide_eq_true.
    rewrite digit_of_pretty_N_char; [by eexists | apply N.mod_lt; lia].
  - assert (x = 0%N) as -> by lia. by rewrite pretty_N_go_0.
Qed.

(** The decimal rendering of a natural number is made of digits and converts
    back to the number. *)
Lemma Number_digits_pretty (a : Z) :
  0 ≤ a → all_digits (pretty a) = true ∧ Number_digits (pretty a) = Some a.
Proof.
  intros Ha. destruct a as [|p|p]; [done| |lia].
  assert (Hall : all_digits (pretty (Z.pos p)) = true).
  { unfold pretty, pretty_Z. change (pretty p) with (pretty (N.pos p)).
    unfold pretty, pretty_N. rewrite decide_False by done.
    by apply all_digits_pretty_N_go. }
  split; [exact Hall|]. unfold Number_digits. rewrite Hall. f_equal.
  unfold pretty, pretty_Z. change (pretty p) with (pretty (N.pos p)).
  unfold pretty, pretty_N. rewrite decide_False by done.
  destruct (digits_pretty_N_go (N.pos p) "" ltac:(lia)) as (c & r & -> & _ & ->).
  reflexivity.
Qed.

Lemma range_loop_three (a b c : Z) (more : list (option Z)) :
  range_loop [Some 1; Some 16; Some 40] [Some 1; Some 21; Some 94]
    (Some a :: Some b :: Some c :: more) 0 3
  = Some (bool_decide (a = 1 ∧ 16 ≤ b ≤ 21 ∧ 40 ≤ c ≤ 94)).
Proof.
  simpl.
  destruct (Z.ltb_spec a 1), (Z.ltb_spec 1 a), (Z.ltb_spec b 16),
    (Z.ltb_spec 21 b), (Z.ltb_spec c 40), (Z.ltb_spec 94 c);
    f_equal; symmetry;
    first [apply bool_decide_eq_true_2; lia | apply bool_decide_eq_false_2; lia].
Qed.

Lemma range_loop_two (a b : Z) :
  range_loop [Some 1; Some 16; Some 40] [Some 1; Some 21; Some 94]
    [Some a; Some b] 0 3
  = Some (bool_decide (a = 1 ∧ 16 ≤ b ≤ 21)).
Proof.
  simpl.
  destruct (Z.ltb_spec a 1), (Z.ltb_spec 1 a), (Z.ltb_spec b 16),
    (Z.ltb_spec 21 b);
    f_equal; symmetry;
    first [apply bool_decide_eq_true_2; lia | apply bool_decide_eq_false_2; lia].
Qed.

(** X9.  [versionInRange] checks each of the first three components against
    the same component of the bounds 1.16.40 and 1.21.94, on its own: a
    version [a.b.c] with decimal components is accepted exactly when [a = 1],
    [16 <= b <= 21] and [40 <= c <= 94], whatever components follow.  This is
    not the order of versions (1.17.0 is refused).  A component that is
    missing is not checked: [a.b] is accepted exactly when [a = 1] and
    [16 <= b <= 21]. *)
Theorem versionInRange_componentwise (a b c : Z) (suffix : string) :
  0 ≤ a → 0 ≤ b → 0 ≤ c →
  versionInRange (pretty a +:+ "." +:+ pretty b +:+ "." +:+ pretty c)
  = Some (bool_decide (a = 1 ∧ 16 ≤ b ≤ 21 ∧ 40 ≤ c ≤ 94)) ∧
  versionInRange (pretty a +:+ "." +:+ pretty b +:+ "." +:+ pretty c
                    +:+ "." +:+ suffix)
  = Some (bool_decide (a = 1 ∧ 16 ≤ b ≤ 21 ∧ 40 ≤ c ≤ 94)) ∧
  versionInRange (pretty a +:+ "." +:+ pretty b)
  = Some (bool_decide (a = 1 ∧ 16 ≤ b ≤ 21)).
Proof.
  intros Ha Hb Hc.
  destruct (Number_digits_pretty a Ha) as [Hda Hna].
  destruct (Number_digits_pretty b Hb) as [Hdb Hnb].
  destruct (Number_digits_pretty c Hc) as [Hdc Hnc].
  unfold versionInRange.
  change (parse_version MIN_VERSION) with [Some 1; Some 16; Some 40].
  change (parse_version MAX_VERSION) with [Some 1; Some 21; Some 94].
  unfold parse_version. split; [|split].
  - rewrite !split_dot_component, split_dot_last by done.
    cbn [map]. rewrite Hna, Hnb, Hnc. apply range_loop_three.
  - rewrite !split_dot_component by done.
    cbn [map]. rewrite Hna, Hnb, Hnc. apply range_loop_three.
  - rewrite !split_dot_component, split_dot_last by done.
    cbn [map]. rewrite Hna, Hnb. apply range_loop_two.
Qed.

(** X9 on 1.17.0, which lies between the bounds as a version and is refused
    because 0 < 40, and on 1.17, which is accepted. *)
Lemma versionInRange_componentwise_witness :
  versionInRange (pretty 1 +:+ "." +:+ pretty 17 +:+ "." +:+ pretty 0)
  = Some false ∧
  versionInRange (pretty 1 +:+ "." +:+ pretty 17) = Some true.
Proof.
  destruct (versionInRange_componentwise 1 17 0 "" ltac:(lia) ltac:(lia)
              ltac:(lia)) as (H3 & _ & H2).
  split; [exact H3 | exact H2].
Defined.

(** * The installer script *)

Example ends_with_examples :
  ends_with ".Appx" "1.21.94.Appx" = true ∧
  ends_with ".Appx" "1.21.94.appx" = false ∧
  ends_with ".Appx" "1.21.94.Appx.part0" = false ∧
  ends_with ".Appx" ".Appx" = true ∧
  ends_with ".Appx" "Appx" = false.
Proof. repeat split; reflexivity. Qed.

Lemma sort_newest_first_head (l : list (string * Z)) :
  l ≠ [] →
  ∃ x rest, sort_newest_first l = x :: rest ∧ x ∈ l ∧ ∀ y, y ∈ l → y.2 ≤ x.2.
Proof.
  induction l as [|a l IH]; [done|]. intros _.
  destruct l as [|b l].
  - exists a, []. split; [done|]. split; [apply list_elem_of_here|].
    intros y Hy. apply list_elem_of_singleton in Hy as ->. lia.
  - destruct IH as (x & rest & Hs & Hx & Hmax); [done|].
    change (sort_newest_first (a :: b :: l))
      with (insert_by_time a (sort_newest_first (b :: l))).
    rewrite Hs. cbn [insert_by_time].
    destruct (Z.leb_spec x.2 a.2).
    + exists a, (x :: rest). split; [done|]. split; [apply list_elem_of_here|].
      intros y [->|Hy]%elem_of_cons; [lia|]. specialize (Hmax y Hy). lia.
    + exists x, (insert_by_time a rest). split; [done|].
      split; [by apply list_elem_of_further|].
      intros y [->|Hy]%elem_of_cons; [lia | by apply Hmax].
Qed.

(** The head of the sorted list is the first of the newest entries. *)
Lemma sort_newest_first_stable (before : list (string * Z)) x after :
  (∀ y, y ∈ before → y.2 < x.2) → (∀ y, y ∈ after → y.2 ≤ x.2) →
  ∃ rest, sort_newest_first (before ++ x :: after) = x :: rest.
Proof.
  intros Hbefore Hafter. induction before as [|b before IH].
  - simpl. destruct after as [|a after].
    + by exists [].
    + destruct (sort_newest_first_head (a :: after)) as (m & rest & Hs & Hm & _);
        [done|].
      change (sort_newest_first (x :: a :: after))
        with (insert_by_time x (sort_newest_first (a :: after))).
      rewrite Hs. cbn [insert_by_time].
      rewrite (proj2 (Z.leb_le _ _)) by (by apply Hafter). by eexists.
  - destruct IH as [rest Hs].
    { intros y Hy. apply Hbefore. by apply list_elem_of_further. }
    change (sort_newest_first ((b :: before) ++ x :: after))
      with (insert_by_time b (sort_newest_first (before ++ x :: after))).
    rewrite Hs. cbn [insert_by_time].
    rewrite (proj2 (Z.leb_gt _ _)) by (apply Hbefore, list_elem_of_here).
    by eexists.
Qed.

(** X10.  [getLatestAppx] returns the path of the newest file of the
    downloads directory whose name ends in ".Appx" (in that spelling), and of
    the first listed among files equally new; it returns [null] when the
    directory does not exist or holds no such file. *)
Theorem getLatestAppx_newest (path_join : string → string → string)
    (DOWNLOADS_DIR : string) (entries : list (string * Z)) :
  (∀ before name time after,
      filter (λ f, ends_with ".Appx" f.1 = true) entries
      = before ++ (name, time) :: after →
      (∀ y, y ∈ before → y.2 < time) → (∀ y, y ∈ after → y.2 ≤ time) →
      getLatestAppx path_join DOWNLOADS_DIR (Some entries)
      = Some (path_join DOWNLOADS_DIR name)) ∧
  ((∀ f, f ∈ entries → ends_with ".Appx" f.1 = false) →
   getLatestAppx path_join DOWNLOADS_DIR (Some entries) = None) ∧
  getLatestAppx path_join DOWNLOADS_DIR None = None.
Proof.
  split; [|split; [|done]].
  - intros before name time after Hfilter Hbefore Hafter.
    unfold getLatestAppx. cbv zeta. rewrite Hfilter.
    destruct (sort_newest_first_stable before (name, time) after Hbefore Hafter)
      as [rest ->].
    reflexivity.
  - intros Hnone. unfold getLatestAppx. cbv zeta.
    assert (filter (λ f : string * Z, ends_with ".Appx" f.1 = true) entries = [])
      as ->; [|done].
    induction entries as [|f entries IH]; [done|].
    rewrite filter_cons_False.
    + apply IH. intros g Hg. apply Hnone. by apply list_elem_of_further.
    + rewrite (Hnone f (list_elem_of_here _ _)). done.
Qed.

(** X10 on a directory with two packages of the same age, an older one, a
    newer file with a lower-case extension and a leftover part file. *)
Lemma getLatestAppx_newest_witness :
  getLatestAppx (λ d f, d +:+ "/" +:+ f) "downloads"
    (Some [("1.20.0.Appx", 100); ("1.21.94.appx", 900); ("1.21.0.Appx", 500);
           ("1.21.2.Appx", 500); ("1.21.2.Appx.part0", 700)])
  = Some "downloads/1.21.0.Appx".
Proof.
  destruct (getLatestAppx_newest (λ d f, d +:+ "/" +:+ f) "downloads"
              [("1.20.0.Appx", 100); ("1.21.94.appx", 900); ("1.21.0.Appx", 500);
               ("1.21.2.Appx", 500); ("1.21.2.Appx.part0", 700)]) as [Hnew _].
  apply (Hnew [("1.20.0.Appx", 100)] "1.21.0.Appx" 500 [("1.21.2.Appx", 500)]).
  - reflexivity.
  - intros y Hy. apply list_elem_of_singleton in Hy as ->. simpl. lia.
  - intros y Hy. apply list_elem_of_singleton in Hy as ->. simpl. lia.
Defined.

(** * What a download touches *)

Lemma step_fsops PARTS e s :
  ∃ ops, fsops (step PARTS e s).2 = fsops s.2 ++ ops ∧
         Forall (λ o, op_path o ∈ partFiles s.1) ops.
Proof.
  destruct s as [t w]. unfold step.
  assert (Hsame : ∃ ops, fsops w = fsops w ++ ops ∧
                         Forall (λ o, op_path o ∈ partFiles t) ops).
  { exists []. by rewrite app_nil_r. }
  destruct e as [i chunk|i tr tot|i|i|]; simpl.
  - destruct (tasks t !! i) as [[| |]|]; try done.
    destruct (partFiles t !! i) as [p|] eqn:Hp; [|done].
    exists [OpWrite p chunk]. split; [done|]. apply Forall_singleton. simpl.
    apply list_elem_of_lookup. by exists i.
  - done.
  - by destruct (tasks t !! i) as [[| |]|].
  - by destruct (tasks t !! i) as [[| |]|].
  - destruct (interval t); [|done]. unfold interval_callback.
    by destruct (foldl _ _ _).
Qed.

Lemma event_loop_fsops PARTS sched : ∀ s,
  ∃ ops, fsops (event_loop PARTS sched s).2 = fsops s.2 ++ ops ∧
         Forall (λ o, op_path o ∈ partFiles s.1) ops.
Proof.
  induction sched as [|e sched IH]; intros s.
  - exists []. simpl. by rewrite app_nil_r.
  - unfold event_loop. cbn [foldl]. fold (event_loop PARTS sched (step PARTS e s)).
    destruct (step_fsops PARTS e s) as (ops1 & H1 & Hall1).
    destruct (IH (step PARTS e s)) as (ops2 & H2 & Hall2).
    rewrite step_partFiles in Hall2.
    exists (ops1 ++ ops2). split; [by rewrite H2, H1, (assoc_L (++))|].
    by apply Forall_app.
Qed.

Lemma concat_loop_confined dest parts : ∀ w,
  (∃ ops, fsops (concat_loop dest parts w).2 = fsops w ++ ops ∧
          Forall (λ o, op_path o = dest ∨ op_path o ∈ parts) ops) ∧
  (∀ p, p ≠ dest → p ∉ parts →
        files (concat_loop dest parts w).2 !! p = files w !! p).
Proof.
  induction parts as [|part parts IH]; intros w; simpl.
  - split; [|done]. exists []. by rewrite app_nil_r.
  - destruct (files w !! part) as [bytes|] eqn:Hpart.
    + destruct (IH (fs_unlink part (fs_write dest bytes (fs_read part w))))
        as [(ops & Hops & Hall) Hfiles].
      split.
      * exists ([OpRead part; OpWrite dest bytes; OpUnlink part] ++ ops).
        split; [rewrite Hops; simpl; by rewrite <- !(assoc_L (++))|].
        apply Forall_app. split.
        -- repeat constructor; simpl; try (by left); right; apply list_elem_of_here.
        -- eapply Forall_impl; [exact Hall|]. simpl.
           intros o [?|?]; [by left | right; by apply list_elem_of_further].
      * intros p Hp Hnp. apply not_elem_of_cons in Hnp as [Hne Hnp].
        rewrite Hfiles by done. simpl.
        rewrite lookup_delete_ne by done. by rewrite lookup_alter_ne.
    + simpl. split; [|done]. exists [OpRead part]. split; [done|].
      apply Forall_singleton. right. apply list_elem_of_here.
Qed.

Lemma multiPartDownload_confined PARTS url dest fileSize sched w :
  let out := multiPartDownload PARTS url dest fileSize sched w in
  (∃ ops, fsops (after out) = fsops w ++ ops ∧
          Forall (λ o, transfer_path PARTS dest (op_path o)) ops) ∧
  (∀ p, ¬ transfer_path PARTS dest p → files (after out) !! p = files w !! p).
Proof.
  intros out. unfold out, multiPartDownload.
  set (s0 := (new_transfer PARTS dest fileSize,
              spawn_parts url (part_calls PARTS dest fileSize) w)).
  destruct (await_all PARTS sched s0) as [[r [t w1]] rest] eqn:Hrun.
  apply await_all_decompose in Hrun as (pre & _ & Hs & _).
  pose proof (transfer_inv_event_loop PARTS dest fileSize w pre s0
                (transfer_inv_init PARTS url dest fileSize w)) as Hinv.
  destruct (event_loop_fsops PARTS pre s0) as (ops1 & Hops1 & Hall1).
  rewrite <- Hs in Hinv, Hops1.
  destruct Hinv as (Hpf & _ & _ & _ & _ & _ & Hoth & _).
  simpl in Hpf, Hoth, Hops1, Hall1.
  destruct (spawn_parts_spec url (part_calls PARTS dest fileSize) w)
    as (_ & _ & _ & _ & Hops0).
  assert (Hpart : ∀ p, p ∈ map pc_dest (part_calls PARTS dest fileSize) →
                       transfer_path PARTS dest p).
  { intros p Hp. right. by apply part_files_elem in Hp. }
  assert (Hnot : ∀ p, ¬ transfer_path PARTS dest p →
                      p ≠ dest ∧ p ∉ map pc_dest (part_calls PARTS dest fileSize)).
  { intros p Hp. split; [intros ->; apply Hp; by left|].
    intros Hin. by apply Hp, Hpart. }
  assert (Hbefore : ∃ ops, fsops w1 = fsops w ++ ops ∧
                           Forall (λ o, transfer_path PARTS dest (op_path o)) ops).
  { exists (map (λ c, OpCreate (pc_dest c)) (part_calls PARTS dest fileSize) ++ ops1).
    split; [by rewrite Hops1, Hops0, (assoc_L (++))|].
    apply Forall_app. split.
    - apply Forall_forall. intros o (c & -> & Hc)%list_elem_of_fmap. simpl.
      apply Hpart. apply list_elem_of_fmap. by exists c.
    - eapply Forall_impl; [exact Hall1|]. simpl. intros o Ho. by apply Hpart. }
  assert (Hfiles1 : ∀ p, ¬ transfer_path PARTS dest p →
                         files w1 !! p = files w !! p).
  { intros p Hp. apply Hoth. rewrite Hpf. by apply Hnot. }
  destruct r; simpl; [|done..].
  destruct (concat_loop_confined dest (partFiles t)
              (fs_create dest (print OutNewline w1)))
    as [(ops2 & Hops2 & Hall2) Hfiles2].
  destruct (concatParts dest (partFiles t) (print OutNewline w1)) as [r w2] eqn:Hc.
  unfold concatParts in Hc. rewrite Hc in Hops2, Hfiles2. simpl in *.
  destruct Hbefore as (ops & Hops & Hall).
  split.
  - exists (ops ++ [OpCreate dest] ++ ops2).
    split; [rewrite Hops2, Hops; by rewrite <- !(assoc_L (++))|].
    apply Forall_app. split; [done|]. apply Forall_app. split.
    + apply Forall_singleton. by left.
    + eapply Forall_impl; [exact Hall2|]. simpl.
      intros o [Ho|Ho]; [by left|]. rewrite Hpf in Ho. by apply Hpart.
  - intros p Hp. destruct (Hnot p Hp) as [Hne Hnin].
    rewrite Hfiles2 by (by rewrite ?Hpf).
    rewrite lookup_insert_ne by done. by apply Hfiles1.
Qed.

(** X11.  A call of [downloadWithResume] is confined to its arguments,
    however it ends: every request it hands to the HTTP client is for [url],
    every file operation is on [dest] or on one of the part files
    [dest.part0 .. dest.part(PARTS-1)], and every other file is left as it
    was. *)
Theorem downloadWithResume_confined (PARTS : nat) (url dest : string)
    (net : network) (w : world) :
  let out := downloadWithResume PARTS url dest net w in
  (∃ reqs, requests (after out) = requests w ++ reqs ∧
           Forall (λ r, r.1 = url) reqs) ∧
  (∃ ops, fsops (after out) = fsops w ++ ops ∧
          Forall (λ o, transfer_path PARTS dest (op_path o)) ops) ∧
  (∀ p, ¬ transfer_path PARTS dest p → files (after out) !! p = files w !! p).
Proof.
  intros out. unfold out, downloadWithResume.
  destruct (probe url net w) as [[fileSize supports] w1] eqn:Hprobe.
  assert (Hw1 : (∃ reqs, requests w1 = requests w ++ reqs ∧
                         Forall (λ r, r.1 = url) reqs) ∧
                fsops w1 = fsops w ∧ files w1 = files w).
  { unfold probe, getFileSize, supportsRange in Hprobe.
    destruct (head_size net), (head_range net);
      injection Hprobe as _ _ <-; simpl; (split; [|done]).
    - exists [(url, head_options); (url, head_options)].
      split; [by rewrite <- (assoc_L (++))|]. by repeat constructor.
    - exists [(url, head_options); (url, head_options)].
      split; [by rewrite <- (assoc_L (++))|]. by repeat constructor.
    - exists [(url, head_options)]. split; [done|]. by repeat constructor.
    - exists [(url, head_options)]. split; [done|]. by repeat constructor. }
  destruct Hw1 as ((reqs & Hreqs & Hall) & Hfs & Hfiles).
  destruct (multipart_guard fileSize supports).
  - pose proof (multiPartDownload_requests PARTS url dest (or_zero fileSize)
                  (stream_events net) (print LogMultiPart w1)) as Hr.
    destruct (multiPartDownload_confined PARTS url dest (or_zero fileSize)
                (stream_events net) (print LogMultiPart w1)) as [Hops Hf].
    simpl in *. split; [|split].
    + eexists. split; [rewrite Hr, Hreqs; by rewrite <- (assoc_L (++))|].
      apply Forall_app. split; [done|].
      apply Forall_forall. by intros r (x & -> & _)%list_elem_of_fmap.
    + by rewrite <- Hfs.
    + intros p Hp. rewrite Hf by done. by rewrite Hfiles.
  - destruct (singleStream_spec url dest fileSize (stream_events net) w1)
      as (Hf & (ops & Hops & Hallops) & Hr & _).
    split; [|split].
    + eexists. split; [rewrite Hr, Hreqs; by rewrite <- (assoc_L (++))|].
      apply Forall_app. split; [done|]. by apply Forall_singleton.
    + exists ops. split; [by rewrite Hops, Hfs|].
      eapply Forall_impl; [exact Hallops|]. simpl. intros o ->. by left.
    + intros p Hp. rewrite Hf; [by rewrite Hfiles|].
      intros ->. apply Hp. by left.
Qed.

(** * The frontend helper *)

Lemma filter_fresh (id : nat) (l : list (nat * string)) :
  (∀ x, x ∈ l → x.1 ≠ id) → filter (λ x : nat * string, x.1 ≠ id) l = l.
Proof.
  induction l as [|x l IH]; intros H; [done|].
  rewrite filter_cons_True by (apply H, list_elem_of_here).
  f_equal. apply IH. intros y Hy. apply H. by apply list_elem_of_further.
Qed.

Lemma dispatch_others own (l : list (nat * string)) next e :
  (∀ x, x ∈ l → ∀ h, h ∈ own → h.1 ≠ x.1) →
  dispatch own {| registered := l; next_listener := next |} e = [].
Proof.
  unfold dispatch. simpl. induction l as [|x l IH]; intros H; [done|].
  simpl. rewrite IH by (intros y Hy; apply H; by apply list_elem_of_further).
  rewrite app_nil_r. destruct (decide (x.2 = e.1)); [|done].
  destruct (list_find _ own) as [[k h]|] eqn:Hfind; [|done].
  apply list_find_Some in Hfind as (Hk & Heq & _).
  exfalso. eapply (H x); [apply list_elem_of_here | |exact Heq].
  by eapply list_elem_of_lookup_2.
Qed.

Lemma dispatch_app own l1 l2 next e :
  dispatch own {| registered := l1 ++ l2; next_listener := next |} e
  = dispatch own {| registered := l1; next_listener := next |} e
    ++ dispatch own {| registered := l2; next_listener := next |} e.
Proof. unfold dispatch. simpl. apply flat_map_app. Qed.

Lemma dispatch_download (b : event_bus) next e :
  bus_ok b →
  dispatch [(next_listener b, NoticeProgress); (S (next_listener b), NoticeError)]
    {| registered := (registered b
                      ++ [(next_listener b, "bedrock-download-progress")])
                     ++ [(S (next_listener b), "bedrock-download-error")];
       next_listener := next |} e
  = download_notice e.
Proof.
  intros Hok. rewrite !dispatch_app.
  rewrite dispatch_others.
  2:{ intros x Hx h Hh. apply Hok in Hx.
      apply elem_of_cons in Hh as [->|Hh]; [simpl; lia|].
      apply list_elem_of_singleton in Hh as ->. simpl; lia. }
  unfold dispatch, download_notice. cbn [flat_map registered fst snd].
  rewrite !app_nil_r. destruct e as [name payload]. cbn [fst snd].
  assert (H1 : list_find (λ h : nat * (string → notice), h.1 = next_listener b)
                 [(next_listener b, NoticeProgress);
                  (S (next_listener b), NoticeError)]
               = Some (0%nat, (next_listener b, NoticeProgress))).
  { apply list_find_Some. split; [done|]. split; [done|]. intros; lia. }
  assert (H2 : list_find (λ h : nat * (string → notice), h.1 = S (next_listener b))
                 [(next_listener b, NoticeProgress);
                  (S (next_listener b), NoticeError)]
               = Some (1%nat, (S (next_listener b), NoticeError))).
  { apply list_find_Some. split; [done|]. split; [done|].
    intros j y Hj Hlt. destruct j as [|j]; [|lia].
    injection Hj as <-. simpl. lia. }
  rewrite H1, H2. cbn [fst snd].
  destruct (decide ("bedrock-download-progress" = name)) as [<-|Hp].
  - rewrite decide_False by done. rewrite decide_True by done. done.
  - rewrite (decide_False (P := name = "bedrock-download-progress")) by done.
    destruct (decide ("bedrock-download-error" = name)) as [<-|He].
    + by rewrite decide_True.
    + by rewrite decide_False.
Qed.

(** X12.  [download_bedrock_version] with a callback, on a bus whose
    identifiers are fresh.  When both listeners register, the callback
    receives exactly the download progress and download error events emitted
    during the invoke, in order, and when the call ends, by a value or by an
    error of the backend, both listeners are removed: the bus holds the
    listeners it held before and later events reach no handler of the call.
    When the second [listen] rejects, the call throws before invoking and the
    first listener stays registered.  Without a callback nothing is ever
    registered. *)
Theorem download_listeners (inv : invocation) (b : event_bus) :
  bus_ok b →
  (let '(r, notices, b') := download_bedrock_version true true true inv b in
   r = result_of (answer inv) ∧
   notices = flat_map download_notice (emitted inv) ∧
   registered b' = registered b ∧
   ∀ e, dispatch [(next_listener b, NoticeProgress);
                  (S (next_listener b), NoticeError)] b' e = []) ∧
  download_bedrock_version true true false inv b
  = (ListenThrew, [],
     {| registered := registered b ++ [(next_listener b, "bedrock-download-progress")];
        next_listener := S (next_listener b) |}) ∧
  download_bedrock_version true false true inv b = (ListenThrew, [], b) ∧
  download_bedrock_version false true true inv b = (result_of (answer inv), [], b).
Proof.
  intros Hok. split; [|done].
  unfold download_bedrock_version, listen. cbn [fst snd registered next_listener].
  set (n := next_listener b).
  assert (Hreg : registered
            (unlisten (S n)
               (unlisten n
                  {| registered := (registered b
                                    ++ [(n, "bedrock-download-progress")])
                                   ++ [(S n, "bedrock-download-error")];
                     next_listener := S (S n) |})) = registered b).
  { unfold unlisten. simpl. rewrite !filter_app.
    rewrite (filter_fresh n (registered b))
      by (intros x Hx; apply Hok in Hx; fold n in Hx; lia).
    rewrite (filter_fresh (S n) (registered b))
      by (intros x Hx; apply Hok in Hx; fold n in Hx; lia).
    rewrite filter_cons_False by (simpl; lia).
    rewrite filter_cons_True by (simpl; lia).
    rewrite !filter_nil, app_nil_r. simpl.
    rewrite filter_cons_False by (simpl; lia). by rewrite filter_nil, app_nil_r. }
  split; [done|]. split; [|split; [exact Hreg|]].
  - apply flat_map_ext. intros e. by apply dispatch_download.
  - intros e.
    destruct (unlisten (S n) (unlisten n _)) as [l next] eqn:Hb.
    simpl in Hreg. subst l. apply dispatch_others.
    intros x Hx h Hh. apply Hok in Hx. fold n in Hx.
    apply elem_of_cons in Hh as [->|Hh]; [simpl; lia|].
    apply list_elem_of_singleton in Hh as ->. simpl; lia.
Qed.

(** X12 on a bus with one listener of another component: three events are
    emitted during the invoke, which then fails. *)
Lemma download_listeners_witness :
  let b := {| registered := [(0%nat, "instance-updated")]; next_listener := 1 |} in
  let inv := {| emitted := [("bedrock-download-progress", "10%");
                            ("instance-updated", "x");
                            ("bedrock-download-error", "disk full")];
                answer := inr "download failed" |} in
  bus_ok b ∧
  (download_bedrock_version true true true inv b).1
  = (CallThrew "download failed",
     [NoticeProgress "10%"; NoticeError "disk full"]) ∧
  registered (download_bedrock_version true true true inv b).2
  = [(0%nat, "instance-updated")].
Proof.
  intros b inv.
  assert (Hok : bus_ok b).
  { intros l Hl. apply list_elem_of_singleton in Hl as ->. simpl. lia. }
  split; [exact Hok|].
  destruct (download_listeners inv b Hok) as [Hboth _].
  destruct (download_bedrock_version true true true inv b) as [[r notices] b'].
  destruct Hboth as (-> & -> & Hreg & _).
  split; [reflexivity|exact Hreg].
Defined.

(** * The release collector *)

Lemma snoc_split {A} (l l1 l2 : list A) (x r : A) :
  l ++ [x] = l1 ++ r :: l2 →
  (∃ l2', l2 = l2' ++ [x] ∧ l = l1 ++ r :: l2') ∨ (l2 = [] ∧ l1 = l ∧ r = x).
Proof.
  intros H. destruct l2 as [|y l2 _] using rev_ind.
  - right. apply (app_inj_tail l l1 x r) in H. destruct H as [-> ->]. done.
  - left. exists l2.
    change (l1 ++ r :: l2 ++ [y]) with (l1 ++ (r :: l2) ++ [y]) in H.
    rewrite (assoc_L (++)) in H. apply app_inj_tail in H as [-> ->]. done.
Qed.

Lemma first_published_snoc (l : list release) (rel : release) id url :
  first_published (l ++ [rel]) id url ↔
  first_published l id url ∨
  (release_version rel = Some id ∧ (Some id ∉ (release_version <$> l)) ∧
   published rel = Some url).
Proof.
  split.
  - intros (l1 & r & l2 & Hl & Hv & Hfirst & Hp).
    apply snoc_split in Hl as [(l2' & -> & ->)|(-> & -> & ->)].
    + left. by exists l1, r, l2'.
    + by right.
  - intros [(l1 & r & l2 & -> & Hv & Hfirst & Hp)|(Hv & Hfirst & Hp)].
    + exists l1, r, (l2 ++ [rel]). by rewrite <- (assoc_L (++)).
    + by exists l, rel, [].
Qed.

Lemma first_published_seen (l : list release) id url :
  first_published l id url → Some id ∈ (release_version <$> l).
Proof.
  intros (l1 & r & l2 & -> & Hv & _). rewrite fmap_app, fmap_cons, Hv.
  apply elem_of_app. right. apply list_elem_of_here.
Qed.

Lemma collected_new : collected [] new_collector.
Proof.
  split; [|split; [|split]].
  - intros v. simpl. split; [set_solver|]. by intros ?%not_elem_of_nil.
  - intros id url. simpl. split; [by intros ?%not_elem_of_nil|].
    intros (l1 & r & l2 & Hl & _). by destruct l1.
  - constructor.
  - reflexivity.
Qed.

Lemma collected_step (l : list release) (c : collector) (rel : release) :
  collected l c → collected (l ++ [rel]) (collect_release c rel).
Proof.
  intros (Hseen & Hall & Hnodup & Hcount). unfold collect_release.
  destruct (release_version rel) as [version|] eqn:Hv.
  - destruct (decide (version ∈ seen c)) as [Hin|Hnin].
    + split; [|split; [|split]]; simpl.
      * intros v. rewrite Hseen, fmap_app, elem_of_app. simpl. rewrite Hv.
        split; [by left|]. intros [?|Heq%list_elem_of_singleton]; [done|].
        injection Heq as ->. by apply Hseen.
      * intros id url. rewrite Hall, first_published_snoc.
        split; [by left|]. intros [?|(Hv' & Hfirst & _)]; [done|].
        exfalso. apply Hfirst. apply Hseen. congruence.
      * done.
      * rewrite omap_app. simpl. rewrite Hv. simpl. rewrite length_app. simpl. lia.
    + assert (Hsize : size ({[version]} ∪ seen c) = S (size (seen c))).
      { rewrite size_union by (by apply disjoint_singleton_l).
        by rewrite size_singleton. }
      assert (Hseen' : ∀ v, v ∈ {[version]} ∪ seen c ↔
                Some v ∈ (release_version <$> l ++ [rel])).
      { intros v. rewrite elem_of_union, Hseen, fmap_app, elem_of_app. simpl.
        rewrite Hv, list_elem_of_singleton, elem_of_singleton.
        split; (intros [?|?]; [right|left]; congruence). }
      assert (Hcount' : (totalSkipped c + size ({[version]} ∪ seen c)
                = length (omap release_version (l ++ [rel])))%nat).
      { rewrite Hsize, omap_app. simpl. rewrite Hv. simpl.
        rewrite length_app. simpl. lia. }
      assert (Hfresh : Some version ∉ (release_version <$> l))
        by (by rewrite <- Hseen).
      unfold published in *.
      destruct (draft rel || prerelease rel) eqn:Hd.
      * split; [|split; [|split]]; simpl; try done.
        intros id url. rewrite Hall, first_published_snoc. unfold published.
        rewrite Hd. split; [by left|]. intros [?|(_ & _ & ?)]; done.
      * destruct (List.find is_appx (default [] (assets rel))) as [a|] eqn:Hfind.
        -- split; [|split; [|split]]; simpl; try done.
           ++ intros id url. rewrite elem_of_app, list_elem_of_singleton, Hall.
              rewrite first_published_snoc. unfold published.
              rewrite Hd, Hfind. simpl. split.
              ** intros [?|[= -> ->]]; [by left|by right].
              ** intros [?|(Hid & _ & Hurl)]; [by left|]. right. congruence.
           ++ rewrite fmap_app. simpl. apply NoDup_app. split; [done|].
              split; [|apply NoDup_singleton].
              intros x Hx ->%list_elem_of_singleton.
              apply list_elem_of_fmap in Hx as ([id url] & Hid & Hx).
              simpl in Hid. subst id. apply Hall, first_published_seen in Hx.
              done.
        -- split; [|split; [|split]]; simpl; try done.
           intros id url. rewrite Hall, first_published_snoc. unfold published.
           rewrite Hd, Hfind. split; [by left|]. intros [?|(_ & _ & ?)]; done.
  - split; [|split; [|split]].
    + intros v. rewrite Hseen, fmap_app, elem_of_app. simpl. rewrite Hv.
      rewrite list_elem_of_singleton. split; [by left|]. intros [?|?]; done.
    + intros id url. rewrite Hall, first_published_snoc, Hv.
      split; [by left|]. intros [?|(? & _)]; done.
    + done.
    + rewrite omap_app. simpl. rewrite Hv. simpl. by rewrite app_nil_r.
Qed.

Lemma collected_foldl (releases l : list release) (c : collector) :
  collected l c → collected (l ++ releases) (foldl collect_release c releases).
Proof.
  revert l c. induction releases as [|rel releases IH]; intros l c H.
  - by rewrite app_nil_r.
  - simpl. replace (l ++ rel :: releases) with ((l ++ [rel]) ++ releases)
      by (by rewrite <- (assoc_L (++))).
    apply IH. by apply collected_step.
Qed.

Lemma collected_pages (pages : list (option (list release))) l c c' :
  collected l c → collect_pages pages c = Some c' →
  collected (l ++ listed pages) c'.
Proof.
  revert l c. induction pages as [|page pages IH]; intros l c H Hc.
  - simpl in *. injection Hc as <-. by rewrite app_nil_r.
  - destruct page as [[|rel releases]|]; simpl in Hc.
    + injection Hc as <-. simpl. by rewrite app_nil_r.
    + cbn [listed]. rewrite (assoc_L (++)). eapply IH; [|exact Hc].
      by apply (collected_foldl (rel :: releases)).
    + done.
Qed.

(** A request fails exactly when a page before the first empty one is
    [None]. *)
Lemma collect_pages_fails (pages : list (option (list release))) c :
  collect_pages pages c = None ↔
  ∃ k, pages !! k = Some None ∧
       ∀ j, (j < k)%nat → ∃ rel releases, pages !! j = Some (Some (rel :: releases)).
Proof.
  revert c. induction pages as [|page pages IH]; intros c.
  - simpl. split; [done|]. by intros (k & ? & _).
  - destruct page as [[|rel releases]|].
    + simpl. split; [done|]. intros (k & Hk & Hbefore).
      destruct k as [|k]; [done|].
      destruct (Hbefore 0%nat ltac:(lia)) as (? & ? & ?). done.
    + change (collect_pages (Some (rel :: releases) :: pages) c)
        with (collect_pages pages (foldl collect_release c (rel :: releases))).
      rewrite IH. split.
      * intros (k & Hk & Hbefore). exists (S k). split; [done|].
        intros [|j] Hj; [by eexists _, _|]. apply Hbefore. lia.
      * intros (k & Hk & Hbefore). destruct k as [|k]; [done|].
        exists k. split; [done|]. intros j Hj. apply (Hbefore (S j)). lia.
    + simpl. split; [|done]. intros _. exists 0%nat. split; [done|]. lia.
Qed.

Lemma first_occurrence_unique {A B} (f : A → B) (y : B) (l1 l1' l2 l2' : list A) r r' :
  l1 ++ r :: l2 = l1' ++ r' :: l2' →
  f r = y → f r' = y → y ∉ f <$> l1 → y ∉ f <$> l1' → r = r'.
Proof.
  revert l1'. induction l1 as [|a l1 IH]; intros [|a' l1'] Hl Hr Hr' H1 H1';
    simpl in Hl; injection Hl as -> Hl.
  - done.
  - exfalso. apply H1'. rewrite fmap_cons, Hr. apply list_elem_of_here.
  - exfalso. apply H1. rewrite fmap_cons, Hr'. apply list_elem_of_here.
  - rewrite fmap_cons in H1, H1'.
    apply not_elem_of_cons in H1 as [_ H1]. apply not_elem_of_cons in H1' as [_ H1'].
    by eapply IH.
Qed.

(** X13.  What [main] collects when no request fails.  The loop goes through
    the releases of the pages before the first empty page.  The identifiers
    collected are pairwise distinct; a version [id] is collected with [url]
    exactly when the first release listed under [id] is published (no draft,
    no prerelease) and [url] is the download url of its first Appx asset that
    is no delta.  So the first release of a version decides: when it is a
    draft, a prerelease or has no such asset, the version is left out,
    whatever the later releases of that version are.  [seen] holds the
    versions listed, and [totalSkipped] counts the releases that have a
    version already seen. *)
Theorem collected_versions (pages : list (option (list release))) (c : collector) :
  collect_pages pages new_collector = Some c →
  NoDup (allVersions c).*1 ∧
  (∀ id url, (id, url) ∈ allVersions c ↔ first_published (listed pages) id url) ∧
  (∀ l1 rel l2 id,
     listed pages = l1 ++ rel :: l2 → release_version rel = Some id →
     Some id ∉ release_version <$> l1 → published rel = None →
     id ∉ (allVersions c).*1) ∧
  (∀ v, v ∈ seen c ↔ Some v ∈ release_version <$> listed pages) ∧
  (totalSkipped c + size (seen c)
   = length (omap release_version (listed pages)))%nat.
Proof.
  intros Hc.
  destruct (collected_pages pages [] _ c collected_new Hc)
    as (Hseen & Hall & Hnodup & Hcount).
  simpl in *. split; [done|]. split; [done|]. split; [|done].
  intros l1 rel l2 id Hl Hv Hfirst Hp Hin.
  apply list_elem_of_fmap in Hin as ([id' url] & Hid & Hin). simpl in Hid. subst id'.
  apply Hall in Hin as (l1' & rel' & l2' & Hl' & Hv' & Hfirst' & Hp').
  rewrite Hl in Hl'.
  assert (rel = rel') as <-
    by (eapply (first_occurrence_unique release_version (Some id)); eauto).
  congruence.
Qed.

(** X13 on [example_pages]: the version 1.21.94 is shadowed by its draft,
    the version 1.20.0 comes with the url of its second asset, one release
    is skipped and the fourth request is never made. *)
Lemma collected_versions_witness :
  ∃ c, collect_pages example_pages new_collector = Some c ∧
       allVersions c = [("1.20.0", "https://example.org/1.20.0")] ∧
       totalSkipped c = 1%nat ∧
       NoDup (allVersions c).*1 ∧
       "1.21.94" ∉ (allVersions c).*1.
Proof.
  eexists. split; [reflexivity|].
  split; [vm_compute; reflexivity|]. split; [vm_compute; reflexivity|].
  destruct (collected_versions example_pages _ eq_refl) as (Hnodup & _ & Hshadow & _).
  split; [exact Hnodup|].
  eapply (Hshadow [] _ _ "1.21.94"); [reflexivity|reflexivity| |reflexivity].
  apply not_elem_of_nil.
Defined.
